(** * grants-ingest: the PrepareFFISEmail and EnqueueFFISDownload handlers

    A shallow embedding of [cmd/PrepareFFISEmail/handler.go],
    [cmd/PrepareFFISEmail/s3.go] and of the earlier revision of the handler
    kept as [unnamed/part_000], together with the properties the
    specification states about them.

    Go strings and byte slices are both modelled by [string] (a sequence of
    8-bit characters): [string(b)] and [[]byte(s)] copy the bytes unchanged. *)

From Stdlib Require Import ZArith Ascii DecimalString DecimalFacts DecimalPos DecimalZ.
From stdpp Require Import base tactics option list strings gmap.

Open Scope Z_scope.

(** ** Go's [error] values *)

(** The error values the handlers build or pass along.  [Wrap msg err] is an
    error that prints as ["msg: err"] and whose [Unwrap()] is [err]; it is what
    [fmt.Errorf("%s: %w", msg, err)] returns and also the shape of the AWS
    SDK's operation errors. *)
Inductive error : Type :=
| context_Canceled
| errors_New (text : string)
| Wrap (msg : string) (err : error).

#[global] Instance error_eq_dec : EqDecision error := ltac:(solve_decision).

Fixpoint Error (e : error) : string :=
  match e with
  | context_Canceled => "context canceled"
  | errors_New text => text
  | Wrap msg err => msg +:+ ": " +:+ Error err
  end.

Definition errors_Unwrap (e : error) : option error :=
  match e with
  | Wrap _ err => Some err
  | _ => None
  end.

(** [errors.Is]: walks the chain of [Unwrap] and compares with [target]. *)
Fixpoint errors_Is (e target : error) : bool :=
  bool_decide (e = target) ||
  match e with
  | Wrap _ err => errors_Is err target
  | _ => false
  end.

(** Modelled from the spec: [log.Errorf] of package [internal/log] is not among
    the sources.  The spec asks that a record's error keeps the identity of its
    cause (section 4.1) and that its message classifies the failure (section
    7), and [handler_test.go] looks for the message text inside the returned
    error; so [log.Errorf(logger, msg, err)] is taken to log and to return
    [fmt.Errorf("%s: %w", msg, err)]. *)
Definition log_Errorf (msg : string) (err : error) : error := Wrap msg err.

(** ** Package [strings] *)

Fixpoint strings_HasPrefix (s prefix : string) {struct prefix} : bool :=
  match prefix with
  | EmptyString => true
  | String c prefix' =>
      match s with
      | EmptyString => false
      | String d s' => bool_decide (c = d) && strings_HasPrefix s' prefix'
      end
  end.

Fixpoint strings_Contains (s substr : string) : bool :=
  strings_HasPrefix s substr ||
  match s with
  | EmptyString => false
  | String _ s' => strings_Contains s' substr
  end.

(** ** Package [fmt]: the [%d] verb *)

(** [strconv.FormatInt(i, 10)]: decimal digits, a leading [-] for negatives. *)
Definition FormatInt (i : Z) : string := NilZero.string_of_int (Z.to_int i).

(** [strconv.Atoi] on the strings [FormatInt] produces. *)
Definition Atoi (s : string) : option Z :=
  Z.of_int <$> NilZero.int_of_string s.

(** [fmt.Sprintf] for format strings whose only verb is [%d], applied to
    integer operands. *)
Fixpoint fmt_Sprintf (format : string) (a : list Z) : string :=
  match format with
  | EmptyString => EmptyString
  | String c rest =>
      match rest with
      | String d rest' =>
          if bool_decide (c = "%"%char) && bool_decide (d = "d"%char) then
            match a with
            | x :: a' => FormatInt x +:+ fmt_Sprintf rest' a'
            | [] => "%!d(MISSING)" +:+ fmt_Sprintf rest' []
            end
          else String c (fmt_Sprintf rest a)
      | EmptyString => String c EmptyString
      end
  end.

(** ** Package [io]: readers *)

(** An [io.Reader] is a mutable stream.  Its state is what is still unread and
    the error (if any) that ends it instead of [EOF].  Functions that read
    return the new state of the reader next to their result. *)
Record Reader : Type := mkReader {
  unread : string;
  read_err : option error
}.

Definition bytes_NewReader (b : string) : Reader :=
  {| unread := b; read_err := None |}.

(** [io.ReadAll(r)]: everything up to [EOF] or the first error; the reader is
    left with nothing more to deliver. *)
Definition io_ReadAll (r : Reader) : (string * option error) * Reader :=
  ((unread r, read_err r), {| unread := EmptyString; read_err := read_err r |}).

(** ** Package [net/mail] (Go standard library) *)

Record mail_Address : Type := mkAddress {
  Name : string;      (* display name *)
  Address : string    (* user@domain *)
}.

(** The calendar fields of a [time.Time], as [Year()], [Month()] and [Day()]
    return them in the time's own zone. *)
Record time_Time : Type := mkTime {
  Year : Z;
  Month : Z;
  Day : Z
}.

(** The parser itself belongs to the standard library; the handlers are
    embedded over any implementation of it. *)
Class NetMail : Type := {
  mail_Message : Type;
  mail_Header : Type;
  mail_ReadMessage : string -> error + mail_Message;
  Header : mail_Message -> mail_Header;
  Get : mail_Header -> string -> string;
  mail_ParseAddress : string -> error + mail_Address;
  mail_ParseDate : string -> error + time_Time
}.

(** ** The S3 client interface ([s3.go]) *)

Record GetObjectInput : Type := mkGetObjectInput {
  get_Bucket : string;
  get_Key : string
}.

Record GetObjectOutput : Type := mkGetObjectOutput {
  Body : Reader
}.

Inductive ServerSideEncryption : Type :=
| ServerSideEncryptionNone
| ServerSideEncryptionAes256
| ServerSideEncryptionAwsKms.

Record PutObjectInput : Type := mkPutObjectInput {
  put_Bucket : string;
  put_Key : string;
  put_Body : Reader;
  put_ServerSideEncryption : ServerSideEncryption
}.

(** The bytes an S3 service receives when it consumes the request body. *)
Definition body_bytes (params : PutObjectInput) : string :=
  fst (fst (io_ReadAll (put_Body params))).

(** ** Effects of a record task

    A computation that may call [GetObject] and [PutObject] on the S3 client
    (interfaces [S3GetObjectAPI] and [S3PutObjectAPI]) and emit a metric.  The
    calls are made under the context of the invocation; whether that context
    is canceled when a call is made is decided by whoever runs the computation.
    Logging and tracing spans do not influence results and are left out. *)
Inductive io (A : Type) : Type :=
| Ret (a : A)
| s3_GetObject (params : GetObjectInput) (k : error + GetObjectOutput -> io A)
| s3_PutObject (params : PutObjectInput) (k : option error -> io A)
| sendMetric (name : string) (value : Z) (k : io A).

Arguments Ret {A} a.
Arguments s3_GetObject {A} params k.
Arguments s3_PutObject {A} params k.
Arguments sendMetric {A} name value k.

Fixpoint bind {A B : Type} (f : A -> io B) (m : io A) : io B :=
  match m with
  | Ret a => f a
  | s3_GetObject params k => s3_GetObject params (fun r => bind f (k r))
  | s3_PutObject params k => s3_PutObject params (fun r => bind f (k r))
  | sendMetric name value k => sendMetric name value (bind f k)
  end.

#[global] Instance io_ret : MRet io := @Ret.
#[global] Instance io_bind : MBind io := @bind.

Definition MB : Z := 1024 * 1024.

(** [UploadS3Object] of [s3.go]: uploads the bytes [b]. *)
Definition UploadS3Object (bucket key : string) (b : string) : io (option error) :=
  s3_PutObject {| put_Bucket := bucket;
                  put_Key := key;
                  put_Body := bytes_NewReader b;
                  put_ServerSideEncryption := ServerSideEncryptionAes256 |}
               (fun err => Ret err).

(** Modelled from the spec: the [UploadS3Object] that [handler.go] and
    [s3_test.go] call takes an [io.Reader] and is not among the sources
    ([s3.go] holds the variant that takes bytes).  Section 4.6 of the spec gives
    both variants the same mechanism, and [s3_test.go] requires the [Body] of
    the request to be the reader that was passed in. *)
Definition UploadS3ObjectReader (bucket key : string) (r : Reader) : io (option error) :=
  s3_PutObject {| put_Bucket := bucket;
                  put_Key := key;
                  put_Body := r;
                  put_ServerSideEncryption := ServerSideEncryptionAes256 |}
               (fun err => Ret err).

(** The configuration read from the environment. *)
Record Environment : Type := mkEnvironment {
  SourceDataBucket : string;
  ValidFFISEmail : string
}.

Record S3EventRecord : Type := mkS3EventRecord {
  EventName : string;
  Bucket_Name : string;
  Object_Key : string
}.

(** What the deferred function of a record task does once the task's result
    [err] is known. *)
Definition deferred_metric (name : string) (err : option error) : io (option error) :=
  match err with
  | Some _ => sendMetric name 1 (Ret err)
  | None => Ret err
  end.

(** ** [cmd/PrepareFFISEmail/handler.go] *)
Module Handler.
Section WithMail.
Context {mail : NetMail} (env : Environment).

Definition processHeader (h : mail_Header) : error + (string * string) :=
  match mail_ParseAddress (Get h "From") with
  | inl err => inl err
  | inr mailFrom =>
      match mail_ParseDate (Get h "Date") with
      | inl err => inl err
      | inr mailDateTime =>
          let s3ObjectKey :=
            fmt_Sprintf "sources/%d/%d/%d/ffis/raw.eml"
              [Year mailDateTime; Month mailDateTime; Day mailDateTime] in
          inr (Address mailFrom, s3ObjectKey)
      end
  end.

Definition processEmail (r : Reader) : io (option error) :=
  let '((b, err), r) := io_ReadAll r in
  match err with
  | Some err => Ret (Some err)
  | None =>
      match mail_ReadMessage b with
      | inl err => Ret (Some (log_Errorf "Error parsing email data from S3" err))
      | inr email =>
          match processHeader (Header email) with
          | inl err =>
              Ret (Some (log_Errorf "Error extracting data from email header" err))
          | inr (address, s3ObjectKey) =>
              if negb (strings_Contains address (ValidFFISEmail env)) then
                Ret (Some (log_Errorf "Origin email address does not match FFIS address"
                                      (errors_New "Invalid email address")))
              else
                err ← UploadS3ObjectReader (SourceDataBucket env) s3ObjectKey r;
                match err with
                | Some err =>
                    Ret (Some (log_Errorf
                      "Error uploading S3 object to Grants source data bucket" err))
                | None => sendMetric "email.moved" 1 (Ret None)
                end
          end
      end
  end.

(** The function handed to [wg.Go] for one record. *)
Definition recordTask (record : S3EventRecord) : io (option error) :=
  err ← s3_GetObject {| get_Bucket := Bucket_Name record;
                         get_Key := Object_Key record |}
           (fun resp =>
              match resp with
              | inl err => Ret (Some err)
              | inr resp => processEmail (Body resp)
              end);
  deferred_metric "email.failed" err.

End WithMail.
End Handler.

(** ** [unnamed/part_000]: the earlier revision of the handler *)
Module Part000.
Section WithMail.
Context {mail : NetMail} (env : Environment).

Definition processEmail (b : string) : io (option error) :=
  match mail_ReadMessage b with
  | inl err => Ret (Some (log_Errorf "Error parsing email data from S3" err))
  | inr email =>
      let header := Header email in
      match mail_ParseAddress (Get header "From") with
      | inl err => Ret (Some (log_Errorf "Error parsing email address" err))
      | inr mailFrom =>
          let mailDate := Get header "Date" in
          if negb (strings_Contains (Address mailFrom) (ValidFFISEmail env)) then
            Ret (Some (log_Errorf "Origin email address does not match FFIS address"
                                  (errors_New "Invalid email address")))
          else
            match mail_ParseDate mailDate with
            | inl err =>
                Ret (Some (log_Errorf "Error parsing date for S3 object key" err))
            | inr mailDateTime =>
                let s3ObjectKey :=
                  fmt_Sprintf "sources/%d/%d/%d/ffis/raw.eml"
                    [Year mailDateTime; Month mailDateTime; Day mailDateTime] in
                err ← UploadS3Object (SourceDataBucket env) s3ObjectKey b;
                match err with
                | Some err =>
                    Ret (Some (log_Errorf
                      "Error uploading prepared grant opportunity to DynamoDB" err))
                | None => sendMetric "email.moved" 1 (Ret None)
                end
            end
      end
  end.

Definition recordTask (record : S3EventRecord) : io (option error) :=
  err ← s3_GetObject {| get_Bucket := Bucket_Name record;
                         get_Key := Object_Key record |}
           (fun resp =>
              match resp with
              | inl err => Ret (Some err)
              | inr resp =>
                  let '((data, err), _) := io_ReadAll (Body resp) in
                  match err with
                  | Some err => Ret (Some err)
                  | None => processEmail data
                  end
              end);
  deferred_metric "opportunity.failed" err.

End WithMail.
End Part000.

(** ** An executable fragment of [net/mail]

    Enough of the standard library's parser to run the handlers on messages of
    the shape of the test fixture: header lines [Key: value] ended by an empty
    line (a line that starts with a blank continues the previous value); a
    [From] value [addr], [<addr>], [name <addr>] or a quoted name before
    [<addr>]; a [Date] value [[Dow,] D Mon YYYY HH:MM[:SS] zone].  The
    properties below are proved for every implementation of [NetMail]; this one
    gives them concrete inputs. *)
Module SampleMail.

Definition LF : ascii := ascii_of_nat 10.
Definition TAB : ascii := ascii_of_nat 9.
Definition DQUOTE : ascii := ascii_of_nat 34.

Definition is_blank (c : ascii) : bool :=
  bool_decide (c = " "%char) || bool_decide (c = TAB).

(** [split sep s]: the fields of [s] between occurrences of [sep]. *)
Fixpoint split (sep : ascii) (s : string) : list string :=
  match s with
  | EmptyString => [EmptyString]
  | String c s' =>
      if bool_decide (c = sep) then EmptyString :: split sep s'
      else match split sep s' with
           | f :: fs => String c f :: fs
           | [] => [String c EmptyString]
           end
  end.

Fixpoint trim_left (s : string) : string :=
  match s with
  | String c s' => if is_blank c then trim_left s' else s
  | EmptyString => s
  end.

Fixpoint string_rev_onto (s acc : string) : string :=
  match s with
  | EmptyString => acc
  | String c s' => string_rev_onto s' (String c acc)
  end.

Definition string_rev (s : string) : string := string_rev_onto s EmptyString.

Definition trim (s : string) : string :=
  string_rev (trim_left (string_rev (trim_left s))).

(** [cut sep s]: the text before and after the first [sep] in [s]. *)
Fixpoint cut (sep : ascii) (s : string) : option (string * string) :=
  match s with
  | EmptyString => None
  | String c s' =>
      if bool_decide (c = sep) then Some (EmptyString, s')
      else '(before, after) ← cut sep s'; Some (String c before, after)
  end.

Definition lower (c : ascii) : ascii :=
  let n := nat_of_ascii c in
  if (65 <=? n)%nat && (n <=? 90)%nat then ascii_of_nat (n + 32) else c.

Fixpoint to_lower (s : string) : string :=
  match s with
  | EmptyString => EmptyString
  | String c s' => String (lower c) (to_lower s')
  end.

Fixpoint all_chars (p : ascii -> bool) (s : string) : bool :=
  match s with
  | EmptyString => true
  | String c s' => p c && all_chars p s'
  end.

Definition is_digit (c : ascii) : bool :=
  let n := nat_of_ascii c in (48 <=? n)%nat && (n <=? 57)%nat.

Definition digits_value (s : string) : option Z :=
  match s with
  | EmptyString => None
  | _ => if all_chars is_digit s
         then Z.of_N <$> (N.of_uint <$> NilZero.uint_of_string s)
         else None
  end.

(** *** Headers *)

Definition header_fields := list (string * string).

Record message : Type := mkMessage {
  msg_Header : header_fields;
  msg_Body : string
}.

(** Adds a continuation line to the value of the last field read. *)
Definition continue_field (line : string) (fields : header_fields) : option header_fields :=
  match fields with
  | (key, value) :: fields' => Some ((key, value +:+ " " +:+ trim line) :: fields')
  | [] => None
  end.

(** Reads header lines (fields accumulate in reverse) up to the empty line. *)
Fixpoint read_header (lines : list string) (fields : header_fields)
    : error + (header_fields * list string) :=
  match lines with
  | [] => match fields with
          | [] => inl (errors_New "EOF")
          | _ => inr (rev fields, [])
          end
  | line :: lines' =>
      match line with
      | EmptyString => inr (rev fields, lines')
      | String c _ =>
          if is_blank c then
            match continue_field line fields with
            | Some fields' => read_header lines' fields'
            | None => inl (errors_New ("malformed MIME header initial line: " +:+ line))
            end
          else
            match cut ":" line with
            | Some (key, value) =>
                if bool_decide (key = EmptyString) || negb (all_chars (fun c => negb (is_blank c)) key)
                then inl (errors_New ("malformed MIME header line: " +:+ line))
                else read_header lines' ((key, trim value) :: fields)
            | None => inl (errors_New ("malformed MIME header line: " +:+ line))
            end
      end
  end.

Fixpoint join_lines (lines : list string) : string :=
  match lines with
  | [] => EmptyString
  | [l] => l
  | l :: ls => l +:+ String LF (join_lines ls)
  end.

Definition ReadMessage (b : string) : error + message :=
  match read_header (split LF b) [] with
  | inl err => inl err
  | inr (fields, body) => inr {| msg_Header := fields; msg_Body := join_lines body |}
  end.

(** [Header.Get]: the first value of the field, whatever the case of its
    name; the empty string when the field is absent. *)
Fixpoint header_Get (h : header_fields) (key : string) : string :=
  match h with
  | [] => EmptyString
  | (k, v) :: h' =>
      if bool_decide (to_lower k = to_lower key) then v else header_Get h' key
  end.

(** *** Addresses *)

Definition addr_char (c : ascii) : bool :=
  negb (is_blank c) &&
  negb (bool_decide (c = "<"%char)) && negb (bool_decide (c = ">"%char)) &&
  negb (bool_decide (c = ","%char)) && negb (bool_decide (c = DQUOTE)) &&
  negb (bool_decide (c = "@"%char)).

Definition addr_spec (s : string) : error + string :=
  match cut "@" s with
  | Some (local, domain) =>
      if bool_decide (local = EmptyString) then inl (errors_New "mail: no angle-addr")
      else if bool_decide (domain = EmptyString) then
        inl (errors_New "mail: no domain in addr-spec")
      else if all_chars addr_char local && all_chars addr_char domain then inr s
      else inl (errors_New "mail: invalid string")
  | None => inl (errors_New "mail: missing '@' or angle-addr")
  end.

Definition strip_quotes (s : string) : string :=
  match s with
  | String c s' =>
      if bool_decide (c = DQUOTE) then
        match string_rev s' with
        | String d r => if bool_decide (d = DQUOTE) then string_rev r else s
        | EmptyString => s
        end
      else s
  | EmptyString => s
  end.

Definition ParseAddress (address : string) : error + mail_Address :=
  let s := trim address in
  if bool_decide (s = EmptyString) then inl (errors_New "mail: no address")
  else
    match cut "<" s with
    | Some (name, rest) =>
        match cut ">" rest with
        | Some (spec, after) =>
            if bool_decide (trim after = EmptyString) then
              match addr_spec spec with
              | inl err => inl err
              | inr a => inr {| Name := strip_quotes (trim name); Address := a |}
              end
            else inl (errors_New "mail: expected single address")
        | None => inl (errors_New "mail: unclosed angle-addr")
        end
    | None =>
        match addr_spec s with
        | inl err => inl err
        | inr a => inr {| Name := EmptyString; Address := a |}
        end
    end.

(** *** Dates *)

Definition month_names : list string :=
  ["Jan"; "Feb"; "Mar"; "Apr"; "May"; "Jun";
   "Jul"; "Aug"; "Sep"; "Oct"; "Nov"; "Dec"].

Fixpoint index_of (x : string) (l : list string) (i : Z) : option Z :=
  match l with
  | [] => None
  | y :: l' => if bool_decide (x = y) then Some i else index_of x l' (i + 1)
  end.

Definition is_leap (y : Z) : bool :=
  (y mod 4 =? 0) && (negb (y mod 100 =? 0) || (y mod 400 =? 0)).

Definition days_in (y m : Z) : Z :=
  if m =? 2 then (if is_leap y then 29 else 28)
  else if (m =? 4) || (m =? 6) || (m =? 9) || (m =? 11) then 30 else 31.

Definition clock_ok (s : string) : bool :=
  match digits_value <$> split ":" s with
  | [Some h; Some m] => (h <? 24) && (m <? 60)
  | [Some h; Some m; Some sec] => (h <? 24) && (m <? 60) && (sec <? 60)
  | _ => false
  end.

Definition zone_ok (s : string) : bool :=
  match s with
  | String c digits =>
      if bool_decide (c = "+"%char) || bool_decide (c = "-"%char)
      then bool_decide (String.length digits = 4%nat) && all_chars is_digit digits
      else all_chars (fun c => negb (is_digit c)) s
  | EmptyString => false
  end.

Definition drop_day_of_week (fields : list string) : list string :=
  match fields with
  | f :: fields' =>
      match string_rev f with
      | String c _ => if bool_decide (c = ","%char) then fields' else fields
      | EmptyString => fields
      end
  | [] => []
  end.

Definition could_not_be_parsed : error := errors_New "mail: header could not be parsed".

Definition ParseDate (date : string) : error + time_Time :=
  let fields := filter (fun f => f ≠ EmptyString) (split " " (trim date)) in
  match drop_day_of_week fields with
  | [d; mon; y; clock; zone] =>
      match digits_value d, index_of mon month_names 1, digits_value y with
      | Some d, Some m, Some y =>
          if (1 <=? d) && (d <=? days_in y m) && clock_ok clock && zone_ok zone
          then inr {| Year := y; Month := m; Day := d |}
          else inl could_not_be_parsed
      | _, _, _ => inl could_not_be_parsed
      end
  | _ => inl could_not_be_parsed
  end.

#[global] Instance net_mail : NetMail := {|
  mail_Message := message;
  mail_Header := header_fields;
  mail_ReadMessage := ReadMessage;
  Header := msg_Header;
  Get := header_Get;
  mail_ParseAddress := ParseAddress;
  mail_ParseDate := ParseDate
|}.

(** The message of [handler_test.go]. *)
Definition RECEIVED_EMAIL_TEMPLATE : string :=
  join_lines
    ["From: FFIS <fake@ffis.org>";
     "Date: Mon, 24 Apr 2023 17:42:13 -0500";
     "Subject: Competitive Grant Update 23-17";
     "To: <nobody@nowhere.org>";
     "";
     "";
     "This is a test";
     ""].

(** The configuration of [setupLambdaEnvForTesting]. *)
Definition test_env : Environment :=
  {| SourceDataBucket := "test-source-data-bucket";
     ValidFFISEmail := "fake@ffis.org" |}.

End SampleMail.

(** ** Running the record tasks of an invocation

    The S3 service is any state machine over some type [World]; the flag its
    operations receive tells whether the context of the call was already
    canceled when the call was made. *)
Class S3Service (World : Type) : Type := {
  service_GetObject : bool -> GetObjectInput -> World -> (error + GetObjectOutput) * World;
  service_PutObject : bool -> PutObjectInput -> World -> option error * World
}.

(** What one step of a record task did, as an observer of the S3 client and of
    the metrics sink sees it. *)
Inductive event : Type :=
| GetObjectEvent (canceled : bool) (params : GetObjectInput) (resp : error + GetObjectOutput)
| PutObjectEvent (canceled : bool) (params : PutObjectInput) (err : option error)
| MetricEvent (name : string) (value : Z).

(** A goroutine started by [wg.Go]: still running some rest of its task, or
    returned with the task's result. *)
Inductive goroutine : Type :=
| Running (t : io (option error))
| Finished (err : option error).

(** [*multierror.Error]: the list in its field [Errors]. *)
Definition multierror := list error.

(** [multierror.Append(errs, err)] for an [err] that is not itself a
    [*multierror.Error] (no record task returns one). *)
Definition multierror_Append (errs : multierror) (err : error) : multierror :=
  errs ++ [err].

Definition ErrorOrNil (errs : multierror) : option multierror :=
  match errs with
  | [] => None
  | _ => Some errs
  end.

Definition Len (errs : multierror) : nat := length errs.

Section Group.
Context {World : Type} {service : S3Service World}.

(** One step of a task: the state of the goroutine afterwards, what was
    observed, and the service's new state. *)
Definition step_io (canceled : bool) (t : io (option error)) (w : World)
    : goroutine * option event * World :=
  match t with
  | Ret err => (Finished err, None, w)
  | s3_GetObject params k =>
      let '(resp, w') := service_GetObject canceled params w in
      (Running (k resp), Some (GetObjectEvent canceled params resp), w')
  | s3_PutObject params k =>
      let '(err, w') := service_PutObject canceled params w in
      (Running (k err), Some (PutObjectEvent canceled params err), w')
  | sendMetric name value k =>
      (Running k, Some (MetricEvent name value), w)
  end.

(** The invocation while its goroutines run: the service, whether the
    context has been canceled, what happened so far (each event with the
    index of the record whose task did it), the errors [wg] has collected
    and the goroutines. *)
Record State : Type := mkState {
  world : World;
  done : bool;
  trace : list (nat * event);
  errs : multierror;
  goroutines : list goroutine
}.

(** What the wrapper of [Group.Go] does with the result of a task. *)
Definition collect (err : option error) (errs : multierror) : multierror :=
  match err with
  | Some err => multierror_Append errs err
  | None => errs
  end.

(** Goroutine [i] takes one step (nothing happens if it has returned). *)
Definition step (i : nat) (s : State) : State :=
  match goroutines s !! i with
  | Some (Running t) =>
      let '(g, ev, w) := step_io (done s) t (world s) in
      {| world := w;
         done := done s;
         trace := trace s ++ ((fun ev => (i, ev)) <$> option_list ev);
         errs := match g with Finished err => collect err (errs s) | Running _ => errs s end;
         goroutines := <[i := g]> (goroutines s) |}
  | _ => s
  end.

(** The caller cancels the context. *)
Definition cancel (s : State) : State :=
  {| world := world s; done := true; trace := trace s;
     errs := errs s; goroutines := goroutines s |}.

(** What the scheduler and the caller may do, one after the other. *)
Inductive action : Type :=
| Run (i : nat)
| Cancel.

Definition perform (s : State) (a : action) : State :=
  match a with
  | Run i => step i s
  | Cancel => cancel s
  end.

(** Goroutine [i], whose remaining task is [t], runs until it returns. *)
Fixpoint complete (i : nat) (t : io (option error)) (s : State) : State :=
  match t with
  | Ret _ => step i s
  | s3_GetObject params k =>
      complete i (k (fst (service_GetObject (done s) params (world s)))) (step i s)
  | s3_PutObject params k =>
      complete i (k (fst (service_PutObject (done s) params (world s)))) (step i s)
  | sendMetric _ _ k => complete i k (step i s)
  end.

Definition join (s : State) (i : nat) : State :=
  match goroutines s !! i with
  | Some (Running t) => complete i t s
  | _ => s
  end.

(** [wg.Wait()]: returns once every goroutine has returned. *)
Definition Wait (s : State) : State :=
  foldl join s (seq 0 (length (goroutines s))).

(** An invocation: one goroutine per task, interleaved as [schedule] says;
    what [schedule] leaves unfinished runs on while [wg.Wait()] blocks.  The
    result is the error returned next to the final state. *)
Definition run_group (ctx_canceled : bool) (tasks : list (io (option error)))
    (schedule : list action) (w : World) : option multierror * State :=
  let s := {| world := w; done := ctx_canceled; trace := []; errs := [];
              goroutines := Running <$> tasks |} in
  let s := Wait (foldl perform s schedule) in
  (ErrorOrNil (errs s), s).

(** A computation run on its own, from start to end, under a context that is
    canceled or not: its result, what was observed, the service afterwards. *)
Fixpoint run_io {A : Type} (canceled : bool) (t : io A) (w : World)
    : A * list event * World :=
  match t with
  | Ret a => (a, [], w)
  | s3_GetObject params k =>
      let '(resp, w') := service_GetObject canceled params w in
      let '(a, evs, w'') := run_io canceled (k resp) w' in
      (a, GetObjectEvent canceled params resp :: evs, w'')
  | s3_PutObject params k =>
      let '(err, w') := service_PutObject canceled params w in
      let '(a, evs, w'') := run_io canceled (k err) w' in
      (a, PutObjectEvent canceled params err :: evs, w'')
  | sendMetric name value k =>
      let '(a, evs, w') := run_io canceled k w in
      (a, MetricEvent name value :: evs, w')
  end.

End Group.

Arguments State World : clear implicits.

(** [handleS3EventWithConfig] of [handler.go], for a context that is canceled
    already or not ([ctx_canceled]) and under a given interleaving. *)
Definition handleS3EventWithConfig {mail : NetMail} (env : Environment)
    {World : Type} {service : S3Service World}
    (ctx_canceled : bool) (s3Event : list S3EventRecord)
    (schedule : list action) (w : World) : option multierror * State World :=
  run_group ctx_canceled (Handler.recordTask env <$> s3Event) schedule w.

(** The same function in [unnamed/part_000]. *)
Definition part000_handleS3EventWithConfig {mail : NetMail} (env : Environment)
    {World : Type} {service : S3Service World}
    (ctx_canceled : bool) (s3Event : list S3EventRecord)
    (schedule : list action) (w : World) : option multierror * State World :=
  run_group ctx_canceled (Part000.recordTask env <$> s3Event) schedule w.

(** ** Reading a trace *)

(** The events of the task of record [i], in order. *)
Definition events_of (i : nat) (tr : list (nat * event)) : list event :=
  omap (fun '(j, ev) => if bool_decide (j = i) then Some ev else None) tr.

Definition is_s3_call (ev : event) : bool :=
  match ev with
  | GetObjectEvent _ _ _ | PutObjectEvent _ _ _ => true
  | MetricEvent _ _ => false
  end.

(** A storage write that took place: a [PutObject] that returned no error. *)
Definition is_write (ev : event) : bool :=
  match ev with
  | PutObjectEvent _ _ None => true
  | _ => false
  end.

Definition is_fetch (ev : event) : bool :=
  match ev with
  | GetObjectEvent _ _ _ => true
  | _ => false
  end.

(** The call was made when the context was canceled already. *)
Definition under_canceled (ev : event) : bool :=
  match ev with
  | GetObjectEvent c _ _ | PutObjectEvent c _ _ => c
  | MetricEvent _ _ => false
  end.

Definition writes (evs : list event) : nat := length (filter is_write evs).

(** The writes of a task that returned [err]: one if it succeeded. *)
Definition writes_expected (err : option error) : nat :=
  match err with
  | None => 1
  | Some _ => 0
  end.

Definition failed (g : goroutine) : option error :=
  match g with
  | Finished (Some err) => Some err
  | _ => None
  end.

(** ** An in-memory S3 service

    Objects by bucket and key, like the fake S3 server of the tests.  A call
    under a canceled context fails with an operation error that wraps
    [context.Canceled]; a missing object fails with [NoSuchKey]; a put stores
    what the request body delivers. *)
Module MemS3.

Definition store := gmap (string * string) string.

Definition GetObject (canceled : bool) (params : GetObjectInput) (w : store)
    : (error + GetObjectOutput) * store :=
  if canceled then (inl (Wrap "operation error S3: GetObject" context_Canceled), w)
  else match w !! (get_Bucket params, get_Key params) with
       | Some b => (inr {| Body := bytes_NewReader b |}, w)
       | None => (inl (Wrap "operation error S3: GetObject" (errors_New "NoSuchKey")), w)
       end.

Definition PutObject (canceled : bool) (params : PutObjectInput) (w : store)
    : option error * store :=
  if canceled then (Some (Wrap "operation error S3: PutObject" context_Canceled), w)
  else match io_ReadAll (put_Body params) with
       | ((b, None), _) => (None, <[(put_Bucket params, put_Key params) := b]> w)
       | ((_, Some err), _) => (Some (Wrap "operation error S3: PutObject" err), w)
       end.

#[global] Instance service : S3Service store := {|
  service_GetObject := GetObject;
  service_PutObject := PutObject
|}.

End MemS3.

(** ** Vocabulary of the specification *)

(** The request of the first call a computation makes, if that is a
    [PutObject]. *)
Definition first_put {A : Type} (t : io A) : option PutObjectInput :=
  match t with
  | s3_PutObject params _ => Some params
  | _ => None
  end.

(** The destination key as the spec words it:
    [sources/{year}/{month}/{day}/ffis/raw.eml], each number in decimal. *)
Definition destination_key (t : time_Time) : string :=
  "sources/" +:+ FormatInt (Year t) +:+ "/" +:+ FormatInt (Month t) +:+ "/"
  +:+ FormatInt (Day t) +:+ "/ffis/raw.eml".

(** The error of a sender that is not the expected one (the spec's
    [ValidationError]), as both revisions of [processEmail] build it. *)
Definition ValidationError : error :=
  log_Errorf "Origin email address does not match FFIS address"
             (errors_New "Invalid email address").

(** What [processEmail] decides before anything is written: the record is
    rejected, for some underlying cause, or it is uploaded. *)
Inductive verdict : Type :=
| Rejected (cause : option error)
| Upload (bucket key body : string).

Definition verdict_of (t : io (option error)) : option verdict :=
  match t with
  | Ret (Some err) => Some (Rejected (errors_Unwrap err))
  | s3_PutObject params _ =>
      Some (Upload (put_Bucket params) (put_Key params) (body_bytes params))
  | _ => None
  end.

(** The two revisions of [processEmail] decide alike on the bytes [b]. *)
Definition same_outcome {mail : NetMail} (env : Environment) (b : string) : Prop :=
  verdict_of (Handler.processEmail env (bytes_NewReader b))
  = verdict_of (Part000.processEmail env b).

(** *** Properties of what remains of a task *)

(** With [n] storage writes made so far, what remains of the task returns [nil]
    exactly if the task has written once, and an error if it has not written. *)
Fixpoint writes_iff_succeeds (n : nat) (t : io (option error)) : Prop :=
  match t with
  | Ret None => n = 1%nat
  | Ret (Some _) => n = 0%nat
  | s3_GetObject _ k => forall resp, writes_iff_succeeds n (k resp)
  | s3_PutObject _ k =>
      writes_iff_succeeds (S n) (k None) /\ forall err, writes_iff_succeeds n (k (Some err))
  | sendMetric _ _ k => writes_iff_succeeds n k
  end.

(** What remains of the task fetches nothing. *)
Fixpoint no_fetch (t : io (option error)) : Prop :=
  match t with
  | Ret _ => True
  | s3_GetObject _ _ => False
  | s3_PutObject _ k => forall err, no_fetch (k err)
  | sendMetric _ _ k => no_fetch k
  end.

(** The goroutine makes no further call to S3 and returns [err]. *)
Definition stopped (metric : string) (err : error) (g : goroutine) : Prop :=
  g = Running (sendMetric metric 1 (Ret (Some err))) \/
  g = Running (Ret (Some err)) \/
  g = Finished (Some err).

(** A call to S3 answered with an error whose chain holds [context.Canceled]. *)
Definition cancel_observed (ev : event) : bool :=
  match ev with
  | GetObjectEvent _ _ (inl err) | PutObjectEvent _ _ (Some err) =>
      errors_Is err context_Canceled
  | _ => false
  end.

(** Whenever a call of what remains of the task is answered with a
    cancellation, the task stops there and returns an error that identifies
    the cancellation. *)
Fixpoint cancel_safe (metric : string) (t : io (option error)) : Prop :=
  match t with
  | Ret _ => True
  | s3_GetObject _ k =>
      (forall err, errors_Is err context_Canceled = true ->
         exists err', errors_Is err' context_Canceled = true /\
                      stopped metric err' (Running (k (inl err)))) /\
      (forall resp, cancel_safe metric (k resp))
  | s3_PutObject _ k =>
      (forall err, errors_Is err context_Canceled = true ->
         exists err', errors_Is err' context_Canceled = true /\
                      stopped metric err' (Running (k (Some err)))) /\
      (forall err, cancel_safe metric (k err))
  | sendMetric _ _ k => cancel_safe metric k
  end.

(** The calls to S3 among the events of a task. *)
Definition s3_calls (evs : list event) : list event := filter is_s3_call evs.

(** *** Invariants of a goroutine and of the events of its task *)

(** A task that has returned succeeded exactly if it has written once; one
    that failed has not written. *)
Definition written_iff_succeeded (i : nat) (evs : list event) (g : goroutine) : Prop :=
  match g with
  | Running t => writes_iff_succeeds (writes evs) t
  | Finished err => writes evs = writes_expected err
  end.

(** The course of the task of record [i] of [s3Event]: it starts with one
    fetch of the record's object; if the fetch fails, the task emits the
    failure metric and returns the error of the fetch, and nothing else; if
    the fetch succeeds, the task never fetches again. *)
Definition fetch_protocol {mail : NetMail} (env : Environment)
    (s3Event : list S3EventRecord) (i : nat) (evs : list event) (g : goroutine) : Prop :=
  exists record,
    s3Event !! i = Some record /\
    let params := {| get_Bucket := Bucket_Name record; get_Key := Object_Key record |} in
    (evs = [] /\ g = Running (Handler.recordTask env record)) \/
    (exists c err,
       evs = [GetObjectEvent c params (inl err)] /\
       g = Running (sendMetric "email.failed" 1 (Ret (Some err)))) \/
    (exists c err,
       evs = [GetObjectEvent c params (inl err); MetricEvent "email.failed" 1] /\
       (g = Running (Ret (Some err)) \/ g = Finished (Some err))) \/
    (exists c resp evs',
       evs = GetObjectEvent c params (inr resp) :: evs' /\
       Forall (fun ev => is_fetch ev = false) evs' /\
       match g with Running t => no_fetch t | Finished _ => True end).

(** Either one call of the task was answered with a cancellation, it is the
    last call the task has made and the task stops with an error that
    identifies the cancellation; or no call was answered so and what remains
    of the task is [cancel_safe]. *)
Definition cancel_protocol (i : nat) (evs : list event) (g : goroutine) : Prop :=
  (exists err pre ev,
     errors_Is err context_Canceled = true /\
     stopped "email.failed" err g /\
     s3_calls evs = pre ++ [ev] /\
     cancel_observed ev = true /\
     Forall (fun ev => cancel_observed ev = false) pre) \/
  (Forall (fun ev => cancel_observed ev = false) (s3_calls evs) /\
   match g with Running t => cancel_safe "email.failed" t | Finished _ => True end).

Section Invariants.
Context {World : Type} {service : S3Service World}.

(** [Q] holds again after any step of a goroutine and after a cancellation. *)
Definition stable (Q : State World -> Prop) : Prop :=
  (forall i s, Q s -> Q (step i s)) /\ (forall s, Q s -> Q (cancel s)).

(** The collected errors are the errors of the goroutines that have
    returned one, in some order. *)
Definition errs_collected (s : State World) : Prop :=
  errs s ≡ₚ omap failed (goroutines s).

(** [P i evs g]: a property of goroutine [i], of its state [g] and of the
    events [evs] of its task so far, that every step of the task keeps. *)
Definition local_inv (P : nat -> list event -> goroutine -> Prop) : Prop :=
  forall i evs t c w, P i evs (Running t) ->
    P i (evs ++ option_list (step_io c t w).1.2) (step_io c t w).1.1.

Definition holds_locally (P : nat -> list event -> goroutine -> Prop)
    (s : State World) : Prop :=
  forall i g, goroutines s !! i = Some g -> P i (events_of i (trace s)) g.

(** Events carry the index of a goroutine of the invocation. *)
Definition tags_bounded (s : State World) : Prop :=
  forall j ev, (j, ev) ∈ trace s -> (j < length (goroutines s))%nat.

(** The answer recorded in an event is an answer of the service to that call
    (in some state of the service). *)
Definition genuine (ev : event) : Prop :=
  match ev with
  | GetObjectEvent c params resp => exists w, resp = (service_GetObject c params w).1
  | PutObjectEvent c params err => exists w, err = (service_PutObject c params w).1
  | MetricEvent _ _ => True
  end.

Definition events_genuine (s : State World) : Prop :=
  forall j ev, (j, ev) ∈ trace s -> genuine ev.

(** Once the context is canceled, every call is made under a canceled
    context. *)
Definition canceled_throughout (s : State World) : Prop :=
  done s = true /\
  forall j ev, (j, ev) ∈ trace s -> is_s3_call ev = true -> under_canceled ev = true.

(** The service honours cancellation: a call made under a canceled context
    fails with an error whose chain holds [context.Canceled]. *)
Definition honours_cancellation : Prop :=
  (forall params w, exists err,
     (service_GetObject true params w).1 = inl err /\
     errors_Is err context_Canceled = true) /\
  (forall params w, exists err,
     (service_PutObject true params w).1 = Some err /\
     errors_Is err context_Canceled = true).

End Invariants.

(** ** [cmd/EnqueueFFISDownload]: the URL extraction pipeline *)
Module EnqueueFFISDownload.

(** The queue client: [SendMessage] publishes one body and answers with a
    message id or an error. *)
Class SQSService (Queue : Type) : Type := {
  SendMessage : string -> Queue -> (error + string) * Queue
}.

Section WithLibraries.
(** The sentinel errors named in [handler_test.go], the message parser
    (which yields the plaintext part of a message, if it has one) and the
    regular expression engine are not among the sources. *)
Context (ErrNoPlaintext ErrNoMatchesFound ErrMultipleFound : error).
Context (plaintext_part : string -> error + option string).
Context (FindAllString : string -> string -> list string).
Context {Queue : Type} {sqs : SQSService Queue}.

(** Modelled from the spec: the URL extractor of section 4.5; its code is
    not among the sources (only [handler_test.go] of the command is).  It
    fails without a plaintext part, looks for the matches of the URL
    pattern in the plaintext body and wants exactly one. *)
Definition extractURL (URLPattern : string) (plaintext : option string)
    : error + string :=
  match plaintext with
  | None => inl ErrNoPlaintext
  | Some body =>
      match FindAllString URLPattern body with
      | [] => inl ErrNoMatchesFound
      | [url] => inr url
      | _ :: _ :: _ => inl ErrMultipleFound
      end
  end.

(** Modelled from the spec: the record pipeline of sections 2 and 4.5
    (parse, extract, forward): the one matched URL is sent as the body of
    one queue message. *)
Definition processRecord (URLPattern : string) (b : string) (q : Queue)
    : option error * Queue :=
  match plaintext_part b with
  | inl err => (Some err, q)
  | inr plaintext =>
      match extractURL URLPattern plaintext with
      | inl err => (Some err, q)
      | inr url =>
          match SendMessage url q with
          | (inl err, q') => (Some err, q')
          | (inr _, q') => (None, q')
          end
      end
  end.

End WithLibraries.

(** *** Stand-ins to run the pipeline on concrete messages *)

(** The queue of the test: it keeps the bodies it was sent. *)
#[global] Instance mock_sqs : SQSService (list string) := {|
  SendMessage body q := (inr "123456789012345678901234567890", q ++ [body])
|}.

Definition sample_ErrNoPlaintext : error := errors_New "no plaintext part in email".
Definition sample_ErrNoMatchesFound : error := errors_New "no matches found".
Definition sample_ErrMultipleFound : error := errors_New "multiple matches found".

(** The body of a message whose [Content-Type] is absent or [text/plain]. *)
Definition sample_plaintext_part (b : string) : error + option string :=
  match SampleMail.ReadMessage b with
  | inl err => inl err
  | inr m =>
      let ct := SampleMail.header_Get (SampleMail.msg_Header m) "Content-Type" in
      if bool_decide (ct = EmptyString) || strings_HasPrefix ct "text/plain"
      then inr (Some (SampleMail.msg_Body m))
      else inr None
  end.

Definition has_suffix (s suffix : string) : bool :=
  strings_HasPrefix (SampleMail.string_rev s) (SampleMail.string_rev suffix).

(** Matches of a pattern [prefix.+suffix] without other operators, in a text
    with at most one candidate per line and none with blanks inside. *)
Definition sample_FindAllString (prefix suffix : string) (text : string) : list string :=
  filter (fun word => strings_HasPrefix word prefix /\ has_suffix word suffix /\
                      (String.length prefix + String.length suffix < String.length word)%nat)
         (concat (SampleMail.split " " <$> SampleMail.split SampleMail.LF text)).

Definition sample_process : string -> list string -> option error * list string :=
  processRecord sample_ErrNoPlaintext sample_ErrNoMatchesFound sample_ErrMultipleFound
    sample_plaintext_part
    (fun _ => sample_FindAllString "https://mcusercontent.com/" ".xlsx")
    "https://mcusercontent.com/.+\.xlsx".

Definition good_eml : string :=
  SampleMail.join_lines
    ["From: FFIS <fake@ffis.org>"; "Content-Type: text/plain"; "";
     "Download: https://mcusercontent.com/123456/files/file-01.xlsx"; ""].

Definition missing_eml : string :=
  SampleMail.join_lines
    ["From: FFIS <fake@ffis.org>"; "Content-Type: text/plain"; "";
     "Nothing to download this week"; ""].

Definition multiple_eml : string :=
  SampleMail.join_lines
    ["From: FFIS <fake@ffis.org>"; "Content-Type: text/plain"; "";
     "https://mcusercontent.com/123456/files/file-01.xlsx";
     "https://mcusercontent.com/123456/files/file-02.xlsx"; ""].

Definition no_plaintext_eml : string :=
  SampleMail.join_lines
    ["From: FFIS <fake@ffis.org>"; "Content-Type: text/html"; "";
     "<a href=https://mcusercontent.com/123456/files/file-01.xlsx>file</a>"; ""].

End EnqueueFFISDownload.

(** ** Concrete invocations *)
Module Scenario.
Import SampleMail.

(** The bucket of received mail in the test "Missing source object". *)
Definition email_bucket : MemS3.store :=
  {[ ("test-email-bucket", "ses/ffis_ingest/new/test.eml") := RECEIVED_EMAIL_TEMPLATE ]}.

Definition missing_and_present : list S3EventRecord :=
  [ {| EventName := ""; Bucket_Name := "test-email-bucket"; Object_Key := "does/not/exist" |};
    {| EventName := ""; Bucket_Name := "test-email-bucket";
       Object_Key := "ses/ffis_ingest/new/test.eml" |} ].

Definition present : list S3EventRecord :=
  [ {| EventName := ""; Bucket_Name := "test-email-bucket";
       Object_Key := "ses/ffis_ingest/new/test.eml" |} ].

(** The record of the test "Context canceled during invocation". *)
Definition does_not_matter : list S3EventRecord :=
  [ {| EventName := ""; Bucket_Name := "source-bucket"; Object_Key := "does/not/matter" |} ].

(** A sender that is not the expected one and a date that is no date. *)
Definition wrong_sender_bad_date : string :=
  join_lines ["From: FFIS <fake@elsewhere.org>"; "Date: yesterday"; ""; "This is a test"; ""].

(** The expected address as display name of another sender. *)
Definition spoofed_display_name : string :=
  join_lines
    ["From: " +:+ String DQUOTE "fake@ffis.org" +:+ String DQUOTE " <intruder@example.com>";
     "Date: Mon, 24 Apr 2023 17:42:13 -0500"; ""; "This is a test"; ""].

(** The expected address inside a longer one. *)
Definition longer_address : string :=
  join_lines
    ["From: FFIS <not-fake@ffis.org.example.com>";
     "Date: Mon, 24 Apr 2023 17:42:13 -0500"; ""; "This is a test"; ""].

End Scenario.

(** ** Courses of a record task *)

(** [behaves t evs r]: for some answers of the service, the computation [t]
    makes the observations [evs] and returns [r]. *)
Fixpoint behaves (t : io (option error)) (evs : list event) (r : option error) : Prop :=
  match t with
  | Ret a => evs = [] /\ r = a
  | s3_GetObject params k =>
      exists c resp evs',
        evs = GetObjectEvent c params resp :: evs' /\ behaves (k resp) evs' r
  | s3_PutObject params k =>
      exists c err evs',
        evs = PutObjectEvent c params err :: evs' /\ behaves (k err) evs' r
  | sendMetric name value k =>
      exists evs', evs = MetricEvent name value :: evs' /\ behaves k evs' r
  end.

(** What a goroutine may still observe and return. *)
Definition rest_behaves (g : goroutine) (evs : list event) (r : option error) : Prop :=
  match g with
  | Running t => behaves t evs r
  | Finished r0 => evs = [] /\ r = r0
  end.

(** Whatever goroutine [i] goes on to do, its events so far and those to come
    are a behaviour of its task. *)
Definition continues (tasks : list (io (option error)))
    (i : nat) (evs : list event) (g : goroutine) : Prop :=
  exists t, tasks !! i = Some t /\
    forall evs' r, rest_behaves g evs' r -> behaves t (evs ++ evs') r.

(** What both revisions of [processEmail] are: a rejection, or one upload
    whose success is followed by the metric [email.moved] and whose failure is
    returned under the message [upload_msg]. *)
Definition rejects_or_uploads (upload_msg : string) (t : io (option error)) : Prop :=
  (exists err, t = Ret (Some err)) \/
  (exists params k,
     t = s3_PutObject params k /\
     k None = sendMetric "email.moved" 1 (Ret None) /\
     forall err, k (Some err) = Ret (Some (log_Errorf upload_msg err))).

(** The four courses of a record task, by its events and its result: the
    fetch fails; the fetched object is rejected by [after_fetch]; the upload
    fails; the upload succeeds. *)
Definition task_course (failed_metric upload_msg : string) (params : GetObjectInput)
    (after_fetch : GetObjectOutput -> io (option error))
    (evs : list event) (r : option error) : Prop :=
  (exists c err,
     evs = [GetObjectEvent c params (inl err); MetricEvent failed_metric 1] /\
     r = Some err) \/
  (exists c resp err,
     evs = [GetObjectEvent c params (inr resp); MetricEvent failed_metric 1] /\
     r = Some err /\ after_fetch resp = Ret (Some err)) \/
  (exists c resp c' put err,
     evs = [GetObjectEvent c params (inr resp); PutObjectEvent c' put (Some err);
            MetricEvent failed_metric 1] /\
     r = Some (log_Errorf upload_msg err) /\ first_put (after_fetch resp) = Some put) \/
  (exists c resp c' put,
     evs = [GetObjectEvent c params (inr resp); PutObjectEvent c' put None;
            MetricEvent "email.moved" 1] /\
     r = None /\ first_put (after_fetch resp) = Some put).

(** What the record task of [handler.go] does with a fetched object. *)
Definition handler_after_fetch {mail : NetMail} (env : Environment)
    (resp : GetObjectOutput) : io (option error) :=
  Handler.processEmail env (Body resp).

(** What the record task of [unnamed/part_000] does with a fetched object. *)
Definition part000_after_fetch {mail : NetMail} (env : Environment)
    (resp : GetObjectOutput) : io (option error) :=
  let '((data, err), _) := io_ReadAll (Body resp) in
  match err with
  | Some err => Ret (Some err)
  | None => Part000.processEmail env data
  end.

Definition record_params (record : S3EventRecord) : GetObjectInput :=
  {| get_Bucket := Bucket_Name record; get_Key := Object_Key record |}.

Definition is_put (ev : event) : bool :=
  match ev with
  | PutObjectEvent _ _ _ => true
  | _ => false
  end.

Definition is_metric (name : string) (ev : event) : bool :=
  match ev with
  | MetricEvent n _ => bool_decide (n = name)
  | _ => false
  end.

(** How often the metric [name] was emitted. *)
Definition metrics (name : string) (evs : list event) : nat :=
  length (filter (is_metric name) evs).

(** The failure metrics of a task that returned [err]: one if it failed. *)
Definition failures_expected (err : option error) : nat :=
  match err with
  | Some _ => 1
  | None => 0
  end.

(** The message was read and parsed, its sender is accepted and its date is
    [t]: what either revision of [processEmail] asks before it uploads. *)
Definition accepted {mail : NetMail} (env : Environment) (b : string) (t : time_Time) : Prop :=
  exists email mailFrom,
    mail_ReadMessage b = inr email /\
    mail_ParseAddress (Get (Header email) "From") = inr mailFrom /\
    strings_Contains (Address mailFrom) (ValidFFISEmail env) = true /\
    mail_ParseDate (Get (Header email) "Date") = inr t.

Section Isolation.
Context {World : Type} {service : S3Service World}.

(** The answers of the service do not depend on what happened before. *)
Definition answers_stateless : Prop :=
  (forall c params w w',
     (service_GetObject c params w).1 = (service_GetObject c params w').1) /\
  (forall c params w w',
     (service_PutObject c params w).1 = (service_PutObject c params w').1).

(** Goroutine [i] is where its task would be, had it run on its own under a
    context in state [c]. *)
Definition as_alone (c : bool) (w : World) (tasks : list (io (option error)))
    (i : nat) (evs : list event) (g : goroutine) : Prop :=
  exists t, tasks !! i = Some t /\
    match g with
    | Running t' =>
        (run_io c t w).1.2 = evs ++ (run_io c t' w).1.2 /\
        (run_io c t w).1.1 = (run_io c t' w).1.1
    | Finished r => (run_io c t w).1.2 = evs /\ (run_io c t w).1.1 = r
    end.

Definition alone_so_far (c : bool) (w : World) (tasks : list (io (option error)))
    (s : State World) : Prop :=
  done s = c /\ holds_locally (as_alone c w tasks) s.

End Isolation.

(** The caller does not cancel. *)
Definition runs_only (schedule : list action) : Prop :=
  Forall (fun a => a <> Cancel) schedule.

(** A service with fixed objects: a fetch finds what is there, a put is
    accepted and changes nothing that a later fetch could see. *)
Definition static_s3 (objects : gmap (string * string) string) : S3Service unit := {|
  service_GetObject c params w :=
    (match objects !! (get_Bucket params, get_Key params) with
     | Some b => inr {| Body := bytes_NewReader b |}
     | None => inl (Wrap "operation error S3: GetObject" (errors_New "NoSuchKey"))
     end, w);
  service_PutObject c params w := (None, w)
|}.

(** ** Two sentences of the specification, as they are worded *)

(** Section 4.4: a message whose sender was parsed and lacks the expected
    address fails with the validation error.  [outcome] is what
    [processEmail] makes of the bytes [b]. *)
Definition disallowed_sender_fails_validation {mail : NetMail} (env : Environment)
    (b : string) (outcome : io (option error)) : Prop :=
  forall email mailFrom,
    mail_ReadMessage b = inr email ->
    mail_ParseAddress (Get (Header email) "From") = inr mailFrom ->
    strings_Contains (Address mailFrom) (ValidFFISEmail env) = false ->
    outcome = Ret (Some ValidationError).

(** The invocation when its goroutines have been started and [schedule] has
    taken place, before [wg.Wait()]. *)
Definition started {World : Type} {service : S3Service World}
    (ctx_canceled : bool) (tasks : list (io (option error)))
    (schedule : list action) (w : World) : State World :=
  foldl perform {| world := w; done := ctx_canceled; trace := []; errs := [];
                   goroutines := Running <$> tasks |} schedule.

(** Sections 4.1 and 5: when the caller cancels after [before] has taken
    place, every task that is in flight then reports an error that identifies
    the cancellation, and the aggregate holds it. *)
Definition in_flight_tasks_report_cancellation {World : Type} {service : S3Service World}
    (tasks : list (io (option error))) (before after : list action) (w : World) : Prop :=
  let out := run_group false tasks (before ++ Cancel :: after) w in
  forall i t,
    goroutines (started false tasks before w) !! i = Some (Running t) ->
    exists err es,
      goroutines out.2 !! i = Some (Finished (Some err)) /\
      errors_Is err context_Canceled = true /\
      out.1 = Some es /\ err ∈ es.

(** The result of a task that has no call to S3 left to make: it has only
    metrics to emit before it returns. *)
Fixpoint pending_result (t : io (option error)) : option (option error) :=
  match t with
  | Ret err => Some err
  | sendMetric _ _ k => pending_result k
  | s3_GetObject _ _ | s3_PutObject _ _ => None
  end.

(** ** More invocations *)
Module Inbox.
Import SampleMail.

(** Received mail: the message of the tests and a message of another sender
    that carries the expected address as its display name. *)
Definition received : MemS3.store :=
  {[ ("test-email-bucket", "ses/ffis_ingest/new/test.eml") := RECEIVED_EMAIL_TEMPLATE;
     ("test-email-bucket", "ses/ffis_ingest/new/spoofed.eml") := Scenario.spoofed_display_name ]}.

Definition spoofed_and_genuine : list S3EventRecord :=
  [ {| EventName := "ObjectCreated:Put"; Bucket_Name := "test-email-bucket";
       Object_Key := "ses/ffis_ingest/new/spoofed.eml" |};
    {| EventName := "ObjectCreated:Put"; Bucket_Name := "test-email-bucket";
       Object_Key := "ses/ffis_ingest/new/test.eml" |} ].

(** The request of the upload of the message of the tests by [handler.go]. *)
Definition upload_request : PutObjectInput :=
  {| put_Bucket := "test-source-data-bucket";
     put_Key := "sources/2023/4/24/ffis/raw.eml";
     put_Body := {| unread := EmptyString; read_err := None |};
     put_ServerSideEncryption := ServerSideEncryptionAes256 |}.

(** The same request by [unnamed/part_000]. *)
Definition earlier_upload_request : PutObjectInput :=
  {| put_Bucket := "test-source-data-bucket";
     put_Key := "sources/2023/4/24/ffis/raw.eml";
     put_Body := bytes_NewReader RECEIVED_EMAIL_TEMPLATE;
     put_ServerSideEncryption := ServerSideEncryptionAes256 |}.

End Inbox.

(** * Properties *)

(** ** Strings and numbers *)

Lemma HasPrefix_spec s p :
  strings_HasPrefix s p = true <-> exists post, s = p +:+ post.
Proof.
  revert s. induction p as [|c p IH]; intros s; simpl.
  - split; [intros _; by exists s | done].
  - destruct s as [|d s]; simpl.
    + split; [done | intros [post ?]; discriminate].
    + rewrite andb_true_iff, bool_decide_eq_true, IH. split.
      * intros [-> [post ->]]. by exists post.
      * intros [post [= -> ->]]. eauto.
Qed.

(** [strings.Contains] is containment anywhere in the string. *)
Lemma Contains_spec s substr :
  strings_Contains s substr = true <-> exists pre post, s = pre +:+ substr +:+ post.
Proof.
  induction s as [|c s IH]; simpl; rewrite orb_true_iff, HasPrefix_spec.
  - split.
    + intros [[post H]|?]; [|done]. by exists ""%string, post.
    + intros [[|? pre] [post H]]; [left; by exists post | discriminate].
  - rewrite IH. split.
    + intros [[post H]|[pre [post H]]].
      * by exists ""%string, post.
      * exists (String c pre), post. simpl. by rewrite H.
    + intros [[|d pre] [post H]]; simpl in H.
      * left. by exists post.
      * right. injection H as -> ->. by exists pre, post.
Qed.

(** The decimal text of a number reads back as that number. *)
Lemma Atoi_FormatInt (i : Z) : Atoi (FormatInt i) = Some i.
Proof.
  unfold Atoi, FormatInt. rewrite NilZero.isi.
  - simpl. by rewrite DecimalZ.of_to.
  - destruct i; simpl; try discriminate.
    intros [= H]. by apply DecimalPos.Unsigned.to_uint_nonnil in H.
  - destruct i; simpl; try discriminate.
    intros [= H]. by apply DecimalPos.Unsigned.to_uint_nonnil in H.
Qed.



Lemma Sprintf_destination_key (t : time_Time) :
  fmt_Sprintf "sources/%d/%d/%d/ffis/raw.eml" [Year t; Month t; Day t]
  = destination_key t.
Proof. reflexivity. Qed.

Example Sprintf_key_2023_4_24 :
  fmt_Sprintf "sources/%d/%d/%d/ffis/raw.eml" [2023; 4; 24]
  = "sources/2023/4/24/ffis/raw.eml".
Proof. reflexivity. Qed.

Example sample_ReadMessage :
  SampleMail.ReadMessage SampleMail.RECEIVED_EMAIL_TEMPLATE
  = inr {| SampleMail.msg_Header :=
             [("From", "FFIS <fake@ffis.org>");
              ("Date", "Mon, 24 Apr 2023 17:42:13 -0500");
              ("Subject", "Competitive Grant Update 23-17");
              ("To", "<nobody@nowhere.org>")];
           SampleMail.msg_Body := SampleMail.join_lines [""; "This is a test"; ""] |}.
Proof. vm_compute. reflexivity. Qed.

Example sample_processHeader :
  Handler.processHeader (mail := SampleMail.net_mail)
    [("From", "FFIS <fake@ffis.org>"); ("Date", "Mon, 24 Apr 2023 17:42:13 -0500")]
  = inr ("fake@ffis.org", "sources/2023/4/24/ffis/raw.eml").
Proof. vm_compute. reflexivity. Qed.

(** ** The header and the destination key *)

Section HeaderAndKey.
Context {mail : NetMail} (env : Environment).

Lemma processHeader_inr h address key :
  Handler.processHeader h = inr (address, key) <->
  exists mailFrom t,
    mail_ParseAddress (Get h "From") = inr mailFrom /\
    mail_ParseDate (Get h "Date") = inr t /\
    address = Address mailFrom /\ key = destination_key t.
Proof.
  unfold Handler.processHeader.
  destruct (mail_ParseAddress _) as [e|mailFrom]; [split; [done|by intros (?&?&?&?)]|].
  destruct (mail_ParseDate _) as [e|t]; [split; [done|by intros (?&?&?&?&?)]|].
  rewrite Sprintf_destination_key. split.
  - intros [= <- <-]. by exists mailFrom, t.
  - by intros (?&?&[= <-]&[= <-]&->&->).
Qed.

(** What [processEmail] of [handler.go] does with a message that was read
    and parsed, by the outcome of [processHeader] and of the sender check. *)
Lemma handler_processEmail_parsed r b email :
  io_ReadAll r = ((b, None), snd (io_ReadAll r)) ->
  mail_ReadMessage b = inr email ->
  Handler.processEmail env r =
    match Handler.processHeader (Header email) with
    | inl err => Ret (Some (log_Errorf "Error extracting data from email header" err))
    | inr (address, key) =>
        if strings_Contains address (ValidFFISEmail env) then
          err ← UploadS3ObjectReader (SourceDataBucket env) key (snd (io_ReadAll r));
          match err with
          | Some err => Ret (Some (log_Errorf
              "Error uploading S3 object to Grants source data bucket" err))
          | None => sendMetric "email.moved" 1 (Ret None)
          end
        else Ret (Some ValidationError)
    end.
Proof.
  intros Hr Hm. unfold Handler.processEmail. rewrite Hr, Hm.
  destruct (Handler.processHeader _) as [e|[address key]]; [done|].
  by destruct (strings_Contains _ _).
Qed.

Lemma part000_processEmail_parsed b email mailFrom :
  mail_ReadMessage b = inr email ->
  mail_ParseAddress (Get (Header email) "From") = inr mailFrom ->
  Part000.processEmail env b =
    if strings_Contains (Address mailFrom) (ValidFFISEmail env) then
      match mail_ParseDate (Get (Header email) "Date") with
      | inl err => Ret (Some (log_Errorf "Error parsing date for S3 object key" err))
      | inr t =>
          err ← UploadS3Object (SourceDataBucket env) (destination_key t) b;
          match err with
          | Some err => Ret (Some (log_Errorf
              "Error uploading prepared grant opportunity to DynamoDB" err))
          | None => sendMetric "email.moved" 1 (Ret None)
          end
      end
    else Ret (Some ValidationError).
Proof.
  intros Hm Ha. unfold Part000.processEmail. rewrite Hm, Ha.
  destruct (strings_Contains _ _); [|done].
  by destruct (mail_ParseDate _).
Qed.

End HeaderAndKey.

Lemma ReadAll_ok r b :
  fst (io_ReadAll r) = (b, None) -> io_ReadAll r = ((b, None), snd (io_ReadAll r)).
Proof. intros H. by rewrite <- H, <- surjective_pairing. Qed.



(** ** The sender check *)

(** C4 as stated fails for [handler.go]: the message of another sender whose
    [Date] header is no date is failed by [processHeader], with the error of
    the date, before the sender is looked at. *)
Lemma handler_fails_on_the_date_before_the_sender :
  ~ disallowed_sender_fails_validation (mail := SampleMail.net_mail) SampleMail.test_env
      Scenario.wrong_sender_bad_date
      (Handler.processEmail SampleMail.test_env
         (bytes_NewReader Scenario.wrong_sender_bad_date)).
Proof.
  intros H.
  specialize (H {| SampleMail.msg_Header :=
                     [("From", "FFIS <fake@elsewhere.org>"); ("Date", "yesterday")];
                   SampleMail.msg_Body := SampleMail.join_lines ["This is a test"; ""] |}
                {| Name := "FFIS"; Address := "fake@elsewhere.org" |}
                eq_refl eq_refl eq_refl).
  vm_compute in H. discriminate.
Qed.

(** C4, amended: for a message whose [From] header parses, the check is
    [strings.Contains] of the parsed address and the expected one, which holds
    exactly when the address has the expected one somewhere inside.  In
    [unnamed/part_000] an address that passes is not failed with the
    validation error (the record is uploaded when the [Date] parses), and an
    address that does not pass fails the record with the validation error,
    "Origin email address does not match FFIS address".  In [handler.go] the
    same holds for a message whose [Date] header parses; a message whose
    [Date] header does not parse is failed by [processHeader] before the check,
    with "Error extracting data from email header" and the error of the date,
    whatever its sender. *)
Theorem sender_validation (mail : NetMail) (env : Environment) :
  (forall r b email mailFrom,
     fst (io_ReadAll r) = (b, None) ->
     mail_ReadMessage b = inr email ->
     mail_ParseAddress (Get (Header email) "From") = inr mailFrom ->
     (forall t, mail_ParseDate (Get (Header email) "Date") = inr t ->
        (strings_Contains (Address mailFrom) (ValidFFISEmail env) = true ->
           exists params, first_put (Handler.processEmail env r) = Some params /\
                          put_Key params = destination_key t) /\
        (strings_Contains (Address mailFrom) (ValidFFISEmail env) = false ->
           Handler.processEmail env r = Ret (Some ValidationError))) /\
     (forall err, mail_ParseDate (Get (Header email) "Date") = inl err ->
        Handler.processEmail env r
        = Ret (Some (log_Errorf "Error extracting data from email header" err)) /\
        Handler.processEmail env r <> Ret (Some ValidationError))) /\
  (forall b, disallowed_sender_fails_validation env b (Part000.processEmail env b)) /\
  (forall b email mailFrom,
     mail_ReadMessage b = inr email ->
     mail_ParseAddress (Get (Header email) "From") = inr mailFrom ->
     strings_Contains (Address mailFrom) (ValidFFISEmail env) = true ->
     Part000.processEmail env b <> Ret (Some ValidationError) /\
     forall t, mail_ParseDate (Get (Header email) "Date") = inr t ->
       exists params, first_put (Part000.processEmail env b) = Some params /\
                      put_Key params = destination_key t) /\
  (forall address,
     strings_Contains address (ValidFFISEmail env) = true <->
     exists pre post, address = pre +:+ ValidFFISEmail env +:+ post) /\
  Error ValidationError
  = "Origin email address does not match FFIS address: Invalid email address".
Proof.
  split_and!; [| | | |done].
  - intros r b email mailFrom Hr Hm Ha.
    rewrite (handler_processEmail_parsed env r b email) by auto using ReadAll_ok.
    unfold Handler.processHeader. rewrite Ha. split.
    + intros t ->. rewrite Sprintf_destination_key.
      split; intros ->; [by eexists | done].
    + intros err ->. done.
  - intros b email mailFrom Hm Ha Hc.
    by rewrite (part000_processEmail_parsed env b email mailFrom), Hc.
  - intros b email mailFrom Hm Ha Hc.
    rewrite (part000_processEmail_parsed env b email mailFrom), Hc by done. split.
    + by destruct (mail_ParseDate _).
    + intros t ->. by eexists.
  - intros address. apply Contains_spec.
Qed.

Lemma sender_validation_witness :
  (exists params,
     first_put (Handler.processEmail (mail := SampleMail.net_mail) SampleMail.test_env
                  (bytes_NewReader Scenario.longer_address)) = Some params /\
     put_Key params = "sources/2023/4/24/ffis/raw.eml") /\
  Handler.processEmail (mail := SampleMail.net_mail) SampleMail.test_env
    (bytes_NewReader Scenario.wrong_sender_bad_date)
  = Ret (Some (Wrap "Error extracting data from email header"
                 SampleMail.could_not_be_parsed)).
Proof.
  destruct (sender_validation SampleMail.net_mail SampleMail.test_env) as (H & _).
  split.
  - destruct (H (bytes_NewReader Scenario.longer_address) Scenario.longer_address
                {| SampleMail.msg_Header :=
                     [("From", "FFIS <not-fake@ffis.org.example.com>");
                      ("Date", "Mon, 24 Apr 2023 17:42:13 -0500")];
                   SampleMail.msg_Body := SampleMail.join_lines ["This is a test"; ""] |}
                {| Name := "FFIS"; Address := "not-fake@ffis.org.example.com" |})
      as [Hdate _]; [reflexivity..|].
    destruct (Hdate {| Year := 2023; Month := 4; Day := 24 |}) as [Hpass _];
      [reflexivity|].
    apply Hpass. reflexivity.
  - destruct (H (bytes_NewReader Scenario.wrong_sender_bad_date)
                Scenario.wrong_sender_bad_date
                {| SampleMail.msg_Header :=
                     [("From", "FFIS <fake@elsewhere.org>"); ("Date", "yesterday")];
                   SampleMail.msg_Body := SampleMail.join_lines ["This is a test"; ""] |}
                {| Name := "FFIS"; Address := "fake@elsewhere.org" |})
      as [_ Hbad]; [reflexivity..|].
    destruct (Hbad SampleMail.could_not_be_parsed) as [Herr _]; [reflexivity|].
    exact Herr.
Defined.



(** ** Uploads *)

(** C8: [UploadS3Object] makes one [PutObject] call, for the bucket and the key
    it was given, with a body that delivers the bytes it was given and with
    server-side encryption AES256; it returns what the call returned, so [nil]
    exactly when the put succeeded. *)
Theorem UploadS3Object_put {World : Type} (service : S3Service World)
    (canceled : bool) (bucket key b : string) (w : World) :
  let params := {| put_Bucket := bucket; put_Key := key;
                   put_Body := bytes_NewReader b;
                   put_ServerSideEncryption := ServerSideEncryptionAes256 |} in
  let answer := service_PutObject canceled params w in
  run_io canceled (UploadS3Object bucket key b) w
  = (fst answer, [PutObjectEvent canceled params (fst answer)], snd answer) /\
  body_bytes params = b /\
  (fst (fst (run_io canceled (UploadS3Object bucket key b) w)) = None <->
   fst answer = None).
Proof.
  simpl. destruct (service_PutObject _ _ _) as [err w'] eqn:E. simpl. done.
Qed.

(** What [handler.go] hands to the upload is the reader it has just read to
    the end: the body of the request delivers nothing. *)
Lemma handler_put_body (mail : NetMail) (env : Environment) (r : Reader) params :
  first_put (Handler.processEmail env r) = Some params ->
  body_bytes params = EmptyString.
Proof.
  unfold Handler.processEmail. simpl.
  destruct (read_err r); [done|].
  destruct (mail_ReadMessage _); [done|].
  destruct (Handler.processHeader _) as [|[address key]]; [done|].
  destruct (negb _); [done|]. by intros [= <-].
Qed.

(** [unnamed/part_000] uploads the bytes it parsed. *)
Lemma part000_put_body (mail : NetMail) (env : Environment) (b : string) params :
  first_put (Part000.processEmail env b) = Some params ->
  body_bytes params = b.
Proof.
  unfold Part000.processEmail.
  destruct (mail_ReadMessage _); [done|].
  destruct (mail_ParseAddress _); [done|].
  destruct (negb _); [done|].
  destruct (mail_ParseDate _); [done|]. by intros [= <-].
Qed.

(** C2, at the message of the tests: [handleS3EventWithConfig] of [handler.go]
    reports success and leaves an empty object at the destination key, where
    the revision [unnamed/part_000] leaves the message. *)
Theorem handler_writes_no_content :
  let key := ("test-source-data-bucket", "sources/2023/4/24/ffis/raw.eml") in
  let current :=
    handleS3EventWithConfig SampleMail.test_env false Scenario.present []
      Scenario.email_bucket in
  let earlier :=
    part000_handleS3EventWithConfig SampleMail.test_env false Scenario.present []
      Scenario.email_bucket in
  fst current = None /\
  world (snd current) !! key = Some EmptyString /\
  fst earlier = None /\
  world (snd earlier) !! key = Some SampleMail.RECEIVED_EMAIL_TEMPLATE /\
  SampleMail.RECEIVED_EMAIL_TEMPLATE <> EmptyString.
Proof. vm_compute. split_and!; done. Qed.

(** ** The two revisions of [processEmail] *)

(** C9 as stated fails: for a message from another sender whose [Date] header
    is no date, [handler.go] fails on the date and [unnamed/part_000] on the
    sender. *)
Lemma revisions_differ_on_wrong_sender_bad_date :
  ~ same_outcome (mail := SampleMail.net_mail) SampleMail.test_env
      Scenario.wrong_sender_bad_date.
Proof. unfold same_outcome. vm_compute. discriminate. Qed.

(** C9, amended: on bytes read without error the two revisions either both
    reject the record before any write or both go on to one upload.  When they
    reject, their errors wrap the same cause, except for a sender that is not
    accepted together with a [Date] header that does not parse: there
    [handler.go] wraps the error of the date and [unnamed/part_000] returns the
    validation error.  When they upload, the requests have the same bucket, key
    and encryption ([unnamed/part_000] sends the bytes it was given), and both
    turn the answer into success or into an error that wraps the answer. *)
Theorem revisions_agree (mail : NetMail) (env : Environment) (b : string) :
  let h := Handler.processEmail env (bytes_NewReader b) in
  let p := Part000.processEmail env b in
  (exists eh ep,
     h = Ret (Some eh) /\ p = Ret (Some ep) /\
     (errors_Unwrap eh = errors_Unwrap ep \/
      exists email mailFrom err,
        mail_ReadMessage b = inr email /\
        mail_ParseAddress (Get (Header email) "From") = inr mailFrom /\
        strings_Contains (Address mailFrom) (ValidFFISEmail env) = false /\
        mail_ParseDate (Get (Header email) "Date") = inl err /\
        errors_Unwrap eh = Some err /\ ep = ValidationError)) \/
  (exists ph kh pp kp,
     h = s3_PutObject ph kh /\ p = s3_PutObject pp kp /\
     put_Bucket ph = put_Bucket pp /\ put_Key ph = put_Key pp /\
     put_ServerSideEncryption ph = put_ServerSideEncryption pp /\
     body_bytes pp = b /\
     kh None = sendMetric "email.moved" 1 (Ret None) /\
     kp None = sendMetric "email.moved" 1 (Ret None) /\
     forall err, exists eh ep,
       kh (Some err) = Ret (Some eh) /\ kp (Some err) = Ret (Some ep) /\
       errors_Unwrap eh = Some err /\ errors_Unwrap ep = Some err).
Proof.
  simpl. unfold Handler.processEmail, Part000.processEmail, Handler.processHeader. simpl.
  destruct (mail_ReadMessage b) as [e|email] eqn:Hm.
  { left. eexists _, _. split_and!; try done. by left. }
  destruct (mail_ParseAddress _) as [e|mailFrom] eqn:Ha.
  { left. eexists _, _. split_and!; try done. by left. }
  destruct (mail_ParseDate _) as [e|t] eqn:Ht;
    destruct (strings_Contains _ _) eqn:Hc; simpl.
  - left. eexists _, _. split_and!; try done. by left.
  - left. eexists _, _. split_and!; try done. right.
    by exists email, mailFrom, e.
  - right. eexists _, _, _, _. split_and!; try done.
    intros err. by eexists _, _.
  - left. eexists _, _. split_and!; try done. by left.
Qed.

(** ** The URL extraction pipeline *)

(** C5: for a message that parses, the record fails with [ErrNoPlaintext] when
    there is no plaintext part, with [ErrNoMatchesFound] when the URL pattern
    matches nowhere in the plaintext body, with [ErrMultipleFound] when it
    matches twice or more; with exactly one match that match is sent as the
    body of one queue message, whose outcome is the record's. *)
Theorem url_extraction_policy
    (ErrNoPlaintext ErrNoMatchesFound ErrMultipleFound : error)
    (plaintext_part : string -> error + option string)
    (FindAllString : string -> string -> list string)
    {Queue : Type} (sqs : EnqueueFFISDownload.SQSService Queue)
    (URLPattern b : string) (q : Queue) (plaintext : option string) :
  let process :=
    EnqueueFFISDownload.processRecord ErrNoPlaintext ErrNoMatchesFound ErrMultipleFound
      plaintext_part FindAllString URLPattern in
  plaintext_part b = inr plaintext ->
  (plaintext = None -> process b q = (Some ErrNoPlaintext, q)) /\
  (forall body, plaintext = Some body ->
     FindAllString URLPattern body = [] ->
     process b q = (Some ErrNoMatchesFound, q)) /\
  (forall body, plaintext = Some body ->
     (2 <= length (FindAllString URLPattern body))%nat ->
     process b q = (Some ErrMultipleFound, q)) /\
  (forall body url, plaintext = Some body ->
     FindAllString URLPattern body = [url] ->
     process b q =
       match EnqueueFFISDownload.SendMessage url q with
       | (inl err, q') => (Some err, q')
       | (inr _, q') => (None, q')
       end).
Proof.
  intros process Hp. unfold process, EnqueueFFISDownload.processRecord. rewrite Hp.
  split_and!.
  - by intros ->.
  - intros body -> Hf. simpl. by rewrite Hf.
  - intros body -> Hf. simpl.
    destruct (FindAllString _ _) as [|u1 [|u2 us]]; simpl in Hf; try lia. done.
  - intros body url -> Hf. simpl. by rewrite Hf.
Qed.

Lemma url_extraction_policy_witness :
  EnqueueFFISDownload.sample_process EnqueueFFISDownload.good_eml []
  = (None, ["https://mcusercontent.com/123456/files/file-01.xlsx"]).
Proof.
  destruct (url_extraction_policy
              EnqueueFFISDownload.sample_ErrNoPlaintext
              EnqueueFFISDownload.sample_ErrNoMatchesFound
              EnqueueFFISDownload.sample_ErrMultipleFound
              EnqueueFFISDownload.sample_plaintext_part
              (fun _ => EnqueueFFISDownload.sample_FindAllString
                          "https://mcusercontent.com/" ".xlsx")
              EnqueueFFISDownload.mock_sqs
              "https://mcusercontent.com/.+\.xlsx"
              EnqueueFFISDownload.good_eml []
              (Some (SampleMail.join_lines
                 ["Download: https://mcusercontent.com/123456/files/file-01.xlsx"; ""])))
    as (_ & _ & _ & H); [reflexivity|].
  etransitivity;
    [apply (H (SampleMail.join_lines
                 ["Download: https://mcusercontent.com/123456/files/file-01.xlsx"; ""])
              "https://mcusercontent.com/123456/files/file-01.xlsx"); reflexivity
    | reflexivity].
Defined.

Example url_extraction_samples :
  EnqueueFFISDownload.sample_process EnqueueFFISDownload.missing_eml []
  = (Some EnqueueFFISDownload.sample_ErrNoMatchesFound, []) /\
  EnqueueFFISDownload.sample_process EnqueueFFISDownload.multiple_eml []
  = (Some EnqueueFFISDownload.sample_ErrMultipleFound, []) /\
  EnqueueFFISDownload.sample_process EnqueueFFISDownload.no_plaintext_eml []
  = (Some EnqueueFFISDownload.sample_ErrNoPlaintext, []).
Proof. vm_compute. done. Qed.

(** ** Goroutines, schedules and [wg.Wait()] *)

Section Sched.
Context {World : Type} {service : S3Service World}.
Implicit Types (s : State World) (t : io (option error)) (g : goroutine).

Lemma step_length i s : length (goroutines (step i s)) = length (goroutines s).
Proof.
  unfold step. destruct (goroutines s !! i) as [[t|r]|] eqn:Hi; try done.
  destruct (step_io (done s) t (world s)) as [[g ev] w]. simpl.
  by rewrite length_insert.
Qed.

Lemma step_other i j s : i ≠ j → goroutines (step i s) !! j = goroutines s !! j.
Proof.
  intros Hne. unfold step. destruct (goroutines s !! i) as [[t|r]|] eqn:Hi; try done.
  destruct (step_io (done s) t (world s)) as [[g ev] w]. simpl.
  by rewrite list_lookup_insert_ne.
Qed.

Lemma step_running i s t :
  goroutines s !! i = Some (Running t) →
  goroutines (step i s) !! i = Some (step_io (done s) t (world s)).1.1.
Proof.
  intros Hi. unfold step. rewrite Hi.
  destruct (step_io (done s) t (world s)) as [[g ev] w]. simpl.
  apply list_lookup_insert_eq. by eapply lookup_lt_Some.
Qed.

Lemma step_returned i j s r :
  goroutines s !! j = Some (Finished r) → goroutines (step i s) !! j = Some (Finished r).
Proof.
  intros Hj. destruct (decide (i = j)) as [->|Hne].
  - unfold step. by rewrite Hj.
  - by rewrite step_other.
Qed.

(** Running a goroutine to its end is a sequence of its steps. *)
Lemma complete_steps i t s :
  goroutines s !! i = Some (Running t) →
  ∃ n r, complete i t s = Nat.iter n (step i) s ∧
         goroutines (complete i t s) !! i = Some (Finished r).
Proof.
  revert s. induction t as [r|params k IH|params k IH|name value k IH]; intros s Hi; simpl.
  - exists 1%nat, r. split; [done|]. by rewrite (step_running _ _ _ Hi).
  - pose proof (step_running _ _ _ Hi) as Hi'. simpl in Hi'.
    destruct (service_GetObject (done s) params (world s)) as [resp w] eqn:E.
    simpl in *. destruct (IH resp _ Hi') as (n & r & Hn & Hr).
    exists (S n), r. split; [|done]. by rewrite Hn, Nat.iter_succ_r.
  - pose proof (step_running _ _ _ Hi) as Hi'. simpl in Hi'.
    destruct (service_PutObject (done s) params (world s)) as [resp w] eqn:E.
    simpl in *. destruct (IH resp _ Hi') as (n & r & Hn & Hr).
    exists (S n), r. split; [|done]. by rewrite Hn, Nat.iter_succ_r.
  - pose proof (step_running _ _ _ Hi) as Hi'. simpl in Hi'.
    destruct (IH _ Hi') as (n & r & Hn & Hr).
    exists (S n), r. split; [|done]. by rewrite Hn, Nat.iter_succ_r.
Qed.

Lemma stable_iter Q n i s : stable Q → Q s → Q (Nat.iter n (step i) s).
Proof. intros [Hs _] H. induction n; simpl; auto. Qed.

Lemma stable_join Q s i : stable Q → Q s → Q (join s i).
Proof.
  intros HQ H. unfold join. destruct (goroutines s !! i) as [[t|r]|] eqn:Hi; try done.
  destruct (complete_steps _ _ _ Hi) as (n & r & -> & _). by apply stable_iter.
Qed.

Lemma stable_foldl_join Q l s : stable Q → Q s → Q (foldl join s l).
Proof.
  intros HQ. revert s. induction l as [|a l IH]; simpl; intros s H; [done|].
  by apply IH, stable_join.
Qed.

Lemma stable_schedule Q schedule s : stable Q → Q s → Q (foldl perform s schedule).
Proof.
  intros [Hs Hc]. revert s. induction schedule as [|[i|] l IH]; simpl; auto.
Qed.

Lemma stable_run_group Q c tasks schedule w :
  stable Q →
  Q {| world := w; done := c; trace := []; errs := []; goroutines := Running <$> tasks |} →
  Q (run_group c tasks schedule w).2.
Proof.
  intros HQ H. unfold run_group. simpl. unfold Wait.
  apply stable_foldl_join; [done|]. by apply stable_schedule.
Qed.


Lemma join_returned s i j r :
  goroutines s !! j = Some (Finished r) → goroutines (join s i) !! j = Some (Finished r).
Proof.
  intros Hj. unfold join. destruct (goroutines s !! i) as [[t|r']|] eqn:Hi; try done.
  destruct (complete_steps _ _ _ Hi) as (n & r' & -> & _).
  induction n; simpl; [done|]. by apply step_returned.
Qed.

Lemma join_length s i : length (goroutines (join s i)) = length (goroutines s).
Proof.
  apply (stable_join (λ s', length (goroutines s') = length (goroutines s))); [|done].
  split; intros; [by rewrite step_length | done].
Qed.

Lemma join_returns s i :
  (i < length (goroutines s))%nat → ∃ r, goroutines (join s i) !! i = Some (Finished r).
Proof.
  intros Hlt. destruct (lookup_lt_is_Some_2 _ _ Hlt) as [g Hg].
  unfold join. rewrite Hg. destruct g as [t|r]; [|by eauto].
  destruct (complete_steps _ _ _ Hg) as (n & r & _ & Hr). eauto.
Qed.

Lemma foldl_join_returned l s j r :
  goroutines s !! j = Some (Finished r) →
  goroutines (foldl join s l) !! j = Some (Finished r).
Proof.
  revert s. induction l as [|a l IH]; simpl; intros s H; [done|].
  by apply IH, join_returned.
Qed.

Lemma foldl_join_length l s :
  length (goroutines (foldl join s l)) = length (goroutines s).
Proof.
  revert s. induction l as [|a l IH]; simpl; intros s; [done|].
  by rewrite IH, join_length.
Qed.

Lemma foldl_join_returns l s i :
  i ∈ l → (i < length (goroutines s))%nat →
  ∃ r, goroutines (foldl join s l) !! i = Some (Finished r).
Proof.
  revert s. induction l as [|a l IH]; simpl; intros s Hin Hlt.
  - by apply elem_of_nil in Hin.
  - apply elem_of_cons in Hin as [->|Hin].
    + destruct (join_returns s a Hlt) as [r Hr]. exists r.
      by apply foldl_join_returned.
    + apply IH; [done|]. by rewrite join_length.
Qed.

(** When [wg.Wait()] returns, every goroutine has returned. *)
Lemma Wait_returned s :
  ∃ results, goroutines (Wait s) = Finished <$> results.
Proof.
  assert (∀ i, (i < length (goroutines (Wait s)))%nat →
               ∃ r, goroutines (Wait s) !! i = Some (Finished r)) as H.
  { intros i Hi. unfold Wait in *. rewrite foldl_join_length in Hi.
    apply foldl_join_returns; [|done]. apply elem_of_seq. lia. }
  revert H. generalize (goroutines (Wait s)). clear. intros l.
  induction l as [|g l IH]; intros H.
  - by exists [].
  - destruct (H 0%nat) as [r Hr]; [simpl; lia|]. simpl in Hr. injection Hr as ->.
    destruct IH as [rs ->].
    { intros i Hi. apply (H (S i)). simpl. lia. }
    by exists (r :: rs).
Qed.

(** *** The collected errors *)

Lemma omap_failed_insert (l : list goroutine) i t g :
  l !! i = Some (Running t) →
  omap failed (<[i:=g]> l) ≡ₚ option_list (failed g) ++ omap failed l.
Proof.
  intros Hi. pose proof (lookup_lt_Some _ _ _ Hi) as Hlt.
  rewrite insert_take_drop by done.
  rewrite <- (take_drop_middle l i _ Hi) at 3.
  rewrite !omap_app. simpl.
  destruct (failed g); simpl; [|done].
  by rewrite Permutation_middle.
Qed.

Lemma errs_collected_stable : stable errs_collected.
Proof.
  split; [|done]. intros i s H. unfold errs_collected, step in *.
  destruct (goroutines s !! i) as [[t|r]|] eqn:Hi; try done.
  destruct (step_io (done s) t (world s)) as [[g ev] w] eqn:E. simpl.
  rewrite (omap_failed_insert _ _ _ _ Hi).
  destruct g as [t'|[e|]]; simpl; try done.
  unfold multierror_Append. rewrite H. by rewrite Permutation_app_comm.
Qed.

(** *** Properties of one goroutine and its own events *)

Lemma events_of_app i tr1 tr2 :
  events_of i (tr1 ++ tr2) = events_of i tr1 ++ events_of i tr2.
Proof. apply omap_app. Qed.

Lemma events_of_tagged i j (evs : list event) :
  events_of i ((λ ev, (j, ev)) <$> evs) = if bool_decide (j = i) then evs else [].
Proof.
  unfold events_of. case_bool_decide as H; induction evs as [|ev evs IH]; simpl; try done.
  - rewrite bool_decide_eq_true_2 by done. f_equal. exact IH.
  - rewrite bool_decide_eq_false_2 by done. exact IH.
Qed.

Lemma holds_locally_stable P : local_inv P → stable (holds_locally P).
Proof.
  intros HP. split; [|done]. intros i s H j g Hj. unfold step in *.
  destruct (goroutines s !! i) as [[t|r]|] eqn:Hi; try by apply H.
  specialize (HP i (events_of i (trace s)) t (done s) (world s) (H _ _ Hi)).
  destruct (step_io (done s) t (world s)) as [[g' ev] w] eqn:E. simpl in *.
  rewrite events_of_app, events_of_tagged.
  destruct (decide (i = j)) as [->|Hne].
  - rewrite bool_decide_eq_true_2 by done.
    rewrite list_lookup_insert_eq in Hj by (by eapply lookup_lt_Some).
    by injection Hj as <-.
  - rewrite bool_decide_eq_false_2 by done. rewrite app_nil_r.
    rewrite list_lookup_insert_ne in Hj by done. by apply H.
Qed.

Lemma tags_bounded_stable : stable tags_bounded.
Proof.
  split; [|done]. intros i s H j ev. unfold step.
  destruct (goroutines s !! i) as [[t|r]|] eqn:Hi; try by apply H.
  destruct (step_io (done s) t (world s)) as [[g' ev'] w] eqn:E. simpl.
  rewrite length_insert, elem_of_app. intros [Hin|Hin]; [by eapply H|].
  apply list_elem_of_fmap in Hin as (ev'' & [= -> ->] & _).
  by eapply lookup_lt_Some.
Qed.

End Sched.

(** ** What a record task does *)

Lemma writes_snoc evs ev :
  writes (evs ++ [ev]) = (writes evs + if is_write ev then 1 else 0)%nat.
Proof.
  unfold writes. rewrite filter_app, length_app. f_equal.
  rewrite filter_cons. by destruct (is_write ev).
Qed.

Lemma writes_iff_succeeds_deferred name n t :
  writes_iff_succeeds n t -> writes_iff_succeeds n (t ≫= deferred_metric name).
Proof.
  revert n. induction t as [[e|]|params k IH|params k IH|m v k IH]; intros n; simpl; auto.
  intros [H1 H2]. split; auto.
Qed.

Section Tasks.
Context {mail : NetMail} (env : Environment).

Lemma handler_processEmail_writes r :
  writes_iff_succeeds 0 (Handler.processEmail env r).
Proof.
  unfold Handler.processEmail. simpl.
  destruct (read_err r); [done|].
  destruct (mail_ReadMessage _); [done|].
  destruct (Handler.processHeader _) as [|[address key]]; [done|].
  destruct (negb _); [done|]. simpl. done.
Qed.

Lemma handler_recordTask_writes record :
  writes_iff_succeeds 0 (Handler.recordTask env record).
Proof.
  unfold Handler.recordTask. simpl. intros [e|resp]; [done|].
  apply writes_iff_succeeds_deferred, handler_processEmail_writes.
Qed.
End Tasks.

Lemma written_iff_succeeded_local {World : Type} {service : S3Service World} :
  local_inv written_iff_succeeded.
Proof.
  intros i evs t c w. destruct t as [r|params k|params k|m v k]; simpl.
  - rewrite app_nil_r. by destruct r.
  - destruct (service_GetObject _ _ _) as [resp w']. simpl.
    rewrite writes_snoc. simpl. rewrite Nat.add_0_r. auto.
  - destruct (service_PutObject _ _ _) as [[e|] w']; simpl;
      rewrite writes_snoc; simpl; intros [H1 H2].
    + rewrite Nat.add_0_r. auto.
    + by rewrite Nat.add_1_r.
  - rewrite writes_snoc. simpl. by rewrite Nat.add_0_r.
Qed.

(** *** Counting *)

Lemma sum_list_with_zero {A : Type} (f : A -> nat) (l : list A) :
  (forall x, x ∈ l -> f x = 0%nat) -> sum_list_with f l = 0%nat.
Proof.
  induction l as [|x l IH]; intros H; simpl; [done|].
  rewrite (H x) by apply list_elem_of_here.
  rewrite IH; [done|]. intros y Hy. apply H. by apply list_elem_of_further.
Qed.

Lemma sum_list_with_ext {A : Type} (f g : A -> nat) (l : list A) :
  (forall x, f x = g x) -> sum_list_with f l = sum_list_with g l.
Proof. intros H. induction l as [|x l IH]; simpl; [done|]. by rewrite H, IH. Qed.

Lemma sum_list_with_plus {A : Type} (f g : A -> nat) (l : list A) :
  sum_list_with (fun x => f x + g x)%nat l
  = (sum_list_with f l + sum_list_with g l)%nat.
Proof. induction l as [|x l IH]; simpl; [done|]. rewrite IH. lia. Qed.

Lemma sum_indicator (j n : nat) :
  (j < n)%nat ->
  sum_list_with (fun i => if bool_decide (j = i) then 1 else 0)%nat (seq 0 n) = 1%nat.
Proof.
  induction n as [|n IH]; [lia|]. intros Hj.
  rewrite seq_S, sum_list_with_app. simpl.
  destruct (decide (j = n)) as [->|Hne].
  - rewrite bool_decide_eq_true_2 by done.
    rewrite sum_list_with_zero; [done|].
    intros i Hi%elem_of_seq. rewrite bool_decide_eq_false_2; [done|lia].
  - rewrite bool_decide_eq_false_2 by done. rewrite IH; lia.
Qed.

(** The writes of an invocation are the writes of its tasks. *)
Lemma writes_by_task (n : nat) (tr : list (nat * event)) :
  (forall j ev, (j, ev) ∈ tr -> (j < n)%nat) ->
  writes (snd <$> tr) = sum_list_with (fun i => writes (events_of i tr)) (seq 0 n).
Proof.
  induction tr as [|[j ev] tr IH]; intros Hb.
  - rewrite sum_list_with_zero; done.
  - assert (j < n)%nat as Hj by (eapply Hb, list_elem_of_here).
    rewrite fmap_cons. csimpl. unfold writes at 1. rewrite filter_cons.
    rewrite (sum_list_with_ext _
      (fun i => (if bool_decide (j = i) then (if is_write ev then 1 else 0) else 0)
                + writes (events_of i tr))%nat).
    + rewrite sum_list_with_plus, <- IH
        by (intros j' ev' H; eapply Hb, list_elem_of_further, H).
      destruct (is_write ev); simpl.
      * rewrite sum_indicator by done. done.
      * rewrite sum_list_with_zero; [done|]. intros i _. by case_bool_decide.
    + intros i. unfold events_of. simpl. case_bool_decide; [|done].
      unfold writes. simpl. rewrite filter_cons. by destruct (is_write ev).
Qed.

(** *** The state in which an invocation returns *)

Section Returns.
Context {World : Type} {service : S3Service World}.

Lemma omap_failed_Finished (results : list (option error)) :
  omap failed (Finished <$> results) = omap id results.
Proof.
  induction results as [|[e|] results IH]; csimpl; [done| |done].
  by rewrite IH.
Qed.

Lemma omap_failed_Running (tasks : list (io (option error))) :
  omap failed (Running <$> tasks) = [].
Proof. induction tasks as [|t tasks IH]; csimpl; done. Qed.

(** When the group has been waited for: every goroutine has returned, with
    some result; the collected errors are the errors among these results, in
    some order; the error returned is [nil] if there is none. *)
Lemma run_group_returns c tasks schedule w :
  let out := run_group c tasks schedule w in
  exists results,
    goroutines out.2 = Finished <$> results /\
    length results = length tasks /\
    errs out.2 ≡ₚ omap id results /\
    out.1 = ErrorOrNil (errs out.2) /\
    tags_bounded out.2.
Proof.
  intros out.
  destruct (Wait_returned (foldl perform
    {| world := w; done := c; trace := []; errs := [];
       goroutines := Running <$> tasks |} schedule)) as [results Hres].
  exists results. fold (run_group c tasks schedule w).2 in Hres. fold out in Hres.
  split_and!; [done| | |done|].
  - rewrite <- (length_fmap Finished), <- Hres.
    unfold out. apply (stable_run_group
      (fun s => length (goroutines s) = length tasks)).
    + split; intros; [by rewrite step_length | done].
    + simpl. by rewrite length_fmap.
  - rewrite <- omap_failed_Finished, <- Hres.
    apply (stable_run_group errs_collected); [apply errs_collected_stable|].
    unfold errs_collected. simpl. by rewrite omap_failed_Running.
  - apply (stable_run_group tags_bounded); [apply tags_bounded_stable|].
    intros j ev Hin. simpl in Hin. by apply elem_of_nil in Hin.
Qed.

Lemma run_group_locally P c tasks schedule w :
  local_inv P ->
  (forall i t, tasks !! i = Some t -> P i [] (Running t)) ->
  holds_locally P (run_group c tasks schedule w).2.
Proof.
  intros HP Hinit. apply stable_run_group; [by apply holds_locally_stable|].
  intros i g Hg. simpl in *. rewrite list_lookup_fmap in Hg.
  destruct (tasks !! i) as [t|] eqn:Ht; [|done]. injection Hg as <-.
  by apply Hinit.
Qed.

End Returns.

Lemma sum_by_index {A : Type} (f : nat -> nat) (h : A -> nat) (l : list A) (k : nat) :
  (forall i x, l !! i = Some x -> f (k + i)%nat = h x) ->
  sum_list_with f (seq k (length l)) = sum_list_with h l.
Proof.
  revert k. induction l as [|x l IH]; intros k H; simpl; [done|].
  rewrite <- (H 0%nat x), Nat.add_0_r by done. f_equal.
  apply IH. intros i y Hi. rewrite <- (H (S i) y) by done. f_equal. lia.
Qed.

Lemma successes_and_failures (results : list (option error)) :
  (sum_list_with writes_expected results
   + length (omap id results) = length results)%nat.
Proof. induction results as [|[e|] results IH]; csimpl; lia. Qed.

(** C1: whatever the interleaving of the record tasks, when
    [handleS3EventWithConfig] returns every one of the N records has a result;
    with F of them errors, the function returns [nil] exactly if F = 0, and
    otherwise an aggregate that holds exactly these F errors; a record has one
    storage write if it succeeded and none if it failed, so that the
    invocation has written N - F times. *)
Theorem aggregate_error_and_writes (mail : NetMail) (env : Environment)
    {World : Type} (service : S3Service World)
    (ctx_canceled : bool) (s3Event : list S3EventRecord)
    (schedule : list action) (w : World) :
  let out := handleS3EventWithConfig env ctx_canceled s3Event schedule w in
  exists results : list (option error),
    let failures := omap id results in
    goroutines out.2 = Finished <$> results /\
    length results = length s3Event /\
    (out.1 = None <-> length failures = 0%nat) /\
    ((1 <= length failures)%nat ->
       exists es, out.1 = Some es /\ es ≡ₚ failures /\ Len es = length failures) /\
    (forall i r, results !! i = Some r ->
       writes (events_of i (trace out.2)) = writes_expected r) /\
    writes (snd <$> trace out.2) = (length s3Event - length failures)%nat.
Proof.
  intros out. unfold handleS3EventWithConfig in out.
  destruct (run_group_returns ctx_canceled (Handler.recordTask env <$> s3Event) schedule w)
    as (results & Hres & Hlen & Herrs & Hret & Htags).
  fold out in Hres, Herrs, Hret, Htags. rewrite length_fmap in Hlen.
  pose proof (run_group_locally written_iff_succeeded ctx_canceled
                (Handler.recordTask env <$> s3Event) schedule w
                written_iff_succeeded_local) as Hloc.
  fold out in Hloc.
  assert (forall i r, results !! i = Some r ->
            writes (events_of i (trace out.2)) = writes_expected r) as Hw.
  { intros i r Hi. specialize (Hloc
      ltac:(intros j t [record [-> _]]%list_lookup_fmap_Some;
            apply handler_recordTask_writes) i (Finished r)).
    rewrite Hres, list_lookup_fmap, Hi in Hloc. specialize (Hloc eq_refl).
    by destruct r. }
  exists results. cbv zeta. split_and!; try done.
  - rewrite Hret, <- (Permutation_length Herrs). unfold ErrorOrNil.
    by destruct (errs out.2).
  - intros HF. exists (errs out.2). rewrite Hret. unfold ErrorOrNil, Len.
    rewrite <- (Permutation_length Herrs) in *.
    destruct (errs out.2); [simpl in HF; lia | done].
  - rewrite (writes_by_task (length results)).
    + rewrite (sum_by_index _ writes_expected results 0)
        by (intros i r Hi; by apply Hw).
      pose proof (successes_and_failures results). lia.
    + intros j ev Hin. specialize (Htags j ev Hin).
      by rewrite Hres, length_fmap in Htags.
Qed.

(** ** Fetching *)

Lemma no_fetch_deferred name t :
  no_fetch t -> no_fetch (t ≫= deferred_metric name).
Proof.
  induction t as [[e|]|params k IH|params k IH|m v k IH]; simpl; auto.
Qed.

Lemma handler_processEmail_no_fetch {mail : NetMail} (env : Environment) r :
  no_fetch (Handler.processEmail env r).
Proof.
  unfold Handler.processEmail. simpl.
  destruct (read_err r); [done|].
  destruct (mail_ReadMessage _); [done|].
  destruct (Handler.processHeader _) as [|[address key]]; [done|].
  destruct (negb _); [done|]. simpl. by intros [e|].
Qed.

Lemma fetch_protocol_local {mail : NetMail} (env : Environment)
    (s3Event : list S3EventRecord) {World : Type} {service : S3Service World} :
  local_inv (fetch_protocol env s3Event).
Proof.
  intros i evs t c w (record & Hrec & H). exists record. split; [done|].
  destruct H as [[-> [= ->]] | [(c' & e & -> & [= ->]) | [(c' & e & -> & H)
                 | (c' & resp & evs' & -> & Hevs & Hnf)]]].
  - simpl. destruct (service_GetObject _ _ _) as [[e|resp] w']; simpl.
    + right. left. by exists c, e.
    + right. right. right. exists c, resp, []. split_and!; [done|done|].
      apply no_fetch_deferred, handler_processEmail_no_fetch.
  - simpl. right. right. left. exists c', e. auto.
  - destruct H as [[= ->]|?]; [|done]. simpl.
    right. right. left. exists c', e. auto.
  - right. right. right.
    destruct t as [r|params k|params k|m v k]; simpl in *.
    + exists c', resp, evs'. by rewrite app_nil_r.
    + done.
    + destruct (service_PutObject _ _ _) as [err w']. simpl.
      exists c', resp, (evs' ++ [PutObjectEvent c params err]).
      split_and!; [done| |done]. apply Forall_app. split; [done|]. by repeat constructor.
    + exists c', resp, (evs' ++ [MetricEvent m v]).
      split_and!; [done| |done]. apply Forall_app. split; [done|]. by repeat constructor.
Qed.

(** C7: a record whose fetch fails gets the error of the fetch as its result,
    unchanged, and that error is in the aggregate; its task has made that one
    [GetObject] call and nothing else but emit the failure metric: no retry,
    no write.  Every task fetches once.  After a failed fetch what remains of
    the task is to emit the metric and to return the error, whatever the mail
    parser: nothing is parsed. *)
Theorem fetch_failure_is_returned (mail : NetMail) (env : Environment)
    {World : Type} (service : S3Service World)
    (ctx_canceled : bool) (s3Event : list S3EventRecord)
    (schedule : list action) (w : World) :
  let out := handleS3EventWithConfig env ctx_canceled s3Event schedule w in
  (forall i c params err,
     GetObjectEvent c params (inl err) ∈ events_of i (trace out.2) ->
     exists record,
       s3Event !! i = Some record /\
       params = {| get_Bucket := Bucket_Name record; get_Key := Object_Key record |} /\
       events_of i (trace out.2)
       = [GetObjectEvent c params (inl err); MetricEvent "email.failed" 1] /\
       goroutines out.2 !! i = Some (Finished (Some err)) /\
       exists es, out.1 = Some es /\ err ∈ es) /\
  (forall i, (i < length s3Event)%nat ->
     length (filter is_fetch (events_of i (trace out.2))) = 1%nat) /\
  (forall record, exists k,
     Handler.recordTask env record
     = s3_GetObject {| get_Bucket := Bucket_Name record; get_Key := Object_Key record |} k /\
     forall err, k (inl err) = sendMetric "email.failed" 1 (Ret (Some err))).
Proof.
  intros out. unfold handleS3EventWithConfig in out.
  destruct (run_group_returns ctx_canceled (Handler.recordTask env <$> s3Event) schedule w)
    as (results & Hres & Hlen & Herrs & Hret & Htags).
  fold out in Hres, Herrs, Hret, Htags. rewrite length_fmap in Hlen.
  assert (holds_locally (fetch_protocol env s3Event) out.2) as Hloc.
  { apply run_group_locally; [apply fetch_protocol_local|].
    intros i t [record [-> Hi]]%list_lookup_fmap_Some. exists record. auto. }
  assert (forall i, (i < length s3Event)%nat ->
            exists r, goroutines out.2 !! i = Some (Finished r) /\ results !! i = Some r)
    as Hfin.
  { intros i Hi. rewrite <- Hlen in Hi. apply lookup_lt_is_Some_2 in Hi as [r Hr].
    exists r. by rewrite Hres, list_lookup_fmap, Hr. }
  split_and!.
  - intros i c params err Hin.
    destruct (decide (i < length s3Event)%nat) as [Hi|Hi].
    2:{ exfalso. apply list_elem_of_omap in Hin as ([j ev] & Hin & Hev).
        case_bool_decide; [|done]. subst j. specialize (Htags _ _ Hin).
        rewrite Hres, length_fmap in Htags. lia. }
    destruct (Hfin i Hi) as (r & Hg & Hr).
    destruct (Hloc i _ Hg) as (record & Hrec & H). exists record. split; [done|].
    destruct H as [[_ ?] | [(c' & e & _ & ?) | [(c' & e & Hevs & H)
                   | (c' & resp & evs' & Hevs & Hnf & _)]]]; try done.
    + destruct H as [?|[= ->]]; [done|]. rewrite Hevs in Hin |- *.
      apply elem_of_cons in Hin as [[= -> -> ->]|Hin].
      2:{ apply elem_of_cons in Hin as [?|Hin]; [done|]. by apply elem_of_nil in Hin. }
      split_and!; try done.
      exists (errs out.2). assert (e ∈ errs out.2) as He.
      { rewrite Herrs. apply list_elem_of_omap. exists (Some e). split; [|done].
        by eapply list_elem_of_lookup_2. }
      split; [|done]. rewrite Hret. unfold ErrorOrNil.
      destruct (errs out.2); [by apply elem_of_nil in He | done].
    + rewrite Hevs in Hin. apply elem_of_cons in Hin as [?|Hin]; [done|].
      rewrite Forall_forall in Hnf. by specialize (Hnf _ Hin).
  - intros i Hi. destruct (Hfin i Hi) as (r & Hg & Hr).
    destruct (Hloc i _ Hg) as (record & Hrec & H).
    destruct H as [[_ ?] | [(c' & e & _ & ?) | [(c' & e & -> & H)
                   | (c' & resp & evs' & -> & Hnf & _)]]]; try done.
    rewrite filter_cons. simpl.
    assert (filter is_fetch evs' = []) as ->; [|done].
    clear -Hnf. induction Hnf as [|ev evs' Hev _ IH]; [done|].
    rewrite filter_cons. rewrite Hev. done.
  - intros record. eexists. split; [reflexivity|]. done.
Qed.

Lemma fetch_failure_is_returned_witness :
  let out := handleS3EventWithConfig SampleMail.test_env false
               Scenario.missing_and_present [] Scenario.email_bucket in
  let params := {| get_Bucket := "test-email-bucket"; get_Key := "does/not/exist" |} in
  let err := Wrap "operation error S3: GetObject" (errors_New "NoSuchKey") in
  events_of 0 (trace out.2)
  = [GetObjectEvent false params (inl err); MetricEvent "email.failed" 1] /\
  goroutines out.2 !! 0%nat = Some (Finished (Some err)).
Proof.
  intros out params err.
  destruct (fetch_failure_is_returned SampleMail.net_mail SampleMail.test_env
              MemS3.service false Scenario.missing_and_present [] Scenario.email_bucket)
    as (H & _).
  destruct (H 0%nat false params err) as (record & _ & _ & Hevs & Hg & _).
  - vm_compute. apply list_elem_of_here.
  - split; assumption.
Defined.

(** ** Cancellation *)

Lemma errors_Is_Wrap msg err target :
  errors_Is err target = true -> errors_Is (Wrap msg err) target = true.
Proof. intros H. simpl. rewrite H. apply orb_true_r. Qed.

Lemma handler_recordTask_cancel_safe {mail : NetMail} (env : Environment) record :
  cancel_safe "email.failed" (Handler.recordTask env record).
Proof.
  unfold Handler.recordTask. simpl. split.
  - intros err Herr. exists err. split; [done|]. by left.
  - intros [err|resp]; [done|].
    unfold Handler.processEmail. simpl.
    destruct (read_err _); [done|].
    destruct (mail_ReadMessage _); [done|].
    destruct (Handler.processHeader _) as [|[address key]]; [done|].
    destruct (negb _); [done|]. simpl. split.
    + intros err Herr. eexists. split; [|by left].
      by apply errors_Is_Wrap.
    + by intros [err|].
Qed.

Lemma s3_calls_snoc evs ev :
  s3_calls (evs ++ [ev]) = s3_calls evs ++ if is_s3_call ev then [ev] else [].
Proof.
  unfold s3_calls. rewrite filter_app, filter_cons. by destruct (is_s3_call ev).
Qed.

Lemma cancel_protocol_local {World : Type} {service : S3Service World} :
  local_inv cancel_protocol.
Proof.
  intros i evs t c w [(err & pre & ev & Herr & Hstop & Hcalls & Hev & Hpre) | [Hnone Hsafe]].
  - left. exists err, pre, ev.
    destruct Hstop as [[= ->] | [[= ->] | ?]]; [| |done]; simpl.
    + rewrite s3_calls_snoc. simpl. rewrite app_nil_r.
      split_and!; try done. right. by left.
    + rewrite app_nil_r. split_and!; try done. right. by right.
  - destruct t as [r|params k|params k|m v k]; simpl in *.
    + right. by rewrite app_nil_r.
    + destruct (service_GetObject _ _ _) as [resp w']. simpl.
      destruct Hsafe as [Hstop Hsafe].
      destruct (cancel_observed (GetObjectEvent c params resp)) eqn:Hobs.
      * left. destruct resp as [err|resp]; [|done]. simpl in Hobs.
        destruct (Hstop err Hobs) as (err' & Herr' & Hstop').
        exists err', (s3_calls evs), (GetObjectEvent c params (inl err)).
        by rewrite s3_calls_snoc.
      * right. rewrite s3_calls_snoc. simpl. split; [|done].
        apply Forall_app. split; [done|]. by repeat constructor.
    + destruct (service_PutObject _ _ _) as [err w']. simpl.
      destruct Hsafe as [Hstop Hsafe].
      destruct (cancel_observed (PutObjectEvent c params err)) eqn:Hobs.
      * left. destruct err as [err|]; [|done]. simpl in Hobs.
        destruct (Hstop err Hobs) as (err' & Herr' & Hstop').
        exists err', (s3_calls evs), (PutObjectEvent c params (Some err)).
        by rewrite s3_calls_snoc.
      * right. rewrite s3_calls_snoc. simpl. split; [|done].
        apply Forall_app. split; [done|]. by repeat constructor.
    + right. rewrite s3_calls_snoc. simpl. by rewrite app_nil_r.
Qed.

Lemma events_genuine_stable {World : Type} {service : S3Service World} :
  stable events_genuine.
Proof.
  split; [|done]. intros i s H j ev. unfold step.
  destruct (goroutines s !! i) as [[t|r]|] eqn:Hi; try by apply H.
  destruct (step_io (done s) t (world s)) as [[g' ev'] w] eqn:E. simpl.
  rewrite elem_of_app. intros [Hin|Hin]; [by eapply H|].
  apply list_elem_of_fmap in Hin as (ev'' & [= -> ->] & Hin).
  destruct t as [r|params k|params k|m v k]; simpl in E.
  - injection E as <- <- <-. by apply elem_of_nil in Hin.
  - destruct (service_GetObject _ _ _) as [resp w'] eqn:E'. injection E as <- <- <-.
    apply list_elem_of_singleton in Hin as ->. simpl. exists (world s). by rewrite E'.
  - destruct (service_PutObject _ _ _) as [err w'] eqn:E'. injection E as <- <- <-.
    apply list_elem_of_singleton in Hin as ->. simpl. exists (world s). by rewrite E'.
  - injection E as <- <- <-. by apply list_elem_of_singleton in Hin as ->.
Qed.

Lemma genuine_under_canceled {World : Type} {service : S3Service World} ev :
  honours_cancellation -> genuine ev -> under_canceled ev = true ->
  cancel_observed ev = true.
Proof.
  intros [Hget Hput] Hgen Hc. destruct ev as [c params resp|c params err|]; simpl in *.
  - subst c. destruct Hgen as [w ->]. destruct (Hget params w) as (err & -> & Herr). done.
  - subst c. destruct Hgen as [w ->]. destruct (Hput params w) as (err & -> & Herr). done.
  - done.
Qed.

Lemma last_of_snoc {A : Type} (P : A -> Prop) (pre pre' post : list A) (x y : A) :
  pre ++ x :: post = pre' ++ [y] -> Forall (fun z => ~ P z) pre' -> P x -> post = [].
Proof.
  revert pre'. induction pre as [|z pre IH]; intros pre' Heq Hpre Hx; simpl in *.
  - destruct pre' as [|z' pre']; simpl in *.
    + by injection Heq as _ ->.
    + injection Heq as <- _. by inversion Hpre.
  - destruct pre' as [|z' pre']; simpl in *.
    + injection Heq as _ Heq. by destruct pre.
    + injection Heq as _ Heq. inversion Hpre. by eapply IH.
Qed.

(** A task that calls S3 under a canceled context makes no further call and
    returns an error that identifies the cancellation; the aggregate holds it. *)
Lemma canceled_call_is_last (mail : NetMail) (env : Environment)
    {World : Type} (service : S3Service World)
    (ctx_canceled : bool) (s3Event : list S3EventRecord)
    (schedule : list action) (w : World) :
  honours_cancellation ->
  let out := handleS3EventWithConfig env ctx_canceled s3Event schedule w in
  forall i pre ev post,
    s3_calls (events_of i (trace out.2)) = pre ++ ev :: post ->
    under_canceled ev = true ->
    post = [] /\
    exists err es,
      goroutines out.2 !! i = Some (Finished (Some err)) /\
      errors_Is err context_Canceled = true /\
      out.1 = Some es /\ err ∈ es.
Proof.
  intros Hhon out i pre ev post Hcalls Hc. unfold handleS3EventWithConfig in out.
  destruct (run_group_returns ctx_canceled (Handler.recordTask env <$> s3Event) schedule w)
    as (results & Hres & Hlen & Herrs & Hret & Htags).
  fold out in Hres, Herrs, Hret, Htags. rewrite length_fmap in Hlen.
  assert (holds_locally cancel_protocol out.2) as Hloc.
  { apply run_group_locally; [apply cancel_protocol_local|].
    intros j t [record [-> Hj]]%list_lookup_fmap_Some. right. split; [done|].
    apply handler_recordTask_cancel_safe. }
  assert (events_genuine out.2) as Hgen.
  { apply stable_run_group; [apply events_genuine_stable|].
    intros j ev' Hin. by apply elem_of_nil in Hin. }
  assert (ev ∈ s3_calls (events_of i (trace out.2))) as Hin.
  { rewrite Hcalls. apply elem_of_app. right. apply list_elem_of_here. }
  assert (cancel_observed ev = true) as Hobs.
  { apply genuine_under_canceled; [done| |done].
    apply list_elem_of_filter in Hin as [_ Hin].
    apply list_elem_of_omap in Hin as ([j ev'] & Hin & Hev).
    case_bool_decide; [|done]. injection Hev as ->. by eapply Hgen. }
  assert (i < length results)%nat as Hi.
  { apply list_elem_of_filter in Hin as [_ Hin].
    apply list_elem_of_omap in Hin as ([j ev'] & Hin & Hev).
    case_bool_decide; [|done]. subst j. specialize (Htags _ _ Hin).
    by rewrite Hres, length_fmap in Htags. }
  apply lookup_lt_is_Some_2 in Hi as [r Hr].
  assert (goroutines out.2 !! i = Some (Finished r)) as Hg
    by (by rewrite Hres, list_lookup_fmap, Hr).
  destruct (Hloc i _ Hg) as [(err & pre' & ev' & Herr & Hstop & Hcalls' & Hev' & Hpre')
                            | [Hnone _]].
  2:{ rewrite Forall_forall in Hnone. specialize (Hnone _ Hin). congruence. }
  split.
  - rewrite Hcalls in Hcalls'.
    apply (last_of_snoc (fun ev => cancel_observed ev = true) _ _ _ _ _ Hcalls'); [|done].
    eapply Forall_impl; [exact Hpre'|]. simpl. intros ev'' ->. done.
  - destruct Hstop as [? | [? | [= ->]]]; try done.
    exists err, (errs out.2). split_and!; try done.
    + assert (err ∈ errs out.2) as He.
      { rewrite Herrs. apply list_elem_of_omap. exists (Some err). split; [|done].
        by eapply list_elem_of_lookup_2. }
      rewrite Hret. unfold ErrorOrNil.
      destruct (errs out.2); [by apply elem_of_nil in He | done].
    + rewrite Herrs. apply list_elem_of_omap. exists (Some err). split; [|done].
      by eapply list_elem_of_lookup_2.
Qed.

Lemma events_of_elem i ev (tr : list (nat * event)) :
  ev ∈ events_of i tr <-> (i, ev) ∈ tr.
Proof.
  unfold events_of. rewrite list_elem_of_omap. split.
  - intros ([j ev'] & Hin & Hev). case_bool_decide; [|done]. by simplify_eq.
  - intros Hin. exists (i, ev). split; [done|]. by rewrite bool_decide_eq_true_2.
Qed.

Lemma canceled_throughout_stable {World : Type} {service : S3Service World} :
  stable canceled_throughout.
Proof.
  split; [|by intros s [? ?]]. intros i s [Hd H]. unfold step.
  destruct (goroutines s !! i) as [[t|r]|] eqn:Hi; try done.
  destruct (step_io (done s) t (world s)) as [[g' ev'] w] eqn:E. simpl.
  split; [done|]. simpl. intros j ev. rewrite elem_of_app. intros [Hin|Hin]; [by eapply H|].
  apply list_elem_of_fmap in Hin as (ev'' & [= -> ->] & Hin).
  destruct t as [r|params k|params k|m v k]; simpl in E.
  - injection E as <- <- <-. by apply elem_of_nil in Hin.
  - destruct (service_GetObject _ _ _) as [resp w']. injection E as <- <- <-.
    by apply list_elem_of_singleton in Hin as ->.
  - destruct (service_PutObject _ _ _) as [err w']. injection E as <- <- <-.
    by apply list_elem_of_singleton in Hin as ->.
  - injection E as <- <- <-. by apply list_elem_of_singleton in Hin as ->.
Qed.

Lemma all_failed (P : error -> Prop) (results : list (option error)) :
  (forall i, (i < length results)%nat -> exists err, results !! i = Some (Some err) /\ P err) ->
  length (omap id results) = length results /\ Forall P (omap id results).
Proof.
  induction results as [|r results IH]; intros H; [done|].
  destruct (H 0%nat) as (err & [= ->] & Herr); [simpl; lia|]. csimpl.
  destruct IH as [IH1 IH2].
  { intros i Hi. apply (H (S i)). simpl. lia. }
  split; [by rewrite IH1 | by constructor].
Qed.

(** A task that has no call to S3 left to make returns the result it is about
    to return, whatever the other goroutines and the caller do meanwhile. *)
Lemma pending_result_kept {World : Type} {service : S3Service World}
    c tasks before after (w : World) i t r :
  goroutines (started c tasks before w) !! i = Some (Running t) ->
  pending_result t = Some r ->
  goroutines (run_group c tasks (before ++ after) w).2 !! i = Some (Finished r).
Proof.
  intros Hi Hr.
  set (Q := fun s : State World =>
         match goroutines s !! i with
         | Some (Running t') => pending_result t' = Some r
         | Some (Finished r') => r' = r
         | None => False
         end).
  assert (stable Q) as HQ.
  { split; [|done]. intros j s H. unfold Q in *.
    destruct (decide (j = i)) as [->|Hne]; [|by rewrite step_other].
    destruct (goroutines s !! i) as [[t'|r']|] eqn:Hg; [| |done].
    - rewrite (step_running _ _ _ Hg).
      destruct t' as [a|params k|params k|name value k]; simpl in *; try done.
      by injection H.
    - by rewrite (step_returned _ _ _ _ Hg). }
  assert (Q (run_group c tasks (before ++ after) w).2) as H.
  { unfold run_group. simpl. rewrite foldl_app. unfold Wait.
    apply stable_foldl_join; [done|]. apply stable_schedule; [done|].
    unfold Q. fold (started c tasks before w). by rewrite Hi. }
  destruct (run_group_returns c tasks (before ++ after) w) as (results & Hres & _).
  unfold Q in H. rewrite Hres, list_lookup_fmap in *.
  destruct (results !! i) as [r'|]; simpl in *; [by subst|done].
Qed.

(** A task that has a call to S3 left to make when the caller cancels makes
    that call under the canceled context. *)
Lemma in_flight_call_is_canceled {World : Type} {service : S3Service World}
    c tasks before after (w : World) i t :
  goroutines (started c tasks before w) !! i = Some (Running t) ->
  pending_result t = None ->
  exists ev,
    ev ∈ events_of i (trace (run_group c tasks (before ++ Cancel :: after) w).2) /\
    is_s3_call ev = true /\ under_canceled ev = true.
Proof.
  intros Hi Hr.
  set (E := fun s : State World =>
         exists ev, ev ∈ events_of i (trace s) /\
                    is_s3_call ev = true /\ under_canceled ev = true).
  set (Q := fun s : State World =>
         done s = true /\
         ((exists t', goroutines s !! i = Some (Running t') /\ pending_result t' = None)
          \/ E s)).
  assert (stable Q) as HQ.
  { split; [|by intros s [_ H]]. intros j s [Hd H]. split.
    { unfold step. destruct (goroutines s !! j) as [[t'|r']|]; try done.
      by destruct (step_io (done s) t' (world s)) as [[g ev] w']. }
    destruct H as [(t' & Hg & Hp)|(ev & Hin & Hev)].
    - destruct (decide (j = i)) as [->|Hne]; [|left; exists t'; by rewrite step_other].
      pose proof (lookup_lt_Some _ _ _ Hg) as Hlt.
      unfold step. rewrite Hg, Hd.
      destruct t' as [a|params k|params k|name value k]; simpl in *; [done| | |].
      + destruct (service_GetObject true params (world s)) as [resp w']. simpl.
        right. exists (GetObjectEvent true params resp). split; [|done].
        simpl. rewrite events_of_app. apply elem_of_app. right. unfold events_of. simpl.
        rewrite bool_decide_eq_true_2 by done. apply list_elem_of_here.
      + destruct (service_PutObject true params (world s)) as [err w']. simpl.
        right. exists (PutObjectEvent true params err). split; [|done].
        simpl. rewrite events_of_app. apply elem_of_app. right. unfold events_of. simpl.
        rewrite bool_decide_eq_true_2 by done. apply list_elem_of_here.
      + left. exists k. split; [|done]. by apply list_lookup_insert_eq.
    - right. exists ev. split; [|done]. unfold step.
      destruct (goroutines s !! j) as [[t'|r']|]; try done.
      destruct (step_io (done s) t' (world s)) as [[g ev'] w']. simpl.
      rewrite events_of_app. apply elem_of_app. by left. }
  assert (Q (run_group c tasks (before ++ Cancel :: after) w).2) as [_ H].
  { assert ((run_group c tasks (before ++ Cancel :: after) w).2
            = Wait (foldl perform (cancel (started c tasks before w)) after)) as ->.
    { unfold run_group, started. simpl. by rewrite foldl_app. }
    unfold Wait. apply stable_foldl_join; [done|]. apply stable_schedule; [done|].
    split; [done|]. left. by exists t. }
  destruct H as [(t' & Hg & _)|H]; [|exact H].
  destruct (run_group_returns c tasks (before ++ Cancel :: after) w)
    as (results & Hres & _).
  rewrite Hres, list_lookup_fmap in Hg. by destruct (results !! i).
Qed.

(** C6, amended: let the S3 client honour cancellation.  Whatever the
    interleaving and whenever the caller cancels, a record task that calls S3
    once the context is canceled makes no further call; its result is an error
    whose chain identifies the cancellation, and the invocation returns an
    aggregate that holds this error.  When the context is canceled before the
    invocation starts, every record task stops at its fetch, and the aggregate
    holds one error per record, each of which identifies the cancellation.  An
    error met while the fetched body is read (a cancellation, for instance) is
    the result of the task, unchanged.  Of the tasks that are in flight when
    the caller cancels, one that has a call to S3 left to make reports the
    cancellation so; one that has none left (it has only metrics to emit
    before it returns) is not interrupted: whatever follows, it returns the
    result it was about to return, [nil] after an upload that succeeded. *)
Theorem cancellation_is_reported (mail : NetMail) (env : Environment)
    {World : Type} (service : S3Service World)
    (ctx_canceled : bool) (s3Event : list S3EventRecord)
    (schedule : list action) (w : World) :
  honours_cancellation ->
  let out := handleS3EventWithConfig env ctx_canceled s3Event schedule w in
  (forall i pre ev post,
     s3_calls (events_of i (trace out.2)) = pre ++ ev :: post ->
     under_canceled ev = true ->
     post = [] /\
     exists err es,
       goroutines out.2 !! i = Some (Finished (Some err)) /\
       errors_Is err context_Canceled = true /\
       out.1 = Some es /\ err ∈ es) /\
  (ctx_canceled = true ->
     (forall i record, s3Event !! i = Some record ->
        exists err,
          events_of i (trace out.2)
          = [GetObjectEvent true {| get_Bucket := Bucket_Name record;
                                    get_Key := Object_Key record |} (inl err);
             MetricEvent "email.failed" 1] /\
          goroutines out.2 !! i = Some (Finished (Some err)) /\
          errors_Is err context_Canceled = true) /\
     (s3Event <> [] ->
        exists es, out.1 = Some es /\ Len es = length s3Event /\
                   Forall (fun err => errors_Is err context_Canceled = true) es)) /\
  (forall r err, read_err r = Some err -> Handler.processEmail env r = Ret (Some err)) /\
  (forall before after i t r,
     schedule = before ++ after ->
     goroutines (started ctx_canceled (Handler.recordTask env <$> s3Event) before w) !! i
     = Some (Running t) ->
     pending_result t = Some r ->
     goroutines out.2 !! i = Some (Finished r)) /\
  (forall before after i t,
     schedule = before ++ Cancel :: after ->
     goroutines (started ctx_canceled (Handler.recordTask env <$> s3Event) before w) !! i
     = Some (Running t) ->
     pending_result t = None ->
     exists err es,
       goroutines out.2 !! i = Some (Finished (Some err)) /\
       errors_Is err context_Canceled = true /\
       out.1 = Some es /\ err ∈ es).
Proof.
  intros Hhon out.
  pose proof (canceled_call_is_last mail env service ctx_canceled s3Event schedule w Hhon)
    as Hlast. fold out in Hlast. cbv zeta in Hlast.
  split; [exact Hlast|].
  split; [|split; [by intros r err Hr; unfold Handler.processEmail; simpl; rewrite Hr|]].
  2:{ split; [intros before after i t r -> Hi Hr; by eapply pending_result_kept|].
      intros before after i t Hsched Hi Hr.
      assert (exists ev, ev ∈ s3_calls (events_of i (trace out.2)) /\
                         under_canceled ev = true) as (ev & Hin & Hev).
      { unfold out, handleS3EventWithConfig. rewrite Hsched.
        destruct (in_flight_call_is_canceled ctx_canceled
                    (Handler.recordTask env <$> s3Event) before after w i t Hi Hr)
          as (ev & Hin & Hcall & Hev).
        exists ev. split; [|done]. apply list_elem_of_filter. by split; [rewrite Hcall|]. }
      apply list_elem_of_split in Hin as (pre & post & Hcalls).
      destruct (Hlast i pre ev post Hcalls Hev) as [_ H]. exact H. }
  intros ->. unfold handleS3EventWithConfig in out.
  destruct (run_group_returns true (Handler.recordTask env <$> s3Event) schedule w)
    as (results & Hres & Hlen & Herrs & Hret & Htags).
  fold out in Hres, Herrs, Hret, Htags. rewrite length_fmap in Hlen.
  assert (holds_locally (fetch_protocol env s3Event) out.2) as Hloc.
  { apply run_group_locally; [apply fetch_protocol_local|].
    intros i t [record [-> Hi]]%list_lookup_fmap_Some. exists record. auto. }
  assert (canceled_throughout out.2) as [_ Hthr].
  { apply stable_run_group; [apply canceled_throughout_stable|].
    split; [done|]. intros j ev Hin. by apply elem_of_nil in Hin. }
  assert (forall i record, s3Event !! i = Some record ->
     exists err,
       events_of i (trace out.2)
       = [GetObjectEvent true {| get_Bucket := Bucket_Name record;
                                 get_Key := Object_Key record |} (inl err);
          MetricEvent "email.failed" 1] /\
       goroutines out.2 !! i = Some (Finished (Some err)) /\
       errors_Is err context_Canceled = true) as Hall.
  { intros i record Hrec.
    assert (i < length results)%nat as Hi
      by (rewrite Hlen; by eapply lookup_lt_Some).
    apply lookup_lt_is_Some_2 in Hi as [r Hr].
    assert (goroutines out.2 !! i = Some (Finished r)) as Hg
      by (by rewrite Hres, list_lookup_fmap, Hr).
    destruct (Hloc i _ Hg) as (record' & Hrec' & H). simplify_eq.
    destruct H as [[_ ?] | [(c' & e & _ & ?) | [(c' & e & Hevs & H)
                   | (c' & resp & evs' & Hevs & _ & _)]]]; try done.
    - destruct H as [?|[= ->]]; [done|].
      assert (c' = true) as ->.
      { apply (Hthr i (GetObjectEvent c' {| get_Bucket := Bucket_Name record; get_Key := Object_Key record |} (inl e))); [|done].
        apply events_of_elem. rewrite Hevs. apply list_elem_of_here. }
      destruct (Hlast i [] (GetObjectEvent true
                  {| get_Bucket := Bucket_Name record; get_Key := Object_Key record |}
                  (inl e)) []) as (_ & err & es & Hg' & Herr & _); [by rewrite Hevs|done|].
      exists e. rewrite Hg in Hg'. by simplify_eq.
    - exfalso.
      assert (c' = true) as ->.
      { apply (Hthr i (GetObjectEvent c' {| get_Bucket := Bucket_Name record; get_Key := Object_Key record |} (inr resp))); [|done].
        apply events_of_elem. rewrite Hevs. apply list_elem_of_here. }
      destruct Hhon as [Hget _].
      assert (events_genuine out.2) as Hgen.
      { apply stable_run_group; [apply events_genuine_stable|].
        intros j ev' Hin. by apply elem_of_nil in Hin. }
      assert ((i, GetObjectEvent true
                  {| get_Bucket := Bucket_Name record; get_Key := Object_Key record |}
                  (inr resp)) ∈ trace out.2) as Hin.
      { apply events_of_elem. rewrite Hevs. apply list_elem_of_here. }
      destruct (Hgen _ _ Hin) as [w' Hw'].
      destruct (Hget {| get_Bucket := Bucket_Name record; get_Key := Object_Key record |} w')
        as (err & Heq & _). congruence. }
  split; [exact Hall|]. intros Hne.
  destruct (all_failed (fun err => errors_Is err context_Canceled = true) results)
    as [Hlen' Hcanceled].
  { intros i Hi. rewrite Hlen in Hi. apply lookup_lt_is_Some_2 in Hi as [record Hrec].
    destruct (Hall i record Hrec) as (err & _ & Hg & Herr). exists err. split; [|done].
    rewrite Hres, list_lookup_fmap in Hg. destruct (results !! i) as [r|]; by simplify_eq/=. }
  exists (errs out.2). split_and!.
  - rewrite Hret. unfold ErrorOrNil.
    destruct (errs out.2) eqn:E; [|done].
    apply Permutation_length in Herrs. simpl in Herrs.
    destruct s3Event; [done|]. simpl in *. lia.
  - unfold Len. by rewrite (Permutation_length Herrs), Hlen', Hlen.
  - by rewrite Herrs.
Qed.

Lemma mem_s3_honours_cancellation : honours_cancellation (service := MemS3.service).
Proof. split; intros params w; eexists; split; reflexivity. Qed.

Lemma cancellation_is_reported_witness :
  let out := handleS3EventWithConfig SampleMail.test_env true
               Scenario.does_not_matter [] (∅ : MemS3.store) in
  exists err es,
    goroutines out.2 !! 0%nat = Some (Finished (Some err)) /\
    errors_Is err context_Canceled = true /\
    out.1 = Some es /\ err ∈ es.
Proof.
  intros out.
  destruct (cancellation_is_reported SampleMail.net_mail SampleMail.test_env
              MemS3.service true Scenario.does_not_matter [] ∅
              mem_s3_honours_cancellation) as [H _].
  destruct (H 0%nat []
              (GetObjectEvent true
                 {| get_Bucket := "source-bucket"; get_Key := "does/not/matter" |}
                 (inl (Wrap "operation error S3: GetObject" context_Canceled)))
              []) as [_ Hres]; [reflexivity | reflexivity | exact Hres].
Defined.

(** C6 as stated fails: a task that is in flight when the caller cancels, but
    has its upload behind it, returns [nil], and so does the invocation; a
    task that has fetched a message it rejects returns the validation error,
    which does not identify the cancellation.  The S3 service of both
    invocations honours cancellation. *)
Lemma in_flight_task_is_not_interrupted :
  honours_cancellation (service := MemS3.service) /\
  ~ in_flight_tasks_report_cancellation
      (Handler.recordTask (mail := SampleMail.net_mail) SampleMail.test_env
         <$> Scenario.present)
      [Run 0; Run 0] [] Scenario.email_bucket /\
  ~ in_flight_tasks_report_cancellation
      (Handler.recordTask (mail := SampleMail.net_mail) SampleMail.test_env
         <$> Scenario.present)
      [Run 0] []
      ({[ ("test-email-bucket", "ses/ffis_ingest/new/test.eml")
          := Scenario.spoofed_display_name ]} : MemS3.store).
Proof.
  split_and!.
  - apply mem_s3_honours_cancellation.
  - intros H. edestruct (H 0%nat) as (err & es & Hg & _); [vm_compute; reflexivity|].
    vm_compute in Hg. discriminate.
  - intros H. edestruct (H 0%nat) as (err & es & Hg & Herr & _); [vm_compute; reflexivity|].
    vm_compute in Hg. injection Hg as <-. vm_compute in Herr. discriminate.
Qed.

(** The test "Missing source object": two records, of which the first is
    missing; one error is collected and one object is written. *)
Example missing_source_object :
  let out := handleS3EventWithConfig SampleMail.test_env false
               Scenario.missing_and_present [] Scenario.email_bucket in
  Len <$> out.1 = Some 1%nat /\
  writes (snd <$> trace out.2) = 1%nat /\
  is_Some (world out.2 !! ("test-source-data-bucket", "sources/2023/4/24/ffis/raw.eml")).
Proof. vm_compute. split_and!; [done|done|by eexists]. Qed.

(** The test "Context canceled during invocation", also when the caller
    cancels while the first task is between its fetch and its upload. *)
Example canceled_between_fetch_and_upload :
  let out := handleS3EventWithConfig SampleMail.test_env false
               Scenario.present [Run 0; Cancel] Scenario.email_bucket in
  out.1 = Some [Wrap "Error uploading S3 object to Grants source data bucket"
                  (Wrap "operation error S3: PutObject" context_Canceled)] /\
  world out.2 !! ("test-source-data-bucket", "sources/2023/4/24/ffis/raw.eml") = None.
Proof. vm_compute. done. Qed.

(** * More of the handlers *)

(** ** The course of a record task *)

Lemma continues_local {World : Type} {service : S3Service World}
    (tasks : list (io (option error))) :
  local_inv (continues tasks).
Proof.
  intros i evs t c w (t0 & Ht0 & H). exists t0. split; [done|].
  intros evs' r Hrest.
  destruct t as [a|params k|params k|name value k]; simpl in *.
  - rewrite app_nil_r. by apply H.
  - destruct (service_GetObject c params w) as [resp w'] eqn:E. simpl in *.
    rewrite <- app_assoc. apply H. simpl. by exists c, resp, evs'.
  - destruct (service_PutObject c params w) as [err w'] eqn:E. simpl in *.
    rewrite <- app_assoc. apply H. simpl. by exists c, err, evs'.
  - rewrite <- app_assoc. apply H. simpl. by exists evs'.
Qed.

(** When the invocation returns, the events and the result of every record
    task are a behaviour of that task. *)
Lemma run_group_behaves {World : Type} {service : S3Service World}
    c tasks schedule (w : World) i r :
  goroutines (run_group c tasks schedule w).2 !! i = Some (Finished r) ->
  exists t, tasks !! i = Some t /\
    behaves t (events_of i (trace (run_group c tasks schedule w).2)) r.
Proof.
  intros Hi.
  pose proof (run_group_locally (continues tasks) c tasks schedule w
                (continues_local tasks)) as Hloc.
  destruct (Hloc ltac:(intros j t Hj; exists t; split; [done|]; by intros evs' r') i _ Hi)
    as (t & Ht & H).
  exists t. split; [done|]. specialize (H [] r). rewrite app_nil_r in H. by apply H.
Qed.

Lemma course_of_task failed_metric upload_msg params after_fetch evs r :
  (forall resp, rejects_or_uploads upload_msg (after_fetch resp)) ->
  behaves (err ← s3_GetObject params
                   (fun resp => match resp with
                                | inl err => Ret (Some err)
                                | inr resp => after_fetch resp
                                end);
           deferred_metric failed_metric err) evs r ->
  task_course failed_metric upload_msg params after_fetch evs r.
Proof.
  intros Hdec. simpl. intros (c & [e|resp] & evs1 & -> & H).
  - simpl in H. destruct H as (evs2 & -> & -> & ->). left. by exists c, e.
  - destruct (Hdec resp) as [[e He]|(put & k & Hk & Hnone & Hsome)].
    + rewrite He in H. simpl in H. destruct H as (evs2 & -> & -> & ->).
      right. left. by exists c, resp, e.
    + rewrite Hk in H. simpl in H. destruct H as (c' & [e|] & evs2 & -> & H).
      * rewrite Hsome in H. simpl in H. destruct H as (evs3 & -> & -> & ->).
        right. right. left. exists c, resp, c', put, e. by rewrite Hk.
      * rewrite Hnone in H. simpl in H. destruct H as (evs3 & -> & -> & ->).
        right. right. right. exists c, resp, c', put. by rewrite Hk.
Qed.

Section Courses.
Context {mail : NetMail} (env : Environment).

Lemma handler_rejects_or_uploads resp :
  rejects_or_uploads "Error uploading S3 object to Grants source data bucket"
    (handler_after_fetch env resp).
Proof.
  unfold handler_after_fetch, Handler.processEmail. simpl.
  destruct (read_err _); [left; by eexists|].
  destruct (mail_ReadMessage _); [left; by eexists|].
  destruct (Handler.processHeader _) as [|[address key]]; [left; by eexists|].
  destruct (negb _); [left; by eexists|].
  right. eexists _, _. split_and!; done.
Qed.

Lemma part000_rejects_or_uploads resp :
  rejects_or_uploads "Error uploading prepared grant opportunity to DynamoDB"
    (part000_after_fetch env resp).
Proof.
  unfold part000_after_fetch, Part000.processEmail. simpl.
  destruct (read_err _); [left; by eexists|].
  destruct (mail_ReadMessage _); [left; by eexists|].
  destruct (mail_ParseAddress _); [left; by eexists|].
  destruct (negb _); [left; by eexists|].
  destruct (mail_ParseDate _); [left; by eexists|].
  right. eexists _, _. split_and!; done.
Qed.

(** The request of the upload of [handler.go], and what was checked before. *)
Lemma handler_first_put resp put :
  first_put (handler_after_fetch env resp) = Some put ->
  exists t,
    read_err (Body resp) = None /\
    accepted env (unread (Body resp)) t /\
    put = {| put_Bucket := SourceDataBucket env;
             put_Key := destination_key t;
             put_Body := snd (io_ReadAll (Body resp));
             put_ServerSideEncryption := ServerSideEncryptionAes256 |}.
Proof.
  unfold handler_after_fetch, Handler.processEmail, Handler.processHeader. simpl.
  destruct (read_err _); [done|].
  destruct (mail_ReadMessage _) as [|email] eqn:Hm; [done|].
  destruct (mail_ParseAddress _) as [|mailFrom] eqn:Ha; [done|].
  destruct (mail_ParseDate _) as [|t] eqn:Ht; [done|].
  destruct (strings_Contains _ _) eqn:Hc; [|done]. simpl.
  intros [= <-]. exists t. split_and!; [done| |done].
  by exists email, mailFrom.
Qed.

(** The request of the upload of [unnamed/part_000]. *)
Lemma part000_first_put resp put :
  first_put (part000_after_fetch env resp) = Some put ->
  exists t,
    read_err (Body resp) = None /\
    accepted env (unread (Body resp)) t /\
    put = {| put_Bucket := SourceDataBucket env;
             put_Key := destination_key t;
             put_Body := bytes_NewReader (unread (Body resp));
             put_ServerSideEncryption := ServerSideEncryptionAes256 |}.
Proof.
  unfold part000_after_fetch, Part000.processEmail. simpl.
  destruct (read_err _); [done|].
  destruct (mail_ReadMessage _) as [|email] eqn:Hm; [done|].
  destruct (mail_ParseAddress _) as [|mailFrom] eqn:Ha; [done|].
  destruct (strings_Contains _ _) eqn:Hc; [|done]. simpl.
  destruct (mail_ParseDate _) as [|t] eqn:Ht; [done|].
  intros [= <-]. exists t. split_and!; [done| |done].
  by exists email, mailFrom.
Qed.

Context {World : Type} {service : S3Service World}.

(** When [handleS3EventWithConfig] returns, every record has a result and
    its task has taken one of the four courses. *)
Lemma handler_courses c s3Event schedule (w : World) :
  let out := handleS3EventWithConfig env c s3Event schedule w in
  exists results,
    goroutines out.2 = Finished <$> results /\
    length results = length s3Event /\
    errs out.2 ≡ₚ omap id results /\
    out.1 = ErrorOrNil (errs out.2) /\
    tags_bounded out.2 /\
    forall i r, results !! i = Some r ->
      exists record, s3Event !! i = Some record /\
        task_course "email.failed"
          "Error uploading S3 object to Grants source data bucket"
          (record_params record) (handler_after_fetch env)
          (events_of i (trace out.2)) r.
Proof.
  intros out. unfold handleS3EventWithConfig in out.
  destruct (run_group_returns c (Handler.recordTask env <$> s3Event) schedule w)
    as (results & Hres & Hlen & Herrs & Hret & Htags).
  fold out in Hres, Herrs, Hret, Htags. rewrite length_fmap in Hlen.
  exists results. split_and!; try done.
  intros i r Hi.
  destruct (run_group_behaves c (Handler.recordTask env <$> s3Event) schedule w i r)
    as (t & [record [-> Hrec]]%list_lookup_fmap_Some & Hb).
  { fold out. by rewrite Hres, list_lookup_fmap, Hi. }
  exists record. split; [done|].
  apply course_of_task; [apply handler_rejects_or_uploads|exact Hb].
Qed.

Lemma part000_courses c s3Event schedule (w : World) :
  let out := part000_handleS3EventWithConfig env c s3Event schedule w in
  exists results,
    goroutines out.2 = Finished <$> results /\
    length results = length s3Event /\
    errs out.2 ≡ₚ omap id results /\
    out.1 = ErrorOrNil (errs out.2) /\
    tags_bounded out.2 /\
    forall i r, results !! i = Some r ->
      exists record, s3Event !! i = Some record /\
        task_course "opportunity.failed"
          "Error uploading prepared grant opportunity to DynamoDB"
          (record_params record) (part000_after_fetch env)
          (events_of i (trace out.2)) r.
Proof.
  intros out. unfold part000_handleS3EventWithConfig in out.
  destruct (run_group_returns c (Part000.recordTask env <$> s3Event) schedule w)
    as (results & Hres & Hlen & Herrs & Hret & Htags).
  fold out in Hres, Herrs, Hret, Htags. rewrite length_fmap in Hlen.
  exists results. split_and!; try done.
  intros i r Hi.
  destruct (run_group_behaves c (Part000.recordTask env <$> s3Event) schedule w i r)
    as (t & [record [-> Hrec]]%list_lookup_fmap_Some & Hb).
  { fold out. by rewrite Hres, list_lookup_fmap, Hi. }
  exists record. split; [done|].
  apply course_of_task; [apply part000_rejects_or_uploads|exact Hb].
Qed.

End Courses.

(** *** Reading a course *)

Lemma course_put fm msg params af evs r c put err :
  task_course fm msg params af evs r ->
  PutObjectEvent c put err ∈ evs ->
  exists c0 resp m,
    evs = [GetObjectEvent c0 params (inr resp); PutObjectEvent c put err; MetricEvent m 1] /\
    first_put (af resp) = Some put /\
    r = match err with Some e => Some (log_Errorf msg e) | None => None end /\
    m = match err with Some _ => fm | None => "email.moved" end.
Proof.
  intros [(c0 & e & -> & ->) | [(c0 & resp & e & -> & -> & He)
          | [(c0 & resp & c' & put' & e & -> & -> & Hp)
          | (c0 & resp & c' & put' & -> & -> & Hp)]]] Hin;
    repeat (apply elem_of_cons in Hin as [Hin|Hin]; [try done|]);
    try by apply elem_of_nil in Hin.
  - injection Hin as -> -> ->. by exists c0, resp, fm.
  - injection Hin as -> -> ->. by exists c0, resp, "email.moved".
Qed.

Lemma course_puts fm msg params af evs r :
  task_course fm msg params af evs r ->
  (length (filter is_put evs) <= 1)%nat /\
  (r = None -> length (filter is_put evs) = 1%nat).
Proof.
  intros [(c0 & e & -> & ->) | [(c0 & resp & e & -> & -> & He)
          | [(c0 & resp & c' & put' & e & -> & -> & Hp)
          | (c0 & resp & c' & put' & -> & -> & Hp)]]]; vm_compute; split; (lia || done).
Qed.

Lemma course_rejected fm msg params af evs r c params' resp :
  task_course fm msg params af evs r ->
  GetObjectEvent c params' (inr resp) ∈ evs ->
  first_put (af resp) = None ->
  params' = params /\
  evs = [GetObjectEvent c params (inr resp); MetricEvent fm 1] /\
  exists err, r = Some err /\ af resp = Ret (Some err).
Proof.
  intros [(c0 & e & -> & ->) | [(c0 & resp0 & e & -> & -> & He)
          | [(c0 & resp0 & c' & put' & e & -> & -> & Hp)
          | (c0 & resp0 & c' & put' & -> & -> & Hp)]]] Hin Hnone;
    repeat (apply elem_of_cons in Hin as [Hin|Hin]; [try done|]);
    try by apply elem_of_nil in Hin.
  - injection Hin as -> -> ->. split_and!; [done|done|]. by exists e.
  - injection Hin as -> -> ->. congruence.
  - injection Hin as -> -> ->. congruence.
Qed.

Lemma course_first fm msg params af evs r :
  task_course fm msg params af evs r ->
  exists c resp rest, evs = GetObjectEvent c params resp :: rest /\
    Forall (fun ev => is_fetch ev = false) rest.
Proof.
  intros [(c0 & e & -> & ->) | [(c0 & resp0 & e & -> & -> & He)
          | [(c0 & resp0 & c' & put' & e & -> & -> & Hp)
          | (c0 & resp0 & c' & put' & -> & -> & Hp)]]];
    eexists _, _, _; (split; [reflexivity|]); by repeat constructor.
Qed.

Lemma metrics_cons name ev evs :
  metrics name (ev :: evs) = ((if is_metric name ev then 1 else 0) + metrics name evs)%nat.
Proof. unfold metrics. rewrite filter_cons. by destruct (is_metric name ev). Qed.

Lemma course_metrics fm msg params af evs r :
  fm <> "email.moved" ->
  task_course fm msg params af evs r ->
  metrics fm evs = failures_expected r /\
  metrics "email.moved" evs = writes_expected r /\
  forall name value, MetricEvent name value ∈ evs ->
    value = 1 /\ (name = fm \/ name = "email.moved").
Proof.
  intros Hne H.
  assert (is_metric fm (MetricEvent fm 1) = true) as E1
    by (simpl; by rewrite bool_decide_eq_true_2).
  assert (is_metric "email.moved" (MetricEvent fm 1) = false) as E2
    by (simpl; by rewrite bool_decide_eq_false_2).
  assert (is_metric fm (MetricEvent "email.moved" 1) = false) as E3
    by (simpl; rewrite bool_decide_eq_false_2; congruence).
  destruct H as [(c0 & e & -> & ->) | [(c0 & resp0 & e & -> & -> & He)
          | [(c0 & resp0 & c' & put' & e & -> & -> & Hp)
          | (c0 & resp0 & c' & put' & -> & -> & Hp)]]];
    rewrite !metrics_cons, ?E1, ?E2, ?E3; (split_and!; [done|done|]);
    intros name value Hin;
    repeat (apply elem_of_cons in Hin as [Hin|Hin]; [try done|]);
    try (by apply elem_of_nil in Hin); injection Hin as -> ->; auto.
Qed.

(** *** Counting events by record *)

Lemma count_by_task (p : event -> bool) (n : nat) (tr : list (nat * event)) :
  (forall j ev, (j, ev) ∈ tr -> (j < n)%nat) ->
  length (filter p (snd <$> tr))
  = sum_list_with (fun i => length (filter p (events_of i tr))) (seq 0 n).
Proof.
  induction tr as [|[j ev] tr IH]; intros Hb.
  - rewrite sum_list_with_zero; done.
  - assert (j < n)%nat as Hj by (eapply Hb, list_elem_of_here).
    rewrite fmap_cons. csimpl. rewrite filter_cons.
    rewrite (sum_list_with_ext _
      (fun i => (if bool_decide (j = i) then (if p ev then 1 else 0) else 0)
                + length (filter p (events_of i tr)))%nat).
    + rewrite sum_list_with_plus, <- IH
        by (intros j' ev' H; eapply Hb, list_elem_of_further, H).
      destruct (p ev); simpl.
      * rewrite sum_indicator by done. done.
      * rewrite sum_list_with_zero; [done|]. intros i _. by case_bool_decide.
    + intros i. unfold events_of. simpl. case_bool_decide; [|done].
      simpl. rewrite filter_cons. by destruct (p ev).
Qed.

Lemma failures_counted (results : list (option error)) :
  sum_list_with failures_expected results = length (omap id results).
Proof. induction results as [|[e|] results IH]; csimpl; lia. Qed.

(** An event of record [i] belongs to a record that has a result. *)
Lemma event_has_result {World : Type} (s : State World) results i ev :
  tags_bounded s -> goroutines s = Finished <$> results ->
  ev ∈ events_of i (trace s) -> is_Some (results !! i).
Proof.
  intros Htags Hres Hin%events_of_elem. apply lookup_lt_is_Some_2.
  specialize (Htags _ _ Hin). by rewrite Hres, length_fmap in Htags.
Qed.

Lemma in_aggregate (es : multierror) results i err :
  es ≡ₚ omap id results -> results !! i = Some (Some err) ->
  exists es', ErrorOrNil es = Some es' /\ err ∈ es'.
Proof.
  intros Herrs Hi. assert (err ∈ es) as He.
  { rewrite Herrs. apply list_elem_of_omap. exists (Some err). split; [|done].
    by eapply list_elem_of_lookup_2. }
  exists es. split; [|done]. unfold ErrorOrNil.
  destruct es; [by apply elem_of_nil in He | done].
Qed.

(** ** Metrics *)

(** X1: [handleS3EventWithConfig] of [handler.go] emits [email.failed] once
    for every record that failed and [email.moved] once for every record that
    succeeded, each with the value 1, and no other metric: the invocation
    emits F failure metrics and N - F success metrics, and it returns [nil]
    exactly if it has emitted no failure metric. *)
Theorem metrics_count_records (mail : NetMail) (env : Environment)
    {World : Type} (service : S3Service World)
    (ctx_canceled : bool) (s3Event : list S3EventRecord)
    (schedule : list action) (w : World) :
  let out := handleS3EventWithConfig env ctx_canceled s3Event schedule w in
  exists results : list (option error),
    let failures := omap id results in
    goroutines out.2 = Finished <$> results /\
    length results = length s3Event /\
    (forall i r, results !! i = Some r ->
       metrics "email.failed" (events_of i (trace out.2)) = failures_expected r /\
       metrics "email.moved" (events_of i (trace out.2)) = writes_expected r) /\
    metrics "email.failed" (snd <$> trace out.2) = length failures /\
    metrics "email.moved" (snd <$> trace out.2) = (length s3Event - length failures)%nat /\
    (forall name value, MetricEvent name value ∈ snd <$> trace out.2 ->
       value = 1 /\ (name = "email.failed" \/ name = "email.moved")) /\
    (out.1 = None <-> metrics "email.failed" (snd <$> trace out.2) = 0%nat).
Proof.
  intros out.
  destruct (handler_courses env ctx_canceled s3Event schedule w)
    as (results & Hres & Hlen & Herrs & Hret & Htags & Hcourse).
  fold out in Hres, Herrs, Hret, Htags, Hcourse.
  assert (forall i r, results !! i = Some r ->
            metrics "email.failed" (events_of i (trace out.2)) = failures_expected r /\
            metrics "email.moved" (events_of i (trace out.2)) = writes_expected r /\
            forall name value, MetricEvent name value ∈ events_of i (trace out.2) ->
              value = 1 /\ (name = "email.failed" \/ name = "email.moved")) as Hm.
  { intros i r Hi. destruct (Hcourse i r Hi) as (record & _ & Hc).
    by eapply course_metrics. }
  assert (forall j ev, (j, ev) ∈ trace out.2 -> (j < length results)%nat) as Hb.
  { intros j ev Hin. specialize (Htags j ev Hin). by rewrite Hres, length_fmap in Htags. }
  assert (metrics "email.failed" (snd <$> trace out.2) = length (omap id results)) as HF.
  { unfold metrics at 1. rewrite (count_by_task _ (length results)) by done.
    rewrite (sum_by_index _ failures_expected results 0)
      by (intros i r Hi; by apply Hm).
    apply failures_counted. }
  exists results. cbv zeta. split_and!; try done.
  - intros i r Hi. destruct (Hm i r Hi) as (? & ? & _). done.
  - unfold metrics at 1. rewrite (count_by_task _ (length results)) by done.
    rewrite (sum_by_index _ writes_expected results 0)
      by (intros i r Hi; by apply Hm).
    pose proof (successes_and_failures results). lia.
  - intros name value Hin. apply list_elem_of_fmap in Hin as ([j ev] & Heq & Hin).
    simpl in Heq. subst ev. destruct (lookup_lt_is_Some_2 results j (Hb _ _ Hin)) as [r Hr].
    destruct (Hm j r Hr) as (_ & _ & H). apply H. by apply events_of_elem.
  - rewrite HF, Hret, <- (Permutation_length Herrs). unfold ErrorOrNil.
    by destruct (errs out.2).
Qed.

(** ** What is written, and where *)

(** X2: every [PutObject] call of an invocation of [handler.go] is the one
    upload of a record whose object was fetched and read without error, whose
    message parsed, whose sender is accepted and whose [Date] parsed: it goes
    to the source-data bucket, to the key derived from that date, with AES256;
    the task has done nothing before it but fetch the record's object, and
    after it emits one metric and returns.  No record is uploaded twice. *)
Theorem uploads_are_confined (mail : NetMail) (env : Environment)
    {World : Type} (service : S3Service World)
    (ctx_canceled : bool) (s3Event : list S3EventRecord)
    (schedule : list action) (w : World) :
  let out := handleS3EventWithConfig env ctx_canceled s3Event schedule w in
  (forall i c put err,
     PutObjectEvent c put err ∈ events_of i (trace out.2) ->
     exists record c0 resp t m,
       s3Event !! i = Some record /\
       events_of i (trace out.2)
       = [GetObjectEvent c0 (record_params record) (inr resp);
          PutObjectEvent c put err; MetricEvent m 1] /\
       read_err (Body resp) = None /\
       accepted env (unread (Body resp)) t /\
       put_Bucket put = SourceDataBucket env /\
       put_Key put = destination_key t /\
       put_ServerSideEncryption put = ServerSideEncryptionAes256) /\
  (forall i, (length (filter is_put (events_of i (trace out.2))) <= 1)%nat).
Proof.
  intros out.
  destruct (handler_courses env ctx_canceled s3Event schedule w)
    as (results & Hres & Hlen & Herrs & Hret & Htags & Hcourse).
  fold out in Hres, Herrs, Hret, Htags, Hcourse. split.
  - intros i c put err Hin.
    destruct (event_has_result _ _ _ _ Htags Hres Hin) as [r Hr].
    destruct (Hcourse i r Hr) as (record & Hrec & Hc).
    destruct (course_put _ _ _ _ _ _ _ _ _ Hc Hin) as (c0 & resp & m & Hevs & Hput & _).
    destruct (handler_first_put env resp put Hput) as (t & Hread & Hacc & ->).
    by exists record, c0, resp, t, m.
  - intros i. destruct (results !! i) as [r|] eqn:Hr.
    + destruct (Hcourse i r Hr) as (record & Hrec & Hc).
      by destruct (course_puts _ _ _ _ _ _ Hc).
    + destruct (events_of i (trace out.2)) as [|ev evs] eqn:E; [simpl; lia|].
      assert (ev ∈ events_of i (trace out.2)) as Hin by (rewrite E; apply list_elem_of_here).
      destruct (event_has_result _ _ _ _ Htags Hres Hin) as [r' Hr']. congruence.
Qed.

Lemma uploads_are_confined_witness :
  let out := handleS3EventWithConfig SampleMail.test_env false
               Scenario.present [] Scenario.email_bucket in
  exists c0 resp t m,
    events_of 0 (trace out.2)
    = [GetObjectEvent c0 {| get_Bucket := "test-email-bucket";
                            get_Key := "ses/ffis_ingest/new/test.eml" |} (inr resp);
       PutObjectEvent false Inbox.upload_request None; MetricEvent m 1] /\
    accepted SampleMail.test_env (unread (Body resp)) t /\
    destination_key t = "sources/2023/4/24/ffis/raw.eml".
Proof.
  intros out.
  destruct (uploads_are_confined SampleMail.net_mail SampleMail.test_env
              MemS3.service false Scenario.present [] Scenario.email_bucket) as [H _].
  destruct (H 0%nat false Inbox.upload_request None)
    as (record & c0 & resp & t & m & Hrec & Hevs & _ & Hacc & _ & Hkey & _).
  - vm_compute. apply list_elem_of_further, list_elem_of_here.
  - injection Hrec as <-. exists c0, resp, t, m. split_and!; [exact Hevs|exact Hacc|].
    symmetry. exact Hkey.
Defined.

Lemma errors_Is_refl err : errors_Is err err = true.
Proof.
  destruct err; simpl; first [done | apply orb_true_iff; left; by apply bool_decide_eq_true_2].
Qed.

(** The text of a wrapped error starts with the message it was wrapped
    under. *)
Lemma Error_Wrap_contains msg err :
  strings_Contains (Error (Wrap msg err)) msg = true.
Proof.
  apply Contains_spec. exists EmptyString, (": " +:+ Error err). done.
Qed.

(** X3: when the upload of a record fails with [err], the task of
    [handler.go] stops there: it emits [email.failed] and not [email.moved],
    and the record's result wraps [err] under the message
    [Error uploading S3 object to Grants source data bucket], which the text
    of the result contains; [errors.Is] finds [err] in the result, and the
    aggregate holds the result.  In
    [unnamed/part_000] the same holds with the metric [opportunity.failed] and
    the message [Error uploading prepared grant opportunity to DynamoDB]. *)
Theorem upload_failure_is_reported (mail : NetMail) (env : Environment)
    {World : Type} (service : S3Service World)
    (ctx_canceled : bool) (s3Event : list S3EventRecord)
    (schedule : list action) (w : World) :
  let out := handleS3EventWithConfig env ctx_canceled s3Event schedule w in
  let earlier := part000_handleS3EventWithConfig env ctx_canceled s3Event schedule w in
  (forall i c put err,
     PutObjectEvent c put (Some err) ∈ events_of i (trace out.2) ->
     let result :=
       Wrap "Error uploading S3 object to Grants source data bucket" err in
     exists record c0 resp,
       s3Event !! i = Some record /\
       events_of i (trace out.2)
       = [GetObjectEvent c0 (record_params record) (inr resp);
          PutObjectEvent c put (Some err); MetricEvent "email.failed" 1] /\
       goroutines out.2 !! i = Some (Finished (Some result)) /\
       errors_Is result err = true /\
       strings_Contains (Error result)
         "Error uploading S3 object to Grants source data bucket" = true /\
       exists es, out.1 = Some es /\ result ∈ es) /\
  (forall i c put err,
     PutObjectEvent c put (Some err) ∈ events_of i (trace earlier.2) ->
     let result :=
       Wrap "Error uploading prepared grant opportunity to DynamoDB" err in
     exists record c0 resp,
       s3Event !! i = Some record /\
       events_of i (trace earlier.2)
       = [GetObjectEvent c0 (record_params record) (inr resp);
          PutObjectEvent c put (Some err); MetricEvent "opportunity.failed" 1] /\
       goroutines earlier.2 !! i = Some (Finished (Some result)) /\
       errors_Is result err = true /\
       strings_Contains (Error result)
         "Error uploading prepared grant opportunity to DynamoDB" = true /\
       exists es, earlier.1 = Some es /\ result ∈ es).
Proof.
  intros out earlier. split.
  - destruct (handler_courses env ctx_canceled s3Event schedule w)
      as (results & Hres & Hlen & Herrs & Hret & Htags & Hcourse).
    fold out in Hres, Herrs, Hret, Htags, Hcourse.
    intros i c put err Hin result.
    destruct (event_has_result _ _ _ _ Htags Hres Hin) as [r Hr].
    destruct (Hcourse i r Hr) as (record & Hrec & Hc).
    destruct (course_put _ _ _ _ _ _ _ _ _ Hc Hin)
      as (c0 & resp & m & Hevs & Hput & -> & ->).
    exists record, c0, resp. split_and!; [done|done| | | |].
    + by rewrite Hres, list_lookup_fmap, Hr.
    + apply errors_Is_Wrap, errors_Is_refl.
    + apply Error_Wrap_contains.
    + rewrite Hret. by eapply in_aggregate.
  - destruct (part000_courses env ctx_canceled s3Event schedule w)
      as (results & Hres & Hlen & Herrs & Hret & Htags & Hcourse).
    fold earlier in Hres, Herrs, Hret, Htags, Hcourse.
    intros i c put err Hin result.
    destruct (event_has_result _ _ _ _ Htags Hres Hin) as [r Hr].
    destruct (Hcourse i r Hr) as (record & Hrec & Hc).
    destruct (course_put _ _ _ _ _ _ _ _ _ Hc Hin)
      as (c0 & resp & m & Hevs & Hput & -> & ->).
    exists record, c0, resp. split_and!; [done|done| | | |].
    + by rewrite Hres, list_lookup_fmap, Hr.
    + apply errors_Is_Wrap, errors_Is_refl.
    + apply Error_Wrap_contains.
    + rewrite Hret. by eapply in_aggregate.
Qed.

Lemma upload_failure_is_reported_witness :
  let out := handleS3EventWithConfig SampleMail.test_env false
               Scenario.present [Run 0; Cancel] Scenario.email_bucket in
  let earlier := part000_handleS3EventWithConfig SampleMail.test_env false
               Scenario.present [Run 0; Cancel] Scenario.email_bucket in
  let err := Wrap "operation error S3: PutObject" context_Canceled in
  goroutines out.2 !! 0%nat
  = Some (Finished (Some
      (Wrap "Error uploading S3 object to Grants source data bucket" err))) /\
  goroutines earlier.2 !! 0%nat
  = Some (Finished (Some
      (Wrap "Error uploading prepared grant opportunity to DynamoDB" err))).
Proof.
  intros out earlier err.
  destruct (upload_failure_is_reported SampleMail.net_mail SampleMail.test_env
              MemS3.service false Scenario.present [Run 0; Cancel] Scenario.email_bucket)
    as [H1 H2].
  destruct (H1 0%nat true Inbox.upload_request err)
    as (record1 & c1 & resp1 & _ & _ & Hg1 & _).
  { vm_compute. apply list_elem_of_further, list_elem_of_here. }
  destruct (H2 0%nat true Inbox.earlier_upload_request err)
    as (record2 & c2 & resp2 & _ & _ & Hg2 & _).
  { vm_compute. apply list_elem_of_further, list_elem_of_here. }
  split; assumption.
Defined.

(** ** Records that are not uploaded *)

Lemma handler_no_put (mail : NetMail) (env : Environment) (r : Reader) :
  first_put (Handler.processEmail env r) = None <->
  (read_err r <> None \/ forall t, ~ accepted env (unread r) t).
Proof.
  unfold Handler.processEmail, Handler.processHeader, accepted. simpl.
  destruct (read_err r) as [e|]; [split; [by left|done]|].
  destruct (mail_ReadMessage _) as [e|email] eqn:Hm.
  { split; [|done]. intros _. right. by intros t (? & ? & ? & _). }
  destruct (mail_ParseAddress _) as [e|mailFrom] eqn:Ha.
  { split; [|done]. intros _. right. intros t (? & ? & [= <-] & ? & _). congruence. }
  destruct (mail_ParseDate _) as [e|t] eqn:Ht.
  { split; [|done]. intros _. right. intros t (? & ? & [= <-] & ? & ? & ?). congruence. }
  destruct (strings_Contains _ _) eqn:Hc; simpl.
  - split; [done|]. intros [?|H]; [done|]. exfalso. apply (H t). by exists email, mailFrom.
  - split; [|done]. intros _. right. intros t' (? & ? & [= <-] & ? & ? & ?). congruence.
Qed.

(** X4: a record whose object was fetched but is not to be uploaded (its body
    cannot be read, it is no message, its [From] or [Date] header does not
    parse, or its sender is not accepted) makes no [PutObject] call at all:
    its task emits [email.failed] and returns the error of [processEmail],
    which the aggregate holds.  [processEmail] of [handler.go] decides so
    exactly in the cases listed; an error of reading the body is returned as
    it is. *)
Theorem rejected_record_is_not_uploaded (mail : NetMail) (env : Environment)
    {World : Type} (service : S3Service World)
    (ctx_canceled : bool) (s3Event : list S3EventRecord)
    (schedule : list action) (w : World) :
  let out := handleS3EventWithConfig env ctx_canceled s3Event schedule w in
  (forall i c params resp,
     GetObjectEvent c params (inr resp) ∈ events_of i (trace out.2) ->
     first_put (Handler.processEmail env (Body resp)) = None ->
     exists err,
       Handler.processEmail env (Body resp) = Ret (Some err) /\
       events_of i (trace out.2)
       = [GetObjectEvent c params (inr resp); MetricEvent "email.failed" 1] /\
       goroutines out.2 !! i = Some (Finished (Some err)) /\
       exists es, out.1 = Some es /\ err ∈ es) /\
  (forall r,
     first_put (Handler.processEmail env r) = None <->
     (read_err r <> None \/ forall t, ~ accepted env (unread r) t)) /\
  (forall r err, read_err r = Some err -> Handler.processEmail env r = Ret (Some err)).
Proof.
  intros out. split_and!.
  - destruct (handler_courses env ctx_canceled s3Event schedule w)
      as (results & Hres & Hlen & Herrs & Hret & Htags & Hcourse).
    fold out in Hres, Herrs, Hret, Htags, Hcourse.
    intros i c params resp Hin Hnone.
    destruct (event_has_result _ _ _ _ Htags Hres Hin) as [r Hr].
    destruct (Hcourse i r Hr) as (record & Hrec & Hc).
    destruct (course_rejected _ _ _ _ _ _ _ _ _ Hc Hin Hnone)
      as (-> & Hevs & err & -> & Herr).
    exists err. split_and!; [done|done| |].
    + by rewrite Hres, list_lookup_fmap, Hr.
    + rewrite Hret. by eapply in_aggregate.
  - apply handler_no_put.
  - intros r err Hr. unfold Handler.processEmail. simpl. by rewrite Hr.
Qed.

Lemma rejected_record_is_not_uploaded_witness :
  let out := handleS3EventWithConfig SampleMail.test_env false
               Inbox.spoofed_and_genuine [] Inbox.received in
  let params := {| get_Bucket := "test-email-bucket";
                   get_Key := "ses/ffis_ingest/new/spoofed.eml" |} in
  let resp := {| Body := bytes_NewReader Scenario.spoofed_display_name |} in
  exists err,
    events_of 0 (trace out.2)
    = [GetObjectEvent false params (inr resp); MetricEvent "email.failed" 1] /\
    goroutines out.2 !! 0%nat = Some (Finished (Some err)) /\
    exists es, out.1 = Some es /\ err ∈ es.
Proof.
  intros out params resp.
  destruct (rejected_record_is_not_uploaded SampleMail.net_mail SampleMail.test_env
              MemS3.service false Inbox.spoofed_and_genuine [] Inbox.received)
    as (H & _).
  destruct (H 0%nat false params resp) as (err & _ & Hevs & Hg & Hes).
  - vm_compute. apply list_elem_of_here.
  - vm_compute. reflexivity.
  - exists err. split_and!; assumption.
Defined.

(** ** The earlier revision *)

(** X5: [handleS3EventWithConfig] of [unnamed/part_000], whatever the
    interleaving: every one of the N records has a result; with F errors among
    them the function returns [nil] exactly if F = 0 and otherwise an
    aggregate of these F errors; a record that succeeded has written once and
    emitted [email.moved], one that failed has not written and has emitted
    [opportunity.failed]; the invocation has written N - F times. *)
Theorem part000_aggregate_error_and_writes (mail : NetMail) (env : Environment)
    {World : Type} (service : S3Service World)
    (ctx_canceled : bool) (s3Event : list S3EventRecord)
    (schedule : list action) (w : World) :
  let out := part000_handleS3EventWithConfig env ctx_canceled s3Event schedule w in
  exists results : list (option error),
    let failures := omap id results in
    goroutines out.2 = Finished <$> results /\
    length results = length s3Event /\
    (out.1 = None <-> length failures = 0%nat) /\
    ((1 <= length failures)%nat ->
       exists es, out.1 = Some es /\ es ≡ₚ failures /\ Len es = length failures) /\
    (forall i r, results !! i = Some r ->
       writes (events_of i (trace out.2)) = writes_expected r /\
       metrics "email.moved" (events_of i (trace out.2)) = writes_expected r /\
       metrics "opportunity.failed" (events_of i (trace out.2)) = failures_expected r) /\
    writes (snd <$> trace out.2) = (length s3Event - length failures)%nat /\
    metrics "opportunity.failed" (snd <$> trace out.2) = length failures.
Proof.
  intros out.
  destruct (part000_courses env ctx_canceled s3Event schedule w)
    as (results & Hres & Hlen & Herrs & Hret & Htags & Hcourse).
  fold out in Hres, Herrs, Hret, Htags, Hcourse.
  assert (forall i r, results !! i = Some r ->
       writes (events_of i (trace out.2)) = writes_expected r /\
       metrics "email.moved" (events_of i (trace out.2)) = writes_expected r /\
       metrics "opportunity.failed" (events_of i (trace out.2)) = failures_expected r)
    as Hw.
  { intros i r Hi. destruct (Hcourse i r Hi) as (record & _ & Hc).
    assert ("opportunity.failed" <> "email.moved") as Hne by done.
    destruct (course_metrics _ _ _ _ _ _ Hne Hc) as (HF & HM & _).
    split_and!; [|done|done].
    destruct Hc as [(c0 & e & -> & ->) | [(c0 & resp0 & e & -> & -> & He)
          | [(c0 & resp0 & c' & put' & e & -> & -> & Hp)
          | (c0 & resp0 & c' & put' & -> & -> & Hp)]]]; reflexivity. }
  assert (forall j ev, (j, ev) ∈ trace out.2 -> (j < length results)%nat) as Hb.
  { intros j ev Hin. specialize (Htags j ev Hin). by rewrite Hres, length_fmap in Htags. }
  exists results. cbv zeta. split_and!; try done.
  - rewrite Hret, <- (Permutation_length Herrs). unfold ErrorOrNil.
    by destruct (errs out.2).
  - intros HF. exists (errs out.2). rewrite Hret. unfold ErrorOrNil, Len.
    rewrite <- (Permutation_length Herrs) in *.
    destruct (errs out.2); [simpl in HF; lia | done].
  - rewrite (writes_by_task (length results)) by done.
    rewrite (sum_by_index _ writes_expected results 0)
      by (intros i r Hi; by apply Hw).
    pose proof (successes_and_failures results). lia.
  - unfold metrics at 1. rewrite (count_by_task _ (length results)) by done.
    rewrite (sum_by_index _ failures_expected results 0)
      by (intros i r Hi; by apply Hw).
    apply failures_counted.
Qed.

(** X6: every [PutObject] call of an invocation of [unnamed/part_000] is the
    one upload of a record whose object was fetched and read without error and
    whose message was accepted; its body delivers the bytes of the fetched
    object, unchanged, to the key of the message's date in the source-data
    bucket, with AES256.  So a write that took place has stored the
    message. *)
Theorem part000_uploads_what_it_fetched (mail : NetMail) (env : Environment)
    {World : Type} (service : S3Service World)
    (ctx_canceled : bool) (s3Event : list S3EventRecord)
    (schedule : list action) (w : World) :
  let out := part000_handleS3EventWithConfig env ctx_canceled s3Event schedule w in
  forall i c put err,
    PutObjectEvent c put err ∈ events_of i (trace out.2) ->
    exists record c0 resp t m,
      s3Event !! i = Some record /\
      events_of i (trace out.2)
      = [GetObjectEvent c0 (record_params record) (inr resp);
         PutObjectEvent c put err; MetricEvent m 1] /\
      read_err (Body resp) = None /\
      accepted env (unread (Body resp)) t /\
      body_bytes put = unread (Body resp) /\
      read_err (put_Body put) = None /\
      put_Bucket put = SourceDataBucket env /\
      put_Key put = destination_key t /\
      put_ServerSideEncryption put = ServerSideEncryptionAes256.
Proof.
  intros out.
  destruct (part000_courses env ctx_canceled s3Event schedule w)
    as (results & Hres & Hlen & Herrs & Hret & Htags & Hcourse).
  fold out in Hres, Herrs, Hret, Htags, Hcourse.
  intros i c put err Hin.
  destruct (event_has_result _ _ _ _ Htags Hres Hin) as [r Hr].
  destruct (Hcourse i r Hr) as (record & Hrec & Hc).
  destruct (course_put _ _ _ _ _ _ _ _ _ Hc Hin) as (c0 & resp & m & Hevs & Hput & _).
  destruct (part000_first_put env resp put Hput) as (t & Hread & Hacc & ->).
  by exists record, c0, resp, t, m.
Qed.

Lemma part000_uploads_what_it_fetched_witness :
  let out := part000_handleS3EventWithConfig SampleMail.test_env false
               Scenario.present [] Scenario.email_bucket in
  exists c0 resp t m,
    events_of 0 (trace out.2)
    = [GetObjectEvent c0 {| get_Bucket := "test-email-bucket";
                            get_Key := "ses/ffis_ingest/new/test.eml" |} (inr resp);
       PutObjectEvent false Inbox.earlier_upload_request None; MetricEvent m 1] /\
    accepted SampleMail.test_env (unread (Body resp)) t /\
    SampleMail.RECEIVED_EMAIL_TEMPLATE = unread (Body resp).
Proof.
  intros out.
  destruct (part000_uploads_what_it_fetched SampleMail.net_mail SampleMail.test_env
              MemS3.service false Scenario.present [] Scenario.email_bucket
              0%nat false Inbox.earlier_upload_request None)
    as (record & c0 & resp & t & m & Hrec & Hevs & _ & Hacc & Hbody & _).
  - vm_compute. apply list_elem_of_further, list_elem_of_here.
  - injection Hrec as <-. exists c0, resp, t, m. split_and!; [exact Hevs|exact Hacc|].
    exact Hbody.
Defined.

(** ** Records do not interfere *)

Section Alone.
Context {World : Type} {service : S3Service World}.

Lemma run_io_stateless c (t : io (option error)) (w w' : World) :
  answers_stateless -> (run_io c t w).1 = (run_io c t w').1.
Proof.
  intros [Hget Hput]. revert w w'.
  induction t as [a|params k IH|params k IH|name value k IH]; intros w w'; simpl.
  - done.
  - specialize (Hget c params w w').
    destruct (service_GetObject c params w) as [resp w1],
             (service_GetObject c params w') as [resp' w1']. simpl in Hget. subst resp'.
    specialize (IH resp w1 w1').
    destruct (run_io c (k resp) w1) as [[a evs] w2],
             (run_io c (k resp) w1') as [[a' evs'] w2']. simpl in *. congruence.
  - specialize (Hput c params w w').
    destruct (service_PutObject c params w) as [err w1],
             (service_PutObject c params w') as [err' w1']. simpl in Hput. subst err'.
    specialize (IH err w1 w1').
    destruct (run_io c (k err) w1) as [[a evs] w2],
             (run_io c (k err) w1') as [[a' evs'] w2']. simpl in *. congruence.
  - specialize (IH w w').
    destruct (run_io c k w) as [[a evs] w2], (run_io c k w') as [[a' evs'] w2'].
    simpl in *. congruence.
Qed.

(** A step of a task, seen from the run of the task on its own. *)
Lemma run_io_step c (t : io (option error)) (ws w : World) :
  answers_stateless ->
  match (step_io c t ws).1.1 with
  | Running t' =>
      (run_io c t w).1.2 = option_list (step_io c t ws).1.2 ++ (run_io c t' w).1.2 /\
      (run_io c t w).1.1 = (run_io c t' w).1.1
  | Finished r =>
      (run_io c t w).1.2 = [] /\ (step_io c t ws).1.2 = None /\ (run_io c t w).1.1 = r
  end.
Proof.
  intros Hs. pose proof Hs as [Hget Hput].
  destruct t as [a|params k|params k|name value k]; simpl.
  - done.
  - specialize (Hget c params ws w).
    pose proof (fun w1 => run_io_stateless c (k (service_GetObject c params w).1) w1 w Hs)
      as Hk.
    destruct (service_GetObject c params ws) as [resp ws'],
             (service_GetObject c params w) as [resp' w1]. simpl in *. subst resp'.
    specialize (Hk w1).
    destruct (run_io c (k resp) w1) as [[a evs] w2],
             (run_io c (k resp) w) as [[a' evs'] w2']. simpl in *.
    injection Hk as -> ->. done.
  - specialize (Hput c params ws w).
    pose proof (fun w1 => run_io_stateless c (k (service_PutObject c params w).1) w1 w Hs)
      as Hk.
    destruct (service_PutObject c params ws) as [err ws'],
             (service_PutObject c params w) as [err' w1]. simpl in *. subst err'.
    specialize (Hk w1).
    destruct (run_io c (k err) w1) as [[a evs] w2],
             (run_io c (k err) w) as [[a' evs'] w2']. simpl in *.
    injection Hk as -> ->. done.
  - destruct (run_io c k w) as [[a evs] w2]. done.
Qed.

Lemma step_done i (s : State World) : done (step i s) = done s.
Proof.
  unfold step. destruct (goroutines s !! i) as [[t|r]|]; try done.
  by destruct (step_io (done s) t (world s)) as [[g ev] w].
Qed.

Lemma alone_step c (w : World) tasks i s :
  answers_stateless ->
  alone_so_far c w tasks s -> alone_so_far c w tasks (step i s).
Proof.
  intros Hs [Hd H]. split; [by rewrite step_done|].
  intros j g Hj. unfold step in *.
  destruct (goroutines s !! i) as [[t|r]|] eqn:Hi; try by apply H.
  pose proof (run_io_step (done s) t (world s) w Hs) as Hstep.
  destruct (H i _ Hi) as (t0 & Ht0 & Hrun0 & Hres0).
  destruct (step_io (done s) t (world s)) as [[g' ev] w'] eqn:E. simpl in *.
  rewrite events_of_app, events_of_tagged.
  destruct (decide (i = j)) as [->|Hne].
  - rewrite bool_decide_eq_true_2 by done.
    rewrite list_lookup_insert_eq in Hj by (by eapply lookup_lt_Some).
    injection Hj as <-. exists t0. split; [done|]. subst c.
    destruct g' as [t'|r].
    + destruct Hstep as [Hevs Hr]. rewrite Hrun0, Hres0, Hevs, Hr.
      by rewrite <- app_assoc.
    + destruct Hstep as (Hevs & -> & Hr). rewrite Hrun0, Hres0, Hevs, Hr. done.
  - rewrite bool_decide_eq_false_2 by done. rewrite app_nil_r.
    rewrite list_lookup_insert_ne in Hj by done. by apply H.
Qed.

Lemma steps_iter (Q : State World -> Prop) n i s :
  (forall i s, Q s -> Q (step i s)) -> Q s -> Q (Nat.iter n (step i) s).
Proof. intros Hs H. induction n; simpl; auto. Qed.

Lemma steps_foldl_join (Q : State World -> Prop) l s :
  (forall i s, Q s -> Q (step i s)) -> Q s -> Q (foldl join s l).
Proof.
  intros HQ. revert s. induction l as [|i l IH]; simpl; intros s H; [done|].
  apply IH. unfold join. destruct (goroutines s !! i) as [[t|r]|] eqn:Hi; try done.
  destruct (complete_steps _ _ _ Hi) as (n & r & -> & _). by apply steps_iter.
Qed.

(** What every step keeps holds when an invocation that is not canceled on
    the way returns. *)
Lemma steps_run_group (Q : State World -> Prop) c tasks schedule w :
  (forall i s, Q s -> Q (step i s)) ->
  runs_only schedule ->
  Q {| world := w; done := c; trace := []; errs := []; goroutines := Running <$> tasks |} ->
  Q (run_group c tasks schedule w).2.
Proof.
  intros HQ Hsched H. unfold run_group. simpl. unfold Wait.
  apply steps_foldl_join; [done|].
  revert H. generalize {| world := w; done := c; trace := []; errs := [];
                          goroutines := Running <$> tasks |}.
  induction Hsched as [|[i|] l Ha _ IH]; simpl; intros s H; [done| |done].
  by apply IH, HQ.
Qed.

Lemma run_group_alone c tasks schedule (w : World) :
  answers_stateless -> runs_only schedule ->
  forall i t, tasks !! i = Some t ->
    events_of i (trace (run_group c tasks schedule w).2) = (run_io c t w).1.2 /\
    goroutines (run_group c tasks schedule w).2 !! i
    = Some (Finished (run_io c t w).1.1).
Proof.
  intros Hs Hsched i t Ht.
  assert (alone_so_far c w tasks (run_group c tasks schedule w).2) as [_ H].
  { apply steps_run_group; [intros; by apply alone_step|done|].
    split; [done|]. intros j g Hj. simpl in *. rewrite list_lookup_fmap in Hj.
    destruct (tasks !! j) as [t'|] eqn:Ht'; [|done]. injection Hj as <-.
    by exists t'. }
  destruct (run_group_returns c tasks schedule w) as (results & Hres & Hlen & _).
  destruct (lookup_lt_is_Some_2 results i) as [r Hr].
  { rewrite Hlen. by eapply lookup_lt_Some. }
  assert (goroutines (run_group c tasks schedule w).2 !! i = Some (Finished r)) as Hg.
  { by rewrite Hres, list_lookup_fmap, Hr. }
  destruct (H i _ Hg) as (t' & Ht' & Hevs & Hr'). simplify_eq. by rewrite Hg, Hevs.
Qed.

End Alone.

(** X7: let the answers of the S3 service not depend on what was called
    before, and let the caller not cancel on the way.  Then the interleaving
    of the record tasks does not matter: every record of
    [handleS3EventWithConfig] gets the events and the result that its task has
    when it runs on its own, and so do the records of [unnamed/part_000]; two
    invocations that differ in the interleaving only end with the same
    results. *)
Theorem records_do_not_interfere (mail : NetMail) (env : Environment)
    {World : Type} (service : S3Service World)
    (ctx_canceled : bool) (s3Event : list S3EventRecord)
    (schedule : list action) (w : World) :
  answers_stateless ->
  runs_only schedule ->
  let out := handleS3EventWithConfig env ctx_canceled s3Event schedule w in
  let earlier := part000_handleS3EventWithConfig env ctx_canceled s3Event schedule w in
  (forall i record, s3Event !! i = Some record ->
     let alone := run_io ctx_canceled (Handler.recordTask env record) w in
     events_of i (trace out.2) = alone.1.2 /\
     goroutines out.2 !! i = Some (Finished alone.1.1)) /\
  (forall i record, s3Event !! i = Some record ->
     let alone := run_io ctx_canceled (Part000.recordTask env record) w in
     events_of i (trace earlier.2) = alone.1.2 /\
     goroutines earlier.2 !! i = Some (Finished alone.1.1)) /\
  (forall schedule', runs_only schedule' ->
     goroutines (handleS3EventWithConfig env ctx_canceled s3Event schedule' w).2
     = goroutines out.2).
Proof.
  intros Hs Hsched out earlier. split_and!.
  - intros i record Hi. apply run_group_alone; [done|done|].
    by rewrite list_lookup_fmap, Hi.
  - intros i record Hi. apply run_group_alone; [done|done|].
    by rewrite list_lookup_fmap, Hi.
  - intros schedule' Hsched'. unfold out, handleS3EventWithConfig.
    apply list_eq. intros i.
    destruct (s3Event !! i) as [record|] eqn:Hi.
    + destruct (run_group_alone ctx_canceled (Handler.recordTask env <$> s3Event)
                  schedule w Hs Hsched i (Handler.recordTask env record)) as [_ H].
      { by rewrite list_lookup_fmap, Hi. }
      destruct (run_group_alone ctx_canceled (Handler.recordTask env <$> s3Event)
                  schedule' w Hs Hsched' i (Handler.recordTask env record)) as [_ H'].
      { by rewrite list_lookup_fmap, Hi. }
      by rewrite H, H'.
    + apply lookup_ge_None in Hi.
      destruct (run_group_returns ctx_canceled (Handler.recordTask env <$> s3Event)
                  schedule w) as (results & Hres & Hlen & _).
      destruct (run_group_returns ctx_canceled (Handler.recordTask env <$> s3Event)
                  schedule' w) as (results' & Hres' & Hlen' & _).
      rewrite length_fmap in Hlen, Hlen'.
      rewrite Hres, Hres'.
      rewrite !lookup_ge_None_2; [done| |]; rewrite length_fmap; lia.
Qed.

Lemma static_s3_stateless objects : answers_stateless (service := static_s3 objects).
Proof. split; intros; reflexivity. Qed.

Lemma records_do_not_interfere_witness :
  let out := handleS3EventWithConfig (service := static_s3 Scenario.email_bucket)
               SampleMail.test_env false Scenario.missing_and_present
               [Run 1; Run 0; Run 1; Run 0] () in
  events_of 1 (trace out.2)
  = [GetObjectEvent false {| get_Bucket := "test-email-bucket";
                             get_Key := "ses/ffis_ingest/new/test.eml" |}
       (inr {| Body := bytes_NewReader SampleMail.RECEIVED_EMAIL_TEMPLATE |});
     PutObjectEvent false Inbox.upload_request None;
     MetricEvent "email.moved" 1] /\
  goroutines out.2 !! 1%nat = Some (Finished None).
Proof.
  intros out.
  destruct (records_do_not_interfere SampleMail.net_mail SampleMail.test_env
              (static_s3 Scenario.email_bucket) false Scenario.missing_and_present
              [Run 1; Run 0; Run 1; Run 0] ()) as (H & _).
  - split; intros; reflexivity.
  - unfold runs_only. repeat constructor; discriminate.
  - destruct (H 1%nat {| EventName := ""; Bucket_Name := "test-email-bucket";
                         Object_Key := "ses/ffis_ingest/new/test.eml" |})
      as [Hevs Hg]; [reflexivity|].
    split; (etransitivity; [eassumption | vm_compute; reflexivity]).
Defined.

(** ** One key per day *)

Lemma append_slash_inj (a a' rest rest' : string) :
  (forall pre post, a <> pre +:+ String "/" post) ->
  (forall pre post, a' <> pre +:+ String "/" post) ->
  a +:+ String "/" rest = a' +:+ String "/" rest' ->
  a = a' /\ rest = rest'.
Proof.
  revert a'. induction a as [|c a IH]; intros [|c' a'] Ha Ha' H; simpl in H.
  - by injection H as ->.
  - injection H as <- _. by destruct (Ha' EmptyString a').
  - injection H as -> _. by destruct (Ha EmptyString a).
  - injection H as -> H. destruct (IH a') as [-> ->]; [| |done|done].
    + intros pre post ->. by apply (Ha (String c' pre) post).
    + intros pre post ->. by apply (Ha' (String c' pre) post).
Qed.

Lemma string_of_uint_no_slash (d : Decimal.uint) pre post :
  NilEmpty.string_of_uint d <> pre +:+ String "/" post.
Proof.
  revert pre. induction d; intros [|c pre]; simpl; try done;
    intros [= ? H]; by apply IHd in H.
Qed.

Lemma FormatInt_no_slash (i : Z) pre post :
  FormatInt i <> pre +:+ String "/" post.
Proof.
  unfold FormatInt.
  assert (forall d pre post, NilZero.string_of_uint d <> pre +:+ String "/" post) as Hu.
  { intros d pre' post'. destruct d; try apply string_of_uint_no_slash.
    destruct pre' as [|c [|c' pre']]; simpl; done. }
  destruct (Z.to_int i) as [d|d]; simpl; [apply Hu|].
  destruct pre as [|c pre]; simpl; [done|]. intros [= _ H]. by apply Hu in H.
Qed.

Lemma FormatInt_inj (i j : Z) : FormatInt i = FormatInt j -> i = j.
Proof.
  intros H. pose proof (Atoi_FormatInt i) as Hi. rewrite H, Atoi_FormatInt in Hi.
  by injection Hi.
Qed.

Lemma destination_key_inj (t t' : time_Time) :
  destination_key t = destination_key t' -> t = t'.
Proof.
  unfold destination_key. intros H. simpl in H.
  injection H as H.
  apply append_slash_inj in H as [Hy H]; try apply FormatInt_no_slash.
  apply append_slash_inj in H as [Hm H]; try apply FormatInt_no_slash.
  apply (append_slash_inj _ _ "ffis/raw.eml" "ffis/raw.eml") in H as [Hd _];
    try apply FormatInt_no_slash.
  apply FormatInt_inj in Hy, Hm, Hd. destruct t, t'. simpl in *. congruence.
Qed.

(** X8: the destination key determines the day.  Two messages get the same
    key from [processHeader] exactly if their [Date] headers fall on the same
    day of the same month and year: messages of different days never share an
    object, and messages of one day, whoever sent them and at whatever time,
    always do. *)
Theorem one_key_per_day (mail : NetMail) :
  (forall t t', destination_key t = destination_key t' <-> t = t') /\
  (forall h h' address address' key key',
     Handler.processHeader h = inr (address, key) ->
     Handler.processHeader h' = inr (address', key') ->
     exists t t',
       mail_ParseDate (Get h "Date") = inr t /\
       mail_ParseDate (Get h' "Date") = inr t' /\
       (key = key' <->
        Year t = Year t' /\ Month t = Month t' /\ Day t = Day t')).
Proof.
  split.
  - intros t t'. split; [apply destination_key_inj | by intros ->].
  - intros h h' address address' key key'
      (mailFrom & t & _ & Ht & _ & ->)%processHeader_inr
      (mailFrom' & t' & _ & Ht' & _ & ->)%processHeader_inr.
    exists t, t'. split_and!; [done|done|]. split.
    + by intros ->%destination_key_inj.
    + intros (Hy & Hm & Hd). destruct t, t'. simpl in *. by subst.
Qed.

Lemma one_key_per_day_witness :
  let h := [("From", "FFIS <fake@ffis.org>"); ("Date", "Mon, 24 Apr 2023 17:42:13 -0500")] in
  let h' := [("From", "someone@example.com"); ("Date", "24 Apr 2023 08:00 +0000")] in
  exists t t',
    SampleMail.ParseDate (SampleMail.header_Get h "Date") = inr t /\
    SampleMail.ParseDate (SampleMail.header_Get h' "Date") = inr t' /\
    Year t = Year t' /\ Month t = Month t' /\ Day t = Day t'.
Proof.
  intros h h'.
  destruct (one_key_per_day SampleMail.net_mail) as [_ H].
  destruct (H h h' "fake@ffis.org" "someone@example.com"
              "sources/2023/4/24/ffis/raw.eml" "sources/2023/4/24/ffis/raw.eml")
    as (t & t' & Ht & Ht' & Hkey); [vm_compute; reflexivity..|].
  exists t, t'. split_and!; [exact Ht|exact Ht'|apply Hkey; reflexivity..].
Defined.

Lemma course_fetch_failed fm msg params af evs r c params' err :
  task_course fm msg params af evs r ->
  GetObjectEvent c params' (inl err) ∈ evs ->
  params' = params /\
  evs = [GetObjectEvent c params (inl err); MetricEvent fm 1] /\ r = Some err.
Proof.
  intros [(c0 & e & -> & ->) | [(c0 & resp0 & e & -> & -> & He)
          | [(c0 & resp0 & c' & put' & e & -> & -> & Hp)
          | (c0 & resp0 & c' & put' & -> & -> & Hp)]]] Hin;
    repeat (apply elem_of_cons in Hin as [Hin|Hin]; [try done|]);
    try by apply elem_of_nil in Hin.
  by injection Hin as -> -> ->.
Qed.

Lemma course_fetches_once fm msg params af evs r :
  task_course fm msg params af evs r -> length (filter is_fetch evs) = 1%nat.
Proof.
  intros [(c0 & e & -> & ->) | [(c0 & resp0 & e & -> & -> & He)
          | [(c0 & resp0 & c' & put' & e & -> & -> & Hp)
          | (c0 & resp0 & c' & put' & -> & -> & Hp)]]]; reflexivity.
Qed.

(** X9: in [unnamed/part_000] a failure before [processEmail] is the record's
    result as it is.  A record whose fetch fails has made that one [GetObject]
    call, emitted [opportunity.failed] and returned the error of the fetch; a
    record whose fetched body cannot be read to its end has done the same and
    returned the error of the read; neither has called [PutObject], and the
    aggregate holds the error.  Every record fetches once. *)
Theorem part000_early_failure_is_returned (mail : NetMail) (env : Environment)
    {World : Type} (service : S3Service World)
    (ctx_canceled : bool) (s3Event : list S3EventRecord)
    (schedule : list action) (w : World) :
  let out := part000_handleS3EventWithConfig env ctx_canceled s3Event schedule w in
  (forall i c params err,
     GetObjectEvent c params (inl err) ∈ events_of i (trace out.2) ->
     exists record,
       s3Event !! i = Some record /\
       params = record_params record /\
       events_of i (trace out.2)
       = [GetObjectEvent c params (inl err); MetricEvent "opportunity.failed" 1] /\
       goroutines out.2 !! i = Some (Finished (Some err)) /\
       exists es, out.1 = Some es /\ err ∈ es) /\
  (forall i c params resp err,
     GetObjectEvent c params (inr resp) ∈ events_of i (trace out.2) ->
     read_err (Body resp) = Some err ->
     events_of i (trace out.2)
     = [GetObjectEvent c params (inr resp); MetricEvent "opportunity.failed" 1] /\
     goroutines out.2 !! i = Some (Finished (Some err)) /\
     exists es, out.1 = Some es /\ err ∈ es) /\
  (forall i, (i < length s3Event)%nat ->
     length (filter is_fetch (events_of i (trace out.2))) = 1%nat).
Proof.
  intros out.
  destruct (part000_courses env ctx_canceled s3Event schedule w)
    as (results & Hres & Hlen & Herrs & Hret & Htags & Hcourse).
  fold out in Hres, Herrs, Hret, Htags, Hcourse. split_and!.
  - intros i c params err Hin.
    destruct (event_has_result _ _ _ _ Htags Hres Hin) as [r Hr].
    destruct (Hcourse i r Hr) as (record & Hrec & Hc).
    destruct (course_fetch_failed _ _ _ _ _ _ _ _ _ Hc Hin) as (-> & Hevs & ->).
    exists record. split_and!; [done|done|done| |].
    + by rewrite Hres, list_lookup_fmap, Hr.
    + rewrite Hret. by eapply in_aggregate.
  - intros i c params resp err Hin Hread.
    destruct (event_has_result _ _ _ _ Htags Hres Hin) as [r Hr].
    destruct (Hcourse i r Hr) as (record & Hrec & Hc).
    assert (part000_after_fetch env resp = Ret (Some err)) as Haf.
    { unfold part000_after_fetch. simpl. by rewrite Hread. }
    destruct (course_rejected _ _ _ _ _ _ _ _ _ Hc Hin) as (-> & Hevs & err' & -> & Herr').
    { by rewrite Haf. }
    rewrite Haf in Herr'. injection Herr' as <-. split_and!; [done| |].
    + by rewrite Hres, list_lookup_fmap, Hr.
    + rewrite Hret. by eapply in_aggregate.
  - intros i Hi. rewrite <- Hlen in Hi. apply lookup_lt_is_Some_2 in Hi as [r Hr].
    destruct (Hcourse i r Hr) as (record & Hrec & Hc).
    by eapply course_fetches_once.
Qed.

Lemma part000_early_failure_is_returned_witness :
  let out := part000_handleS3EventWithConfig SampleMail.test_env false
               Scenario.missing_and_present [] Scenario.email_bucket in
  let params := {| get_Bucket := "test-email-bucket"; get_Key := "does/not/exist" |} in
  let err := Wrap "operation error S3: GetObject" (errors_New "NoSuchKey") in
  events_of 0 (trace out.2)
  = [GetObjectEvent false params (inl err); MetricEvent "opportunity.failed" 1] /\
  goroutines out.2 !! 0%nat = Some (Finished (Some err)).
Proof.
  intros out params err.
  destruct (part000_early_failure_is_returned SampleMail.net_mail SampleMail.test_env
              MemS3.service false Scenario.missing_and_present [] Scenario.email_bucket)
    as (H & _).
  destruct (H 0%nat false params err) as (record & _ & _ & Hevs & Hg & _).
  - vm_compute. apply list_elem_of_here.
  - split; assumption.
Defined.

(** X10: let the S3 client honour cancellation.  In [unnamed/part_000], too,
    a record task that calls S3 once the context is canceled stops at that
    call: it emits [opportunity.failed] and returns an error whose chain
    identifies the cancellation, which the aggregate holds.  With the context
    canceled before the invocation starts, every record stops at its
    fetch. *)
Theorem part000_cancellation_is_reported (mail : NetMail) (env : Environment)
    {World : Type} (service : S3Service World)
    (ctx_canceled : bool) (s3Event : list S3EventRecord)
    (schedule : list action) (w : World) :
  honours_cancellation ->
  let out := part000_handleS3EventWithConfig env ctx_canceled s3Event schedule w in
  (forall i ev,
     ev ∈ events_of i (trace out.2) ->
     under_canceled ev = true ->
     exists pre err es,
       events_of i (trace out.2) = pre ++ [ev; MetricEvent "opportunity.failed" 1] /\
       goroutines out.2 !! i = Some (Finished (Some err)) /\
       errors_Is err context_Canceled = true /\
       out.1 = Some es /\ err ∈ es) /\
  (ctx_canceled = true ->
     forall i record, s3Event !! i = Some record ->
       exists err,
         events_of i (trace out.2)
         = [GetObjectEvent true (record_params record) (inl err);
            MetricEvent "opportunity.failed" 1] /\
         goroutines out.2 !! i = Some (Finished (Some err)) /\
         errors_Is err context_Canceled = true).
Proof.
  intros Hhon out.
  destruct (part000_courses env ctx_canceled s3Event schedule w)
    as (results & Hres & Hlen & Herrs & Hret & Htags & Hcourse).
  fold out in Hres, Herrs, Hret, Htags, Hcourse.
  unfold part000_handleS3EventWithConfig in out.
  assert (events_genuine out.2) as Hgen.
  { apply stable_run_group; [apply events_genuine_stable|].
    intros j ev' Hin. by apply elem_of_nil in Hin. }
  assert (forall i ev, ev ∈ events_of i (trace out.2) -> under_canceled ev = true ->
     exists pre err,
       events_of i (trace out.2) = pre ++ [ev; MetricEvent "opportunity.failed" 1] /\
       results !! i = Some (Some err) /\
       errors_Is err context_Canceled = true) as Hstop.
  { intros i ev Hin Hc.
    assert (cancel_observed ev = true) as Hobs.
    { apply genuine_under_canceled; [done| |done].
      apply events_of_elem in Hin. by eapply Hgen. }
    destruct (event_has_result _ _ _ _ Htags Hres Hin) as [r Hr].
    destruct (Hcourse i r Hr) as (record & Hrec & Hcrs).
    destruct ev as [c params [err|resp]|c put [err|]|]; try done; simpl in Hobs.
    - destruct (course_fetch_failed _ _ _ _ _ _ _ _ _ Hcrs Hin) as (-> & Hevs & ->).
      exists [], err. by rewrite Hevs.
    - destruct (course_put _ _ _ _ _ _ _ _ _ Hcrs Hin)
        as (c0 & resp & m & Hevs & _ & -> & ->).
      exists [GetObjectEvent c0 (record_params record) (inr resp)], (log_Errorf
        "Error uploading prepared grant opportunity to DynamoDB" err).
      split_and!; [by rewrite Hevs|done|by apply errors_Is_Wrap]. }
  split.
  - intros i ev Hin Hc. destruct (Hstop i ev Hin Hc) as (pre & err & Hevs & Hr & Herr).
    destruct (in_aggregate _ _ _ _ Herrs Hr) as (es & Hes & Hin').
    exists pre, err, es. split_and!; [done| |done| |done].
    + by rewrite Hres, list_lookup_fmap, Hr.
    + by rewrite Hret.
  - intros ->.
    assert (canceled_throughout out.2) as [_ Hthr].
    { apply stable_run_group; [apply canceled_throughout_stable|].
      split; [done|]. intros j ev Hin. by apply elem_of_nil in Hin. }
    intros i record Hi.
    destruct (lookup_lt_is_Some_2 results i) as [r Hr].
    { rewrite Hlen. by eapply lookup_lt_Some. }
    destruct (Hcourse i r Hr) as (record' & Hrec & Hcrs). simplify_eq.
    destruct (course_first _ _ _ _ _ _ Hcrs) as (c & resp & rest & Hevs & _).
    assert (GetObjectEvent c (record_params record) resp ∈ events_of i (trace out.2))
      as Hin by (rewrite Hevs; apply list_elem_of_here).
    assert (c = true) as ->.
    { apply (Hthr i (GetObjectEvent c (record_params record) resp));
        [by apply events_of_elem | done]. }
    destruct (Hstop i _ Hin eq_refl) as (pre & err & Hevs' & Hr' & Herr).
    assert (cancel_observed (GetObjectEvent true (record_params record) resp) = true)
      as Hobs.
    { apply genuine_under_canceled; [done| |done].
      apply events_of_elem in Hin. by eapply Hgen. }
    destruct resp as [e|resp]; [|done].
    destruct (course_fetch_failed _ _ _ _ _ _ _ _ _ Hcrs Hin) as (_ & Hevs'' & ->).
    exists e. split_and!; [done| |done].
    by rewrite Hres, list_lookup_fmap, Hr.
Qed.

Lemma part000_cancellation_is_reported_witness :
  let out := part000_handleS3EventWithConfig SampleMail.test_env true
               Scenario.does_not_matter [] (∅ : MemS3.store) in
  exists err,
    goroutines out.2 !! 0%nat = Some (Finished (Some err)) /\
    errors_Is err context_Canceled = true.
Proof.
  intros out.
  destruct (part000_cancellation_is_reported SampleMail.net_mail SampleMail.test_env
              MemS3.service true Scenario.does_not_matter [] ∅
              mem_s3_honours_cancellation) as [_ H].
  destruct (H eq_refl 0%nat
              {| EventName := ""; Bucket_Name := "source-bucket";
                 Object_Key := "does/not/matter" |} eq_refl)
    as (err & _ & Hg & Herr).
  exists err. split; assumption.
Defined.

Lemma course_accepted fm msg params af evs r c params' resp put :
  task_course fm msg params af evs r ->
  GetObjectEvent c params' (inr resp) ∈ evs ->
  first_put (af resp) = Some put ->
  exists c' err m,
    evs = [GetObjectEvent c params' (inr resp); PutObjectEvent c' put err; MetricEvent m 1] /\
    (err = None <-> r = None).
Proof.
  intros [(c0 & e & -> & ->) | [(c0 & resp0 & e & -> & -> & He)
          | [(c0 & resp0 & c' & put' & e & -> & -> & Hp)
          | (c0 & resp0 & c' & put' & -> & -> & Hp)]]] Hin Hput;
    repeat (apply elem_of_cons in Hin as [Hin|Hin]; [try done|]);
    try by apply elem_of_nil in Hin.
  - injection Hin as -> -> ->. rewrite He in Hput. done.
  - injection Hin as -> -> ->. rewrite Hp in Hput. injection Hput as ->.
    by exists c', (Some e), fm.
  - injection Hin as -> -> ->. rewrite Hp in Hput. injection Hput as ->.
    by exists c', None, "email.moved".
Qed.

Section Accepted.
Context {mail : NetMail} (env : Environment).

Lemma handler_accepted_put resp t :
  read_err (Body resp) = None ->
  accepted env (unread (Body resp)) t ->
  first_put (handler_after_fetch env resp)
  = Some {| put_Bucket := SourceDataBucket env;
            put_Key := destination_key t;
            put_Body := snd (io_ReadAll (Body resp));
            put_ServerSideEncryption := ServerSideEncryptionAes256 |}.
Proof.
  intros Hread (email & mailFrom & Hm & Ha & Hc & Ht).
  unfold handler_after_fetch, Handler.processEmail, Handler.processHeader. simpl.
  by rewrite Hread, Hm, Ha, Ht, Hc.
Qed.

Lemma part000_accepted_put resp t :
  read_err (Body resp) = None ->
  accepted env (unread (Body resp)) t ->
  first_put (part000_after_fetch env resp)
  = Some {| put_Bucket := SourceDataBucket env;
            put_Key := destination_key t;
            put_Body := bytes_NewReader (unread (Body resp));
            put_ServerSideEncryption := ServerSideEncryptionAes256 |}.
Proof.
  intros Hread (email & mailFrom & Hm & Ha & Hc & Ht).
  unfold part000_after_fetch, Part000.processEmail. simpl.
  by rewrite Hread, Hm, Ha, Hc, Ht.
Qed.

End Accepted.

(** X11: a record whose object was fetched and read without error and whose
    message is accepted (it parses, its sender contains the expected address,
    its [Date] parses) is uploaded: the task makes one [PutObject] call, to
    the key of the message's date in the source-data bucket, and the record
    succeeds exactly if that call does.  This holds for [handler.go] and for
    [unnamed/part_000]. *)
Theorem accepted_record_is_uploaded (mail : NetMail) (env : Environment)
    {World : Type} (service : S3Service World)
    (ctx_canceled : bool) (s3Event : list S3EventRecord)
    (schedule : list action) (w : World) :
  let out := handleS3EventWithConfig env ctx_canceled s3Event schedule w in
  let earlier := part000_handleS3EventWithConfig env ctx_canceled s3Event schedule w in
  (forall i c0 params resp t,
     GetObjectEvent c0 params (inr resp) ∈ events_of i (trace out.2) ->
     read_err (Body resp) = None ->
     accepted env (unread (Body resp)) t ->
     exists c put err m,
       events_of i (trace out.2)
       = [GetObjectEvent c0 params (inr resp); PutObjectEvent c put err; MetricEvent m 1] /\
       put_Bucket put = SourceDataBucket env /\
       put_Key put = destination_key t /\
       (err = None <-> goroutines out.2 !! i = Some (Finished None))) /\
  (forall i c0 params resp t,
     GetObjectEvent c0 params (inr resp) ∈ events_of i (trace earlier.2) ->
     read_err (Body resp) = None ->
     accepted env (unread (Body resp)) t ->
     exists c put err m,
       events_of i (trace earlier.2)
       = [GetObjectEvent c0 params (inr resp); PutObjectEvent c put err; MetricEvent m 1] /\
       put_Bucket put = SourceDataBucket env /\
       put_Key put = destination_key t /\
       (err = None <-> goroutines earlier.2 !! i = Some (Finished None))).
Proof.
  intros out earlier. split.
  - destruct (handler_courses env ctx_canceled s3Event schedule w)
      as (results & Hres & Hlen & Herrs & Hret & Htags & Hcourse).
    fold out in Hres, Herrs, Hret, Htags, Hcourse.
    intros i c0 params resp t Hin Hread Hacc.
    destruct (event_has_result _ _ _ _ Htags Hres Hin) as [r Hr].
    destruct (Hcourse i r Hr) as (record & Hrec & Hc).
    destruct (course_accepted _ _ _ _ _ _ _ _ _ _ Hc Hin
                (handler_accepted_put env resp t Hread Hacc))
      as (c & err & m & Hevs & Herr).
    eexists c, _, err, m. split_and!; [exact Hevs|done|done|].
    rewrite Herr, Hres, list_lookup_fmap, Hr. simpl. split; [by intros ->|by intros [= ->]].
  - destruct (part000_courses env ctx_canceled s3Event schedule w)
      as (results & Hres & Hlen & Herrs & Hret & Htags & Hcourse).
    fold earlier in Hres, Herrs, Hret, Htags, Hcourse.
    intros i c0 params resp t Hin Hread Hacc.
    destruct (event_has_result _ _ _ _ Htags Hres Hin) as [r Hr].
    destruct (Hcourse i r Hr) as (record & Hrec & Hc).
    destruct (course_accepted _ _ _ _ _ _ _ _ _ _ Hc Hin
                (part000_accepted_put env resp t Hread Hacc))
      as (c & err & m & Hevs & Herr).
    eexists c, _, err, m. split_and!; [exact Hevs|done|done|].
    rewrite Herr, Hres, list_lookup_fmap, Hr. simpl. split; [by intros ->|by intros [= ->]].
Qed.

Lemma accepted_record_is_uploaded_witness :
  let out := handleS3EventWithConfig SampleMail.test_env false
               Scenario.present [] Scenario.email_bucket in
  exists c put err m,
    events_of 0 (trace out.2)
    = [GetObjectEvent false {| get_Bucket := "test-email-bucket";
                               get_Key := "ses/ffis_ingest/new/test.eml" |}
         (inr {| Body := bytes_NewReader SampleMail.RECEIVED_EMAIL_TEMPLATE |});
       PutObjectEvent c put err; MetricEvent m 1] /\
    put_Key put = "sources/2023/4/24/ffis/raw.eml".
Proof.
  intros out.
  destruct (accepted_record_is_uploaded SampleMail.net_mail SampleMail.test_env
              MemS3.service false Scenario.present [] Scenario.email_bucket) as [H _].
  destruct (H 0%nat false
              {| get_Bucket := "test-email-bucket";
                 get_Key := "ses/ffis_ingest/new/test.eml" |}
              {| Body := bytes_NewReader SampleMail.RECEIVED_EMAIL_TEMPLATE |}
              {| Year := 2023; Month := 4; Day := 24 |})
    as (c & put & err & m & Hevs & _ & Hkey & _).
  - vm_compute. apply list_elem_of_here.
  - reflexivity.
  - eexists _, _. split_and!; vm_compute; reflexivity.
  - exists c, put, err, m. split; [exact Hevs|exact Hkey].
Defined.

(** ** The sender check *)

Lemma Contains_empty s : strings_Contains s EmptyString = true.
Proof. by destruct s. Qed.

(** X12: with an empty [ValidFFISEmail] the sender check accepts every
    sender: [strings.Contains] finds the empty string in every address, so both
    revisions of [processEmail] go on to upload any message whose [From] and
    [Date] headers parse. *)
Theorem empty_expected_address_accepts_every_sender (mail : NetMail) (env : Environment)
    (b : string) (email : mail_Message) (mailFrom : mail_Address) (t : time_Time) :
  ValidFFISEmail env = EmptyString ->
  mail_ReadMessage b = inr email ->
  mail_ParseAddress (Get (Header email) "From") = inr mailFrom ->
  mail_ParseDate (Get (Header email) "Date") = inr t ->
  accepted env b t /\
  (exists put, first_put (Handler.processEmail env (bytes_NewReader b)) = Some put /\
               put_Key put = destination_key t) /\
  (exists put, first_put (Part000.processEmail env b) = Some put /\
               put_Key put = destination_key t).
Proof.
  intros Hv Hm Ha Ht.
  assert (accepted env b t) as Hacc.
  { exists email, mailFrom. split_and!; try done. rewrite Hv. apply Contains_empty. }
  split; [done|]. split.
  - pose proof (handler_accepted_put env {| Body := bytes_NewReader b |} t eq_refl Hacc)
      as H. eexists. split; [exact H|done].
  - pose proof (part000_accepted_put env {| Body := bytes_NewReader b |} t eq_refl Hacc)
      as H. eexists. split; [exact H|done].
Qed.

Lemma empty_expected_address_accepts_every_sender_witness :
  exists put,
    first_put (Handler.processEmail (mail := SampleMail.net_mail)
                 {| SourceDataBucket := "test-source-data-bucket";
                    ValidFFISEmail := EmptyString |}
                 (bytes_NewReader Scenario.spoofed_display_name)) = Some put /\
    put_Key put = "sources/2023/4/24/ffis/raw.eml".
Proof.
  destruct (empty_expected_address_accepts_every_sender SampleMail.net_mail
              {| SourceDataBucket := "test-source-data-bucket";
                 ValidFFISEmail := EmptyString |}
              Scenario.spoofed_display_name
              {| SampleMail.msg_Header :=
                   [("From", String SampleMail.DQUOTE "fake@ffis.org"
                             +:+ String SampleMail.DQUOTE " <intruder@example.com>");
                    ("Date", "Mon, 24 Apr 2023 17:42:13 -0500")];
                 SampleMail.msg_Body := SampleMail.join_lines ["This is a test"; ""] |}
              {| Name := "fake@ffis.org"; Address := "intruder@example.com" |}
              {| Year := 2023; Month := 4; Day := 24 |})
    as (_ & H & _); [reflexivity|vm_compute; reflexivity..|exact H].
Defined.

(** ** From the bucket of received mail to the source-data bucket *)

Section Single.
Context {World : Type} {service : S3Service World}.

(** Waiting for a goroutine does not depend on how far it has come. *)
Lemma join_step (s : State World) i : join (step i s) i = join s i.
Proof.
  unfold join at 2. destruct (goroutines s !! i) as [[t|r]|] eqn:Hi.
  - pose proof (step_running _ _ _ Hi) as Hi'. unfold join. rewrite Hi'.
    destruct t as [r|params k|params k|name value k]; simpl in *; try done.
    + clear Hi'. generalize (step i s). intros s'.
      by destruct (service_GetObject (done s) params (world s)).
    + clear Hi'. generalize (step i s). intros s'.
      by destruct (service_PutObject (done s) params (world s)).
  - unfold join, step. rewrite Hi. by rewrite Hi.
  - unfold join, step. rewrite Hi. by rewrite Hi.
Qed.

(** With one record there is nothing to interleave. *)
Lemma single_task_run c t schedule (w : World) :
  runs_only schedule -> run_group c [t] schedule w = run_group c [t] [] w.
Proof.
  intros Hsched. unfold run_group. cbv zeta.
  set (init := {| world := w; done := c; trace := []; errs := [];
                  goroutines := Running <$> [t] |}).
  assert (forall s, length (goroutines s) = 1%nat ->
            length (goroutines (foldl perform s schedule)) = 1%nat /\
            join (foldl perform s schedule) 0 = join s 0) as H.
  { induction Hsched as [|[i|] l Ha _ IH]; intros s Hlen; simpl; [done| |done].
    destruct (IH (step i s)) as [IH1 IH2]; [by rewrite step_length|].
    split; [done|]. rewrite IH2. destruct i as [|i]; [apply join_step|].
    unfold step. by rewrite lookup_ge_None_2 by (rewrite Hlen; lia). }
  destruct (H init eq_refl) as [Hlen Hjoin].
  assert (Wait (foldl perform init schedule) = Wait init) as ->; [|done].
  unfold Wait. rewrite Hlen. simpl. exact Hjoin.
Qed.

End Single.

(** X13: [unnamed/part_000] moves a message.  Against a store of objects by
    bucket and key (like the fake S3 of [handler_test.go]), an invocation for
    one record whose object holds an accepted message, not canceled, returns
    [nil], and afterwards the store holds the same bytes under the key of the
    message's date in the source-data bucket and is otherwise unchanged. *)
Theorem part000_moves_the_message (mail : NetMail) (env : Environment)
    (record : S3EventRecord) (b : string) (t : time_Time)
    (schedule : list action) (objects : MemS3.store) :
  objects !! (Bucket_Name record, Object_Key record) = Some b ->
  accepted env b t ->
  runs_only schedule ->
  let out := part000_handleS3EventWithConfig env false [record] schedule objects in
  out.1 = None /\
  world out.2 = <[(SourceDataBucket env, destination_key t) := b]> objects /\
  world out.2 !! (SourceDataBucket env, destination_key t) = Some b.
Proof.
  intros Hobj (email & mailFrom & Hm & Ha & Hc & Ht) Hsched out.
  assert (out = (None,
            {| world := <[(SourceDataBucket env, destination_key t) := b]> objects;
               done := false;
               trace := [(0%nat, GetObjectEvent false (record_params record)
                                   (inr {| Body := bytes_NewReader b |}));
                         (0%nat, PutObjectEvent false
                                   {| put_Bucket := SourceDataBucket env;
                                      put_Key := destination_key t;
                                      put_Body := bytes_NewReader b;
                                      put_ServerSideEncryption := ServerSideEncryptionAes256 |}
                                   None);
                         (0%nat, MetricEvent "email.moved" 1)];
               errs := [];
               goroutines := [Finished None] |})) as ->.
  { unfold out, part000_handleS3EventWithConfig. rewrite fmap_cons, fmap_nil.
    rewrite single_task_run by done.
    unfold run_group, Wait, join, Part000.recordTask. simpl.
    unfold step. simpl. unfold MemS3.GetObject. simpl. rewrite Hobj. simpl.
    rewrite (part000_processEmail_parsed env b email mailFrom Hm Ha), Hc, Ht. simpl.
    reflexivity. }
  simpl. split_and!; [done|done|]. apply lookup_insert_eq.
Qed.

Lemma part000_moves_the_message_witness :
  let out := part000_handleS3EventWithConfig SampleMail.test_env false
               Scenario.present [Run 0; Run 0] Scenario.email_bucket in
  out.1 = None /\
  world out.2 !! ("test-source-data-bucket", "sources/2023/4/24/ffis/raw.eml")
  = Some SampleMail.RECEIVED_EMAIL_TEMPLATE.
Proof.
  intros out.
  destruct (part000_moves_the_message SampleMail.net_mail SampleMail.test_env
              {| EventName := ""; Bucket_Name := "test-email-bucket";
                 Object_Key := "ses/ffis_ingest/new/test.eml" |}
              SampleMail.RECEIVED_EMAIL_TEMPLATE
              {| Year := 2023; Month := 4; Day := 24 |}
              [Run 0; Run 0] Scenario.email_bucket)
    as (H1 & _ & H3).
  - vm_compute. reflexivity.
  - eexists _, _. split_and!; vm_compute; reflexivity.
  - unfold runs_only. repeat constructor; discriminate.
  - split; [exact H1|exact H3].
Defined.
